(** * Obsidian vault server: frontmatter codec and vault store

    A shallow embedding of [src/frontmatter_parser.py] and
    [src/vault_manager.py], and the properties of the specification
    checked against it.

    Conventions of the embedding.
    - A Python [str] is a [text]: the list of its characters.  A character
      is an [ascii], standing for the code points 0..255; the classes [\s]
      and [\w] follow CPython's tables on that range.
    - The [re] module is embedded as a backtracking matcher over a regex
      syntax tree; each compiled pattern of the source is written as the
      tree its pattern string denotes ([re.escape s] denotes the literal
      [s]).
    - PyYAML and the operating system's path canonicalisation are
      collaborators of the program: they are the fields of the classes
      [Yaml] and [Platform], and the theorems hold for every instance.
      Small reference instances are provided to run the examples.
    - [stat] is a collaborator of [list_notes] in the same way, the class
      [Stat].  The recursion of [get_vault_structure] is given fuel, and
      is shown to end within it.
    - Text files are read with universal newlines: a file system node
      holds the text as [read_text] returns it, and [write_text] stores
      what will be read back.
    - Permissions enter where the program handles their refusal, in
      [get_vault_structure]: the class [Access] says which directories may
      be listed and which entries examined. *)

From Stdlib Require Import Ascii String Sorted.
From stdpp Require Import gmap strings list.

Open Scope list_scope.
Set Warnings "-register-all".

Abbreviation text := (list ascii).

(** [str "abc"] is the text of a string literal; [nl] is the newline. *)
Definition str (s : string) : text := list_ascii_of_string s.
Definition nl : ascii := "010"%char.

(** ** The [re] module *)

Module Re.

(** Character classes on code points 0..255, as [Py_UNICODE_ISSPACE] and
    [Py_UNICODE_ISALNUM || '_'] decide them. *)
Definition is_space (c : ascii) : bool :=
  let n := nat_of_ascii c in
  ((9 <=? n) && (n <=? 13)) || ((28 <=? n) && (n <=? 32))
  || (n =? 133) || (n =? 160).

Definition is_word (c : ascii) : bool :=
  let n := nat_of_ascii c in
  ((48 <=? n) && (n <=? 57)) || ((65 <=? n) && (n <=? 90)) || (n =? 95)
  || ((97 <=? n) && (n <=? 122))
  || (n =? 170) || (n =? 178) || (n =? 179) || (n =? 181) || (n =? 185)
  || (n =? 186) || ((188 <=? n) && (n <=? 190))
  || ((192 <=? n) && (n <=? 214)) || ((216 <=? n) && (n <=? 246))
  || ((248 <=? n) && (n <=? 255)).

(** One-character sets: [.] under DOTALL, a literal, [[^c]], [\s], [\w]. *)
Inductive cset :=
| CAny
| CChr (c : ascii)
| CNot (c : ascii)
| CSpace
| CWord.

Definition mem (cs : cset) (x : ascii) : bool :=
  match cs with
  | CAny => true
  | CChr c => bool_decide (x = c)
  | CNot c => negb (bool_decide (x = c))
  | CSpace => is_space x
  | CWord => is_word x
  end.

(** The fragment of the pattern language the program uses.  The patterns
    have at most one capture group, so [Group] is group 1. *)
Inductive regex :=
| Eps
| Set_ (cs : cset)
| Cat (r1 r2 : regex)
| Opt (r : regex)        (* r?   greedy *)
| Star (r : regex)       (* r*   greedy *)
| StarLazy (r : regex)   (* r*?  *)
| Plus (r : regex)       (* r+   greedy *)
| Group (r : regex)      (* (r)  *)
| Bos                    (* ^ without MULTILINE *)
| WordB.                 (* \b *)

Definition lit (s : text) : regex :=
  foldr (fun c r => Cat (Set_ (CChr c)) r) Eps s.

Fixpoint cat (rs : list regex) : regex :=
  match rs with
  | [] => Eps
  | [r] => r
  | r :: rs' => Cat r (cat rs')
  end.

(** A matcher state: the character before the cursor, the input after it,
    and what group 1 captured so far. *)
Record mstate := MState {
  prev : option ascii;
  rest : text;
  grp : option text
}.

Definition word_at (o : option ascii) : bool :=
  match o with Some c => is_word c | None => false end.

(** [\b] holds where exactly one side of the cursor is a word character. *)
Definition at_boundary (st : mstate) : bool :=
  xorb (word_at (prev st)) (word_at (head (rest st))).

Definition shorter (st' st : mstate) : bool :=
  length (rest st') <? length (rest st).

(** Greedy and lazy iteration of a step.  An iteration that consumes
    nothing is not repeated. *)
Fixpoint iter_greedy (step : mstate -> list mstate) (fuel : nat)
    (st : mstate) : list mstate :=
  match fuel with
  | 0 => [st]
  | S f =>
      flat_map (fun st' => if shorter st' st then iter_greedy step f st' else [])
               (step st) ++ [st]
  end.

Fixpoint iter_lazy (step : mstate -> list mstate) (fuel : nat)
    (st : mstate) : list mstate :=
  match fuel with
  | 0 => [st]
  | S f =>
      st :: flat_map (fun st' => if shorter st' st then iter_lazy step f st' else [])
                     (step st)
  end.

(** The text consumed between two states of one run. *)
Definition consumed (st st' : mstate) : text :=
  take (length (rest st) - length (rest st')) (rest st).

(** [run r st] lists the states in which a match of [r] from [st] can end,
    in the order the backtracking matcher tries them. *)
Fixpoint run (r : regex) (st : mstate) : list mstate :=
  match r with
  | Eps => [st]
  | Set_ cs =>
      match rest st with
      | x :: xs => if mem cs x then [MState (Some x) xs (grp st)] else []
      | [] => []
      end
  | Cat r1 r2 => flat_map (run r2) (run r1 st)
  | Opt r1 => run r1 st ++ [st]
  | Star r1 => iter_greedy (run r1) (length (rest st)) st
  | StarLazy r1 => iter_lazy (run r1) (length (rest st)) st
  | Plus r1 =>
      flat_map (fun st' => iter_greedy (run r1) (length (rest st')) st')
               (run r1 st)
  | Group r1 =>
      map (fun st' => MState (prev st') (rest st') (Some (consumed st st')))
          (run r1 st)
  | Bos => match prev st with None => [st] | Some _ => [] end
  | WordB => if at_boundary st then [st] else []
  end.

(** [pattern.match(s)]: the first way to match at the start of [s]. *)
Definition match_ (r : regex) (s : text) : option mstate :=
  head (run r (MState None s None)).

(** The match found when the cursor is at [s], after [p]. *)
Definition match_at (r : regex) (p : option ascii) (s : text) : option mstate :=
  head (run r (MState p s None)).

(** [pattern.search(s)]: the leftmost position with a match. *)
Fixpoint search_from (r : regex) (p : option ascii) (s : text) : option mstate :=
  match match_at r p s with
  | Some st => Some st
  | None =>
      match s with
      | [] => None
      | c :: s' => search_from r (Some c) s'
      end
  end.

Definition search (r : regex) (s : text) : option mstate :=
  search_from r None s.

(** [pattern.findall(s)] for a pattern with one group: the text of group 1
    of every non-overlapping match, left to right ([''] for a group that
    did not take part). *)
Fixpoint findall_from (r : regex) (fuel : nat) (p : option ascii) (s : text)
    : list text :=
  match fuel with
  | 0 => []
  | S f =>
      match match_at r p s with
      | Some st =>
          default [] (grp st) ::
          (if length (rest st) <? length s
           then findall_from r f (prev st) (rest st)
           else match s with
                | [] => []
                | c :: s' => findall_from r f (Some c) s'
                end)
      | None =>
          match s with
          | [] => []
          | c :: s' => findall_from r f (Some c) s'
          end
      end
  end.

Definition findall (r : regex) (s : text) : list text :=
  findall_from r (S (length s)) None s.

End Re.


Import Re.

(** ** Python values: strings, dictionaries, exceptions *)

(** [s.lstrip(c)] for a one-character argument. *)
Fixpoint lstrip (c : ascii) (s : text) : text :=
  match s with
  | x :: s' => if decide (x = c) then lstrip c s' else s
  | [] => []
  end.

(** [s.split(sep)]. *)
Fixpoint split_on (sep : ascii) (s : text) : list text :=
  match s with
  | [] => [[]]
  | c :: s' =>
      if decide (c = sep) then [] :: split_on sep s'
      else match split_on sep s' with
           | w :: ws => (c :: w) :: ws
           | [] => [[c]]
           end
  end.

(** [sep.join(ws)]. *)
Fixpoint join (sep : text) (ws : list text) : text :=
  match ws with
  | [] => []
  | [w] => w
  | w :: ws' => w ++ sep ++ join sep ws'
  end.

(** What [yaml.safe_load] can return: the variant type of the design
    notes.  A mapping keeps its keys in insertion order, as a [dict]. *)
Inductive yval :=
| YNull
| YBool (b : bool)
| YInt (n : Z)
| YStr (s : text)
| YSeq (l : list yval)
| YMap (m : list (text * yval)).

Abbreviation dict := (list (text * yval)).

(** Python truthiness, as [not x], [x or y] and [if x:] use it. *)
Definition truthy (v : yval) : bool :=
  match v with
  | YNull => false
  | YBool b => b
  | YInt n => negb (n =? 0)%Z
  | YStr s => negb (bool_decide (s = []))
  | YSeq l => match l with [] => false | _ => true end
  | YMap m => match m with [] => false | _ => true end
  end.

Fixpoint dict_get (k : text) (d : dict) : option yval :=
  match d with
  | [] => None
  | (k', v) :: d' => if decide (k' = k) then Some v else dict_get k d'
  end.

(** [d[k] = v]: an existing key keeps its place, a new key goes last. *)
Fixpoint dict_set (k : text) (v : yval) (d : dict) : dict :=
  match d with
  | [] => [(k, v)]
  | (k', v') :: d' =>
      if decide (k' = k) then (k, v) :: d' else (k', v') :: dict_set k v d'
  end.

(** [{**a, **b}]. *)
Definition dict_merge (a b : dict) : dict :=
  foldl (fun d kv => dict_set kv.1 kv.2 d) a b.

Abbreviation keys d := (map fst (d : dict)).

Inductive exn :=
| ValueError (msg : text)
| TypeError (msg : text)
| FileNotFoundError (msg : text)
| FileExistsError (msg : text)
| NotADirectoryError (msg : text)
| IsADirectoryError (msg : text)
| UnicodeDecodeError (msg : text)
| PermissionError (msg : text).

(** [c.lower()] on the code points 0..255: the letters [A]..[Z] and the
    Latin-1 capitals 192..222 but the multiplication sign move up by 32;
    the length of a string does not change. *)
Definition lower_char (c : ascii) : ascii :=
  let n := nat_of_ascii c in
  if ((65 <=? n) && (n <=? 90))
     || ((192 <=? n) && (n <=? 222) && negb (n =? 215))
  then ascii_of_nat (n + 32) else c.

Definition lower (s : text) : text := map lower_char s.

(** [s.startswith(w)], [sub in s] and [s.find(sub)], which is [-1] when
    [sub] does not occur. *)
Definition startswith (w s : text) : bool :=
  bool_decide (take (length w) s = w).

Fixpoint str_in (sub s : text) : bool :=
  startswith sub s
  || match s with
     | [] => false
     | _ :: s' => str_in sub s'
     end.

Fixpoint find_from (sub s : text) (i : Z) : Z :=
  if startswith sub s then i
  else match s with
       | [] => (-1)%Z
       | _ :: s' => find_from sub s' (i + 1)%Z
       end.

Definition find (s sub : text) : Z := find_from sub s 0.

(** [s[start:stop]] for bounds that are not negative. *)
Definition slice (s : text) (start stop : Z) : text :=
  take (Z.to_nat stop - Z.to_nat start) (drop (Z.to_nat start) s).

(** [s.replace(a, b)] for one-character [a] and [b]. *)
Definition replace_char (a b : ascii) (s : text) : text :=
  map (fun c => if decide (c = a) then b else c) s.

(** Python's [<] on strings and on lists of strings: lexicographic, by
    code point, a proper prefix being smaller. *)
Fixpoint list_compare {A} (cmp : A -> A -> comparison) (a b : list A)
    : comparison :=
  match a, b with
  | [], [] => Eq
  | [], _ :: _ => Lt
  | _ :: _, [] => Gt
  | x :: a', y :: b' =>
      match cmp x y with
      | Eq => list_compare cmp a' b'
      | c => c
      end
  end.

Definition chr_compare (x y : ascii) : comparison :=
  Nat.compare (nat_of_ascii x) (nat_of_ascii y).

Definition str_compare : text -> text -> comparison := list_compare chr_compare.

(** [sorted(l)]: a stable sort that compares with [<] only. *)
Fixpoint insert_lt {A} (lt : A -> A -> bool) (x : A) (l : list A) : list A :=
  match l with
  | [] => [x]
  | y :: l' => if lt y x then y :: insert_lt lt x l' else x :: y :: l'
  end.

Definition sorted_lt {A} (lt : A -> A -> bool) (l : list A) : list A :=
  foldr (insert_lt lt) [] l.

(** PyYAML, as the program uses it: [yaml.dump(v, default_flow_style=False,
    sort_keys=False, allow_unicode=True)] and [yaml.safe_load(s)], which
    returns a value or raises [yaml.YAMLError] with a diagnostic. *)
Class Yaml := {
  yaml_dump : yval -> text;
  yaml_safe_load : text -> text + yval
}.

(** ** frontmatter_parser.py *)

Module FrontmatterParser.
Section WithYaml.
Context {Y : Yaml}.

Record FrontmatterResult := {
  frontmatter : yval;
  content : text;
  has_frontmatter : bool
}.

(** [re.compile(r"^---\s*\n(.*?)\n---\s*\n", re.DOTALL)] *)
Definition FRONTMATTER_PATTERN : regex :=
  cat [Bos; lit (str "---"); Star (Set_ CSpace); Set_ (CChr nl);
       Group (StarLazy (Set_ CAny));
       Set_ (CChr nl); lit (str "---"); Star (Set_ CSpace); Set_ (CChr nl)].

Definition parse (text_ : text) : exn + FrontmatterResult :=
  match match_ FRONTMATTER_PATTERN text_ with
  | None =>
      inr {| frontmatter := YMap []; content := text_; has_frontmatter := false |}
  | Some m =>
      let frontmatter_text := default [] (grp m) in
      let content := rest m in
      match yaml_safe_load frontmatter_text with
      | inl e => inl (ValueError (str "Invalid YAML frontmatter: " ++ e))
      | inr v =>
          inr {| frontmatter := if truthy v then v else YMap [];
                 content := content;
                 has_frontmatter := true |}
      end
  end.

Definition dump (frontmatter : yval) (content : text) : text :=
  if negb (truthy frontmatter) then content
  else str "---" ++ [nl] ++ yaml_dump frontmatter
       ++ str "---" ++ [nl; nl] ++ content.

Definition update (text_ : text) (frontmatter_ : dict) : exn + text :=
  match parse text_ with
  | inl e => inl e
  | inr result =>
      match frontmatter result with
      | YMap existing =>
          let merged_frontmatter := dict_merge existing frontmatter_ in
          inr (dump (YMap merged_frontmatter) (content result))
      | _ => inl (TypeError (str "object is not a mapping"))
      end
  end.

End WithYaml.
End FrontmatterParser.

(** ** The file system and pathlib *)

(** An absolute path is the list of its components below [/]. *)
Abbreviation path := (list text).

(** A directory entry: a directory, or a file with the text that
    [read_text(encoding="utf-8")] returns for it ([None] when its bytes do
    not decode). *)
Inductive node :=
| Dir
| File (data : option text).

Abbreviation fsys := (gmap path node).

(** [PurePosixPath(s).parts] for a relative [s]: empty and [.] components
    are dropped, [..] is kept. *)
Definition parts (s : text) : path :=
  filter (fun w => w ≠ [] ∧ w ≠ str ".") (split_on "/" s).

(** [p.parent]; the root is its own parent. *)
Definition parent (p : path) : path := removelast p.

(** [p.name] and [p.stem]. *)
Definition name (p : path) : text := List.last p [].

Fixpoint rfind_dot (s : text) : option nat :=
  match s with
  | [] => None
  | c :: s' =>
      match rfind_dot s' with
      | Some i => Some (S i)
      | None => if decide (c = "."%char) then Some 0 else None
      end
  end.

Definition stem (p : path) : text :=
  let n := name p in
  match rfind_dot n with
  | Some i => if (0 <? i) && (i <? length n - 1) then take i n else n
  | None => n
  end.

(** [p.relative_to(base)]: the components of [p] below [base], or
    [ValueError] ([None]) when [base] is not a prefix of [p]. *)
Fixpoint relative_to (p base : path) : option path :=
  match base, p with
  | [], _ => Some p
  | b :: base', c :: p' => if decide (c = b) then relative_to p' base' else None
  | _ :: _, [] => None
  end.

Definition as_posix (rel : path) : text :=
  match rel with
  | [] => str "."
  | _ => join (str "/") rel
  end.

Definition render (p : path) : text := "/"%char :: join (str "/") p.

(** [p < q] on paths: pathlib compares the lists of components. *)
Definition path_lt (p q : path) : bool :=
  match list_compare str_compare p q with Lt => true | _ => false end.

(** The operating system, as far as the program depends on it:
    [realpath] is what [Path.resolve()] returns for an absolute path ([..]
    and symbolic links resolved); [rglob_md fs d] lists, in the order the
    system yields them, the paths relative to [d] of the entries that
    [d.rglob("*.md")] yields (each yielded path is [d] joined with one). *)
Class Platform := {
  realpath : path -> path;
  rglob_md : fsys -> path -> list path
}.

(** Operations on the file system: a state and exception monad. *)
Definition M (A : Type) : Type := fsys -> fsys * (exn + A).

Definition ret {A} (a : A) : M A := fun fs => (fs, inr a).
Definition raise {A} (e : exn) : M A := fun fs => (fs, inl e).
Definition bind {A B} (m : M A) (k : A -> M B) : M B :=
  fun fs =>
    match m fs with
    | (fs', inr a) => k a fs'
    | (fs', inl e) => (fs', inl e)
    end.
Definition lift {A} (r : exn + A) : M A :=
  match r with inl e => raise e | inr a => ret a end.

Declare Scope fs_scope.
Delimit Scope fs_scope with fs.
Notation "'let*' x := m 'in' k" := (bind m (fun x => k))
  (at level 10, x name, m at level 100, k at level 200) : fs_scope.
Notation "m ;; k" := (bind m (fun _ => k))
  (at level 100, k at level 200, right associativity) : fs_scope.

Definition exists_ (p : path) : M bool :=
  fun fs => (fs, inr (bool_decide (is_Some (fs !! p)))).

Definition is_dir (p : path) : M bool :=
  fun fs =>
    (fs, inr match fs !! p with Some Dir => true | _ => false end).

(** [read_text] and [write_text] open the file with [newline=None].  On
    reading, every carriage return followed by a newline, and every other
    carriage return, comes back as one newline; on writing, a newline is
    written as [os.linesep], which is the newline itself on the POSIX
    paths of this model.  [universal_newlines s] is what is read back from
    a file after [s] was written to it. *)
Definition cr : ascii := "013"%char.

Fixpoint universal_newlines (s : text) : text :=
  match s with
  | [] => []
  | c :: s' =>
      if decide (c = cr) then
        nl :: match s' with
              | c' :: s'' =>
                  if decide (c' = nl) then universal_newlines s''
                  else universal_newlines s'
              | [] => []
              end
      else c :: universal_newlines s'
  end.

Definition read_text (p : path) : M text :=
  fun fs =>
    match fs !! p with
    | Some (File (Some s)) => (fs, inr s)
    | Some (File None) => (fs, inl (UnicodeDecodeError (render p)))
    | Some Dir => (fs, inl (IsADirectoryError (render p)))
    | None => (fs, inl (FileNotFoundError (render p)))
    end.

(** A node holds the text as [read_text] returns it, so what
    [write_text p s] leaves at [p] is [universal_newlines s]. *)
Definition write_text (p : path) (s : text) : M unit :=
  fun fs =>
    match fs !! p with
    | Some Dir => (fs, inl (IsADirectoryError (render p)))
    | Some (File _) => (<[p := File (Some (universal_newlines s))]> fs, inr ())
    | None =>
        match fs !! parent p with
        | Some Dir => (<[p := File (Some (universal_newlines s))]> fs, inr ())
        | Some (File _) => (fs, inl (NotADirectoryError (render p)))
        | None => (fs, inl (FileNotFoundError (render p)))
        end
    end.

(** [os.mkdir(p)]. *)
Definition os_mkdir (p : path) : M unit :=
  fun fs =>
    match fs !! p with
    | Some _ => (fs, inl (FileExistsError (render p)))
    | None =>
        match fs !! parent p with
        | Some Dir => (<[p := Dir]> fs, inr ())
        | Some (File _) => (fs, inl (NotADirectoryError (render p)))
        | None => (fs, inl (FileNotFoundError (render p)))
        end
    end.

(** [p.mkdir(parents=False, exist_ok=True)]. *)
Definition mkdir_exist_ok (p : path) : M unit :=
  fun fs =>
    match os_mkdir p fs with
    | (fs', inr u) => (fs', inr u)
    | (_, inl e) =>
        match fs !! p with
        | Some Dir => (fs, inr ())
        | _ => (fs, inl e)
        end
    end.

(** [p.mkdir(parents=True, exist_ok=True)] for [p = rev rp]: pathlib tries
    [os.mkdir], and on [FileNotFoundError] makes the parent first. *)
Fixpoint mkdir_rev (rp : list text) : M unit :=
  fun fs =>
    let p := rev rp in
    match os_mkdir p fs with
    | (fs', inr u) => (fs', inr u)
    | (_, inl (FileNotFoundError msg)) =>
        match rp with
        | [] => (fs, inl (FileNotFoundError msg))
        | _ :: rparent =>
            match mkdir_rev rparent fs with
            | (fs1, inr _) => mkdir_exist_ok p fs1
            | (fs1, inl e) => (fs1, inl e)
            end
        end
    | (_, inl e) =>
        match fs !! p with
        | Some Dir => (fs, inr ())
        | _ => (fs, inl e)
        end
    end.

Definition mkdir_parents (p : path) : M unit := mkdir_rev (rev p).

(** [p.suffix]: the name from its last dot on, when that dot is neither
    the first nor the last character of the name. *)
Definition suffix (p : path) : text :=
  let n := name p in
  match rfind_dot n with
  | Some i => if (0 <? i) && (i <? length n - 1) then drop i n else []
  | None => []
  end.

(** What the process is permitted to do, at the two calls whose refusal
    the program handles, both in [get_vault_structure]: [may_list d] says
    that the directory [d] may be listed, [may_stat p] that the entry [p]
    may be examined by [is_dir].  A refused call raises [PermissionError].
    The other operations of the model are not subject to permissions. *)
Class Access := {
  may_list : path -> bool;
  may_stat : path -> bool
}.

(** [p.iterdir()]: the entries of the directory [p], in the order the
    system yields them. *)
Definition iterdir {A : Access} (p : path) : M (list path) :=
  fun fs =>
    match fs !! p with
    | Some Dir =>
        if may_list p then
          (fs, inr (filter (fun q => q <> [] /\ parent q = p)
                           (map fst (map_to_list fs))))
        else (fs, inl (PermissionError (render p)))
    | Some (File _) => (fs, inl (NotADirectoryError (render p)))
    | None => (fs, inl (FileNotFoundError (render p)))
    end.

(** ** vault_manager.py *)

Module VaultManager.
Import FrontmatterParser.

(** The dictionaries the scans return. *)
Record note_ref := { nr_path : text; nr_name : text }.
Record backlink := { bl_path : text; bl_name : text; link_count : nat }.
Record tag_entry := { tag : text; count : nat; examples : list text }.
Record search_hit := { sh_path : text; sh_name : text; excerpt : text }.

(** The nested dictionaries of [get_vault_structure]: a directory with its
    children, or a note with its path. *)
Inductive tree :=
| Directory (name_ : text) (children : list tree)
| Note (name_ : text) (path_ : text).

(** [sorted(l, key=key)]: a stable sort, ascending in the key. *)
Fixpoint insert_sorted {A} (key : A -> Z) (x : A) (l : list A) : list A :=
  match l with
  | [] => [x]
  | y :: l' =>
      if (key x <=? key y)%Z then x :: y :: l' else y :: insert_sorted key x l'
  end.

Definition sorted {A} (key : A -> Z) (l : list A) : list A :=
  foldr (insert_sorted key) [] l.

(** The body of the inner loop of [list_tags]: one occurrence of [tag_] in
    the note [rel_path].  [tag_data] is the dictionary
    tag -> {"count", "examples"}, in insertion order. *)
Fixpoint tag_data_hit (tag_ rel_path : text) (tag_data : list tag_entry)
    : list tag_entry :=
  match tag_data with
  | [] =>
      (* tag not in tag_data: a fresh entry, then the update below *)
      [{| tag := tag_; count := 0 + 1; examples := [] ++ [rel_path] |}]
  | e :: tag_data' =>
      if decide (tag e = tag_) then
        {| tag := tag e;
           count := count e + 1;
           examples := if length (examples e) <? 3
                       then examples e ++ [rel_path] else examples e |}
        :: tag_data'
      else e :: tag_data_hit tag_ rel_path tag_data'
  end.

Section WithCollaborators.
Context {Y : Yaml} {P : Platform}.

Record VaultManager := { vault_path : path }.

Definition __init__ (vault_path_ : path) : M VaultManager :=
  let self := {| vault_path := realpath vault_path_ |} in
  (let* e := exists_ (vault_path self) in
   if negb e then
     raise (ValueError (str "Vault path does not exist: " ++ render (vault_path self)))
   else
     let* d := is_dir (vault_path self) in
     if negb d then
       raise (ValueError (str "Vault path is not a directory: "
                          ++ render (vault_path self)))
     else ret self)%fs.

Definition _resolve_path (self : VaultManager) (filepath : text) : exn + path :=
  let filepath := lstrip "/" filepath in
  let full_path := realpath (vault_path self ++ parts filepath) in
  match relative_to full_path (vault_path self) with
  | None =>
      inl (ValueError (str "Path traversal detected: " ++ filepath
                       ++ str " is outside vault"))
  | Some _ => inr full_path
  end.

Definition read_note (self : VaultManager) (filepath : text) : M text :=
  (let* full_path := lift (_resolve_path self filepath) in
   let* e := exists_ full_path in
   if negb e then raise (FileNotFoundError (str "Note not found: " ++ filepath))
   else read_text full_path)%fs.

Definition create_note (self : VaultManager) (filepath content_ : text)
    (frontmatter_ : option dict) : M unit :=
  (let* full_path := lift (_resolve_path self filepath) in
   let* e := exists_ full_path in
   if e then raise (FileExistsError (str "Note already exists: " ++ filepath))
   else
     mkdir_parents (parent full_path) ;;
     let full_text :=
       match frontmatter_ with
       | Some d => if truthy (YMap d) then dump (YMap d) content_ else content_
       | None => content_
       end in
     write_text full_path full_text)%fs.

Definition edit_note (self : VaultManager) (filepath content_ : text) : M unit :=
  (let* full_path := lift (_resolve_path self filepath) in
   let* e := exists_ full_path in
   if negb e then raise (FileNotFoundError (str "Note not found: " ++ filepath))
   else
     let* existing_text := read_text full_path in
     let* result := lift (parse existing_text) in
     let new_text :=
       if has_frontmatter result then dump (frontmatter result) content_
       else content_ in
     write_text full_path new_text)%fs.

Definition read_frontmatter (self : VaultManager) (filepath : text) : M yval :=
  (let* full_path := lift (_resolve_path self filepath) in
   let* e := exists_ full_path in
   if negb e then raise (FileNotFoundError (str "Note not found: " ++ filepath))
   else
     let* content_ := read_text full_path in
     let* result := lift (parse content_) in
     ret (frontmatter result))%fs.

Definition update_frontmatter (self : VaultManager) (filepath : text)
    (frontmatter_ : dict) : M unit :=
  (let* full_path := lift (_resolve_path self filepath) in
   let* e := exists_ full_path in
   if negb e then raise (FileNotFoundError (str "Note not found: " ++ filepath))
   else
     let* content_ := read_text full_path in
     let* new_content := lift (update content_ frontmatter_) in
     write_text full_path new_content)%fs.

(** The scans.  [md_files] is [self.vault_path.rglob("*.md")]; a file whose
    [read_text] raises is skipped ([except (OSError, UnicodeDecodeError):
    continue]). *)
Definition md_files (self : VaultManager) (fs : fsys) : list path :=
  map (fun rel => vault_path self ++ rel) (rglob_md fs (vault_path self)).

(** [md_file.relative_to(self.vault_path).as_posix()]; [md_file] comes
    from [rglob], so it is below [vault_path]. *)
Definition rel_posix (self : VaultManager) (md_file : path) : text :=
  match relative_to md_file (vault_path self) with
  | Some rel => as_posix rel
  | None => []
  end.

Definition try_read (fs : fsys) (md_file : path) : option text :=
  match (read_text md_file fs).2 with
  | inr content_ => Some content_
  | inl _ => None
  end.

(** [re.compile(rf"\[\[{re.escape(note_name)}(\|[^\]]+)?\]\]")] *)
Definition link_pattern (note_name : text) : regex :=
  cat [lit (str "[["); lit note_name;
       Opt (Group (Cat (Set_ (CChr "|")) (Plus (Set_ (CNot "]")))));
       lit (str "]]")].

Definition get_backlinks (self : VaultManager) (note_name : text) (fs : fsys)
    : list backlink :=
  flat_map (fun md_file =>
    match try_read fs md_file with
    | Some content_ =>
        let matches := findall (link_pattern note_name) content_ in
        match matches with
        | [] => []
        | _ => [{| bl_path := rel_posix self md_file;
                   bl_name := stem md_file;
                   link_count := length matches |}]
        end
    | None => []
    end) (md_files self fs).

(** [re.compile(r"#(\w+)")] *)
Definition tag_pattern : regex :=
  cat [Set_ (CChr "#"); Group (Plus (Set_ CWord))].

Definition list_tags (self : VaultManager) (fs : fsys) : list tag_entry :=
  let tag_data :=
    foldl (fun tag_data md_file =>
      match try_read fs md_file with
      | Some content_ =>
          let tags := findall tag_pattern content_ in
          let rel_path := rel_posix self md_file in
          foldl (fun tag_data tag_ => tag_data_hit tag_ rel_path tag_data)
                tag_data tags
      | None => tag_data
      end) [] (md_files self fs) in
  sorted (fun e => - Z.of_nat (count e))%Z tag_data.

(** [re.compile(rf"#\b{re.escape(clean_tag)}\b")] *)
Definition find_tag_pattern (clean_tag : text) : regex :=
  cat [Set_ (CChr "#"); WordB; lit clean_tag; WordB].

Definition find_by_tag (self : VaultManager) (tag_ : text) (fs : fsys)
    : list note_ref :=
  let clean_tag := lstrip "#" tag_ in
  let tag_pattern := find_tag_pattern clean_tag in
  flat_map (fun md_file =>
    match try_read fs md_file with
    | Some content_ =>
        if bool_decide (is_Some (search tag_pattern content_))
        then [{| nr_path := rel_posix self md_file; nr_name := stem md_file |}]
        else []
    | None => []
    end) (md_files self fs).

(** [search_vault]: the notes whose text holds the query, compared in
    lower case, each with an excerpt around the first place it occurs. *)
Definition search_vault (self : VaultManager) (query : text) (fs : fsys)
    : list search_hit :=
  let query_lower := lower query in
  flat_map (fun md_file =>
    match try_read fs md_file with
    | Some content_ =>
        if str_in query_lower (lower content_) then
          let rel_path := rel_posix self md_file in
          let idx := find (lower content_) query_lower in
          let start := Z.max 0 (idx - 100) in
          let end_ := Z.min (Z.of_nat (length content_))
                            (idx + Z.of_nat (length query) + 100) in
          let excerpt_ := replace_char nl " " (slice content_ start end_) in
          [{| sh_path := rel_path;
              sh_name := stem md_file;
              excerpt := str "..." ++ excerpt_ ++ str "..." |}]
        else []
    | None => []
    end) (md_files self fs).

(** [get_vault_structure].  The loop of [build_tree] over the sorted
    entries of a directory: hidden entries are skipped, a directory gives
    the tree [sub] builds for it, a file with the suffix [.md] gives a
    note, anything else is skipped.  The loop appends to the children of
    the result as it goes, so an exception leaves the children appended
    before it: the loop gives the children built and the exception that
    ended it, if any.  [item.is_dir()] raises [PermissionError] on an
    entry that may not be examined.  [None] stands for a recursion that
    did not end within the fuel. *)
Context {A : Access}.

Fixpoint build_children (self : VaultManager) (fs : fsys)
    (sub : path -> option (exn + tree)) (items : list path)
    : option (list tree * option exn) :=
  match items with
  | [] => Some ([], None)
  | item :: items' =>
      if startswith (str ".") (name item) then build_children self fs sub items'
      else if negb (may_stat item) then
        Some ([], Some (PermissionError (render item)))
      else
        match fs !! item with
        | Some Dir =>
            match sub item with
            | None => None
            | Some (inl e) => Some ([], Some e)
            | Some (inr t) =>
                match build_children self fs sub items' with
                | None => None
                | Some (ts, raised) => Some (t :: ts, raised)
                end
            end
        | _ =>
            if decide (suffix item = str ".md") then
              match build_children self fs sub items' with
              | None => None
              | Some (ts, raised) =>
                  Some (Note (name item) (rel_posix self item) :: ts, raised)
              end
            else build_children self fs sub items'
        end
  end.

(** [build_tree]: [except PermissionError: pass] returns the directory
    with the children appended so far, none when the directory itself may
    not be listed; any other exception propagates. *)
Fixpoint build_tree (fuel : nat) (self : VaultManager) (fs : fsys) (path_ : path)
    : option (exn + tree) :=
  match fuel with
  | 0 => None
  | S fuel' =>
      let result := Directory (match name path_ with
                               | [] => name (vault_path self)
                               | n => n
                               end) in
      match (iterdir path_ fs).2 with
      | inl (PermissionError _) => Some (inr (result []))
      | inl e => Some (inl e)
      | inr items =>
          match build_children self fs (build_tree fuel' self fs)
                  (sorted_lt path_lt items) with
          | None => None
          | Some (ts, None) => Some (inr (result ts))
          | Some (ts, Some (PermissionError _)) => Some (inr (result ts))
          | Some (_, Some e) => Some (inl e)
          end
      end
  end.

(** The recursion of [build_tree] goes one component deeper at each call,
    and only into directories that exist: it ends within the length of the
    longest path of the file system. *)
Definition depth (fs : fsys) : nat :=
  foldr Nat.max 0 (map (fun kv => length kv.1) (map_to_list fs)).

Definition get_vault_structure (self : VaultManager) (fs : fsys)
    : option (exn + tree) :=
  build_tree (S (depth fs)) self fs (vault_path self).

End WithCollaborators.
(** [md_file.stat()], as far as [list_notes] reads it: [st_size] and
    [st_mtime], or [None] where [stat] raises [OSError]. *)
Class Stat := {
  timestamp : Type;
  stat : fsys -> path -> option (nat * timestamp)
}.

Record note_info {S : Stat} := {
  ni_path : text;
  ni_name : text;
  ni_size : nat;
  ni_modified : timestamp
}.

Section WithStat.
Context {P : Platform} {S : Stat}.

(** [list_notes]: a directory that does not exist has no notes; an entry
    whose [relative_to] or [stat] raises is skipped
    ([except (OSError, ValueError): continue]). *)
Definition list_notes (self : VaultManager) (directory : text) (fs : fsys)
    : exn + list note_info :=
  match _resolve_path self directory with
  | inl e => inl e
  | inr dir_path =>
      if negb (bool_decide (is_Some (fs !! dir_path))) then inr []
      else
        inr (flat_map (fun md_file =>
               match relative_to md_file (vault_path self) with
               | Some rel =>
                   match stat fs md_file with
                   | Some (st_size, st_mtime) =>
                       [{| ni_path := as_posix rel;
                           ni_name := stem md_file;
                           ni_size := st_size;
                           ni_modified := st_mtime |}]
                   | None => []
                   end
               | None => []
               end)
             (sorted_lt path_lt
                (map (fun rel => dir_path ++ rel) (rglob_md fs dir_path))))
  end.

End WithStat.
End VaultManager.

(** ** Reference collaborators, to run the program on examples *)

Module Reference.

(** Path canonicalisation over a table of symbolic links (absolute
    targets): [..] steps to the parent, a link is replaced by its target,
    and after [fuel] links the walk gives up as on a link loop. *)
Fixpoint realpath_links (links : path -> option path) (fuel : nat)
    : path -> path -> path :=
  fix go (done todo : path) : path :=
    match todo with
    | [] => done
    | c :: todo' =>
        if decide (c = str "..") then go (removelast done) todo'
        else
          match links (done ++ [c]) with
          | None => go (done ++ [c]) todo'
          | Some target =>
              match fuel with
              | 0 => done ++ c :: todo'
              | S f => realpath_links links f [] (target ++ todo')
              end
          end
    end.

Definition ends_with (suf w : text) : bool :=
  bool_decide (drop (length w - length suf) w = suf).

(** A system with the symbolic links [links] that lists directory entries
    in the order [listing]. *)
Definition platform (links : path -> option path) (listing : list path)
    : Platform := {|
  realpath p := realpath_links links 40 [] p;
  rglob_md fs d :=
    omap (fun p =>
      match fs !! p, relative_to p d with
      | Some _, Some rel =>
          if ends_with (str ".md") (name p) then Some rel else None
      | _, _ => None
      end) listing
|}.

(** A YAML codec for the documents of the examples: block mappings of
    plain one-line string scalars, and a single plain scalar.  On these it
    writes and reads what PyYAML does; other values and documents are
    outside its fragment. *)
Fixpoint cut_colon (s : text) : option (text * text) :=
  match s with
  | [] => None
  | c :: s' =>
      if bool_decide (c = ":"%char) && bool_decide (head s' = Some " "%char)
      then Some ([], tail s')
      else match cut_colon s' with
           | Some (k, v) => Some (c :: k, v)
           | None => None
           end
  end.

Fixpoint load_lines (ls : list text) : text + dict :=
  match ls with
  | [] => inr []
  | l :: ls' =>
      match cut_colon l with
      | None => inl (str "could not find expected ':'")
      | Some (k, v) =>
          match cut_colon v with
          | Some _ => inl (str "mapping values are not allowed here")
          | None =>
              match load_lines ls' with
              | inl e => inl e
              | inr d => inr ((k, YStr v) :: d)
              end
          end
      end
  end.

Definition plain_load (s : text) : text + yval :=
  match filter (fun l => l ≠ []) (split_on nl s) with
  | [] => inr YNull
  | [l] =>
      match cut_colon l with
      | None => inr (YStr l)
      | Some _ =>
          match load_lines [l] with inl e => inl e | inr d => inr (YMap d) end
      end
  | ls => match load_lines ls with inl e => inl e | inr d => inr (YMap d) end
  end.

Definition plain_scalar (v : yval) : text :=
  match v with YStr s => s | _ => [] end.

Definition plain_dump (v : yval) : text :=
  match v with
  | YMap [] => str "{}" ++ [nl]
  | YMap kvs =>
      flat_map (fun kv => kv.1 ++ str ": " ++ plain_scalar kv.2 ++ [nl]) kvs
  | v => plain_scalar v ++ [nl] ++ str "..." ++ [nl]
  end.

Definition plain_yaml : Yaml := {|
  yaml_dump := plain_dump;
  yaml_safe_load := plain_load
|}.

(** A system on which every entry can be statted: the size of a file is
    the number of its characters (the texts of the examples are ASCII), and
    every modification time is 0. *)
Definition plain_stat : VaultManager.Stat := {|
  VaultManager.timestamp := Z;
  VaultManager.stat fs p :=
    match fs !! p with
    | Some (File (Some s)) => Some (length s, 0%Z)
    | Some _ => Some (0, 0%Z)
    | None => None
    end
|}.

(** A process that is refused nothing. *)
Definition unrestricted : Access := {|
  may_list _ := true;
  may_stat _ := true
|}.

End Reference.

(** ** An example vault *)

Module Demo.
Import FrontmatterParser VaultManager Reference.

(** The text of the given lines, separated by newlines. *)
Definition lines (ls : list string) : text := join [nl] (map str ls).

Definition root : path := [str "vault"].
Definition self : VaultManager := {| vault_path := root |}.

(** A system where [/vault/out] is a symbolic link to [/etc]. *)
Definition links (p : path) : option path :=
  if decide (p = [str "vault"; str "out"]) then Some [str "etc"] else None.

Definition os : Platform :=
  platform links
    [[str "vault"; str "README.md"];
     [str "vault"; str "Daily"; str "2024-01-01.md"];
     [str "vault"; str "Projects"; str "Project A.md"];
     [str "vault"; str "Projects"; str "Project B.md"];
     [str "vault"; str "Broken.md"];
     [str "vault"; str "Untagged.md"]].

Definition readme : text :=
  lines ["---"; "title: Welcome"; "---"; ""; "# Welcome to My Vault"; ""].

Definition daily : text :=
  lines ["# January 1, 2024"; ""; "Daily note with #daily and #project."; ""].

Definition project_a : text :=
  lines ["# Project A"; ""; "Links to [[README]] and [[Project B|the other]].";
         "#project #project #active"; ""].

Definition project_b : text :=
  lines ["# Project B"; ""; "References [[Project A]] and [[Project A|alias]].";
         "Some content with #customtag."; ""].

Definition broken : text :=
  lines ["---"; "title: : invalid yaml :"; "---"; ""; "Content"; ""].

Definition untagged : text :=
  lines ["# Untagged Note"; ""; "No frontmatter but #test content."; ""].

Definition fs : fsys :=
  {[ [str "vault"] := Dir;
     [str "vault"; str "README.md"] := File (Some readme);
     [str "vault"; str "Daily"] := Dir;
     [str "vault"; str "Daily"; str "2024-01-01.md"] := File (Some daily);
     [str "vault"; str "Projects"] := Dir;
     [str "vault"; str "Projects"; str "Project A.md"] := File (Some project_a);
     [str "vault"; str "Projects"; str "Project B.md"] := File (Some project_b);
     [str "vault"; str "Broken.md"] := File (Some broken);
     [str "vault"; str "Untagged.md"] := File (Some untagged) ]}.

(** The vault with a hidden directory, a hidden note and a file that is
    not a note. *)
Definition fs_hidden : fsys :=
  <[[str "vault"; str ".obsidian"] := Dir]>
  (<[[str "vault"; str ".obsidian"; str "config.md"] := File (Some (str "{}"))]>
  (<[[str "vault"; str ".draft.md"] := File (Some (str "draft"))]>
  (<[[str "vault"; str "Projects"; str "plan.txt"] := File (Some (str "plan"))]>
   fs))).

(** A process that may not list [/vault/Projects]. *)
Definition locked : Access := {|
  may_list d := bool_decide (d <> [str "vault"; str "Projects"]);
  may_stat _ := true
|}.

(** A process that may list [/vault/Projects] but not examine its
    entries. *)
Definition unsearchable : Access := {|
  may_list _ := true;
  may_stat p := bool_decide (parent p <> [str "vault"; str "Projects"])
|}.

End Demo.

(** ** Vocabulary of the statements *)

(** The state [k] characters further in the input. *)
Definition adv (k : nat) (st : mstate) : mstate :=
  MState (match k with 0 => prev st | S j => rest st !! j end)
         (drop k (rest st)) (grp st).

(** The length of the longest prefix of [s] inside the set [cs]. *)
Fixpoint span (cs : cset) (s : text) : nat :=
  match s with
  | x :: s' => if mem cs x then S (span cs s') else 0
  | [] => 0
  end.

(** [n, n-1, ..., 0] and [0, 1, ..., n]. *)
Fixpoint downto (n : nat) : list nat :=
  match n with
  | 0 => [0]
  | S m => S m :: downto m
  end.

Definition upto (n : nat) : list nat := seq 0 (S n).

(** What it means for a pattern to match between two cursor states,
    without the order in which the matcher tries the alternatives. *)
Inductive matches : regex -> mstate -> mstate -> Prop :=
| m_eps st : matches Eps st st
| m_set cs p x xs g :
    mem cs x = true ->
    matches (Set_ cs) (MState p (x :: xs) g) (MState (Some x) xs g)
| m_cat r1 r2 st st1 st2 :
    matches r1 st st1 -> matches r2 st1 st2 -> matches (Cat r1 r2) st st2
| m_opt_some r st st' : matches r st st' -> matches (Opt r) st st'
| m_opt_none r st : matches (Opt r) st st
| m_star_stop r st : matches (Star r) st st
| m_star_step r st st1 st2 :
    matches r st st1 -> shorter st1 st = true -> matches (Star r) st1 st2 ->
    matches (Star r) st st2
| m_lazy_stop r st : matches (StarLazy r) st st
| m_lazy_step r st st1 st2 :
    matches r st st1 -> shorter st1 st = true -> matches (StarLazy r) st1 st2 ->
    matches (StarLazy r) st st2
| m_plus r st st1 st2 :
    matches r st st1 -> matches (Star r) st1 st2 -> matches (Plus r) st st2
| m_group r st st' :
    matches r st st' ->
    matches (Group r) st (MState (prev st') (rest st') (Some (consumed st st')))
| m_bos st : prev st = None -> matches Bos st st
| m_wordb st : at_boundary st = true -> matches WordB st st.

(** The kinds of failure of the specification, as the exceptions the
    program raises for them. *)
Definition PathTraversalError (e : exn) : Prop :=
  exists fp, e = ValueError (str "Path traversal detected: " ++ fp
                             ++ str " is outside vault").

Definition NoteNotFoundError (e : exn) : Prop :=
  exists fp, e = FileNotFoundError (str "Note not found: " ++ fp).

Definition NoteAlreadyExistsError (e : exn) : Prop :=
  exists fp, e = FileExistsError (str "Note already exists: " ++ fp).

Definition MetadataFormatError (diagnostic : text) (e : exn) : Prop :=
  e = ValueError (str "Invalid YAML frontmatter: " ++ diagnostic).

(** The canonical form of the input of [_resolve_path]: leading separators
    stripped, joined against the root, canonicalised. *)
Definition canonical `{Platform} (self : VaultManager.VaultManager)
    (filepath : text) : path :=
  realpath (VaultManager.vault_path self ++ parts (lstrip "/" filepath)).

(** Where a match of [r] from a state can end, as the input left over. *)
Definition reach (r : regex) (st : mstate) (s' : text) : Prop :=
  exists st', matches r st st' /\ rest st' = s'.

(** A pattern whose matches depend on the input after the cursor only:
    [L s s'] says that it can consume [s] down to [s']. *)
Definition ctxfree (r : regex) (L : text -> text -> Prop) : Prop :=
  forall st s', reach r st s' <-> L (rest st) s'.

Definition all_in (cs : cset) (w : text) : Prop :=
  Forall (fun c => mem cs c = true) w.

(** A header block at the very start of a text, in the words of the
    specification: a line [---] with optional trailing whitespace, the
    header content, a line [---] with optional trailing whitespace, and
    the newline that ends it; [body] is what follows. *)
Definition header_block_with (t hdr body : text) : Prop :=
  exists ws1 ws2,
    t = str "---" ++ ws1 ++ [nl] ++ hdr ++ [nl] ++ str "---" ++ ws2 ++ [nl] ++ body
    /\ all_in CSpace ws1 /\ all_in CSpace ws2.

Definition header_block (t : text) : Prop :=
  exists hdr body, header_block_with t hdr body.

Definition starts_with (w s : text) : bool :=
  bool_decide (take (length w) s = w).

(** [w] occurs somewhere in [s]. *)
Fixpoint occursb (w s : text) : bool :=
  starts_with w s
  || match s with
     | [] => false
     | _ :: s' => occursb w s'
     end.

(** The largest index [<= n] at which [s] holds [c]. *)
Fixpoint last_at (c : ascii) (s : text) (n : nat) : option nat :=
  match n with
  | 0 => if decide (s !! 0 = Some c) then Some 0 else None
  | S m => if decide (s !! S m = Some c) then Some (S m) else last_at c s m
  end.

(** [s] without its leading blank lines: what follows the last newline of
    the run of whitespace at the start of [s]; [s] itself when that run
    holds no newline. *)
Definition skip_blank (s : text) : text :=
  match last_at nl s (span CSpace s) with
  | Some j => drop (S j) s
  | None => s
  end.

(** The YAML library writes [M] as the lines [y] and a final newline,
    where [y] starts with a non-blank character and none of its lines but
    possibly the first starts with [---]. *)
Definition writes_block `{Yaml} (M : yval) (y : text) : Prop :=
  yaml_dump M = y ++ [nl]
  /\ (exists c y0, y = c :: y0 /\ is_space c = false)
  /\ occursb (nl :: str "---") y = false.

(** A link to the note [N] opens the text [s]: [[N]], or [[N|alias]] with
    an alias that is not empty and holds no closing bracket. *)
Definition link_at (N s : text) : Prop :=
  (exists r, s = str "[[" ++ N ++ str "]]" ++ r)
  \/ (exists a r, s = str "[[" ++ N ++ "|"%char :: a ++ str "]]" ++ r
                  /\ a <> [] /\ "]"%char ∉ a).

Definition has_link (N content_ : text) : Prop :=
  exists pre suf, content_ = pre ++ suf /\ link_at N suf.

(** The number of links to [N] that [get_backlinks] counts in a file. *)
Definition links_in `{Platform} (N : text) (fs : fsys) (md_file : path) : nat :=
  match VaultManager.try_read fs md_file with
  | Some content_ => length (findall (VaultManager.link_pattern N) content_)
  | None => 0
  end.

(** The tag [tag_] stands at the start of [s] as a whole word: [#], the
    tag, and a word boundary on both sides of the tag (between [#] and
    what follows it, and between the last character matched and what
    follows the tag). *)
Definition tag_at (tag_ s : text) : Prop :=
  exists r,
    s = "#"%char :: tag_ ++ r
    /\ word_at (head (tag_ ++ r)) = true
    /\ xorb (word_at (last ("#"%char :: tag_))) (word_at (head r)) = true.

Definition has_tag (tag_ content_ : text) : Prop :=
  exists pre suf, content_ = pre ++ suf /\ tag_at tag_ suf.

(** The test of the loop of [find_by_tag] on one file. *)
Definition tag_found `{Platform} (clean_tag : text) (fs : fsys) (md_file : path)
    : bool :=
  match VaultManager.try_read fs md_file with
  | Some content_ =>
      bool_decide (is_Some (search (VaultManager.find_tag_pattern clean_tag) content_))
  | None => false
  end.

(** "Strips a leading [#] if present", read as one character. *)
Definition strip_hash (t : text) : text :=
  match t with
  | c :: t' => if decide (c = "#"%char) then t' else t
  | [] => []
  end.

(** The tag occurrences of a vault, in scan order: each [#tag] token of
    each readable note, with the path of the note. *)
Definition occurrences {P : Platform} (self : VaultManager.VaultManager)
    (fs : fsys) : list (text * text) :=
  flat_map (fun f =>
    match VaultManager.try_read fs f with
    | Some content_ =>
        map (fun t => (t, VaultManager.rel_posix self f))
            (findall VaultManager.tag_pattern content_)
    | None => []
    end) (VaultManager.md_files self fs).

(** The distinct elements of a list, in the order of their first
    appearance. *)
Definition first_seen (l : list text) : list text :=
  foldl (fun acc x => if decide (x ∈ acc) then acc else acc ++ [x]) [] l.

(** The note paths of the occurrences of a tag, one per occurrence. *)
Definition paths_of (t : text) (occ : list (text * text)) : list text :=
  map snd (filter (fun o => o.1 = t) occ).

(** The tag index the code builds: per distinct tag, in the order of first
    encounter, the number of its occurrences and the paths of the first
    three of them. *)
Definition index_entry (occ : list (text * text)) (t : text)
    : VaultManager.tag_entry :=
  {| VaultManager.tag := t;
     VaultManager.count := length (paths_of t occ);
     VaultManager.examples := take 3 (paths_of t occ) |}.

Definition tag_index (occ : list (text * text)) : list VaultManager.tag_entry :=
  map (index_entry occ) (first_seen (map fst occ)).

(** The tag index as the claim words it: the first three distinct paths. *)
Definition tag_index_distinct (occ : list (text * text))
    : list VaultManager.tag_entry :=
  map (fun t => {| VaultManager.tag := t;
                   VaultManager.count := length (paths_of t occ);
                   VaultManager.examples := take 3 (first_seen (paths_of t occ)) |})
      (first_seen (map fst occ)).

(** A tag token at the start of a text, in the words of the specification:
    [#] followed by one or more word characters, as many as there are;
    with the text that follows the token. *)
Definition tag_token (s : text) : option (text * text) :=
  match s with
  | c :: s1 =>
      if bool_decide (c = "#"%char) && (0 <? span CWord s1)
      then Some (take (span CWord s1) s1, drop (span CWord s1) s1)
      else None
  | [] => None
  end.

(** The tag tokens of a text, left to right. *)
Fixpoint tokens_from (fuel : nat) (s : text) : list text :=
  match fuel with
  | 0 => []
  | S f =>
      match tag_token s with
      | Some (w, r) => w :: tokens_from f r
      | None =>
          match s with
          | [] => []
          | _ :: s' => tokens_from f s'
          end
      end
  end.

Definition tokens (s : text) : list text := tokens_from (S (length s)) s.

(** The text [create_note] writes for the given metadata and body. *)
Definition written_text `{Yaml} (fm : option dict) (content_ : text) : text :=
  match fm with
  | Some d => FrontmatterParser.dump (YMap d) content_
  | None => content_
  end.

(** The query [q] occurs in [c] at index [k], letter case apart. *)
Definition occurs_at (q c : text) (k : nat) : Prop :=
  lower (take (length q) (drop k c)) = lower q.

#[global] Instance occurs_at_dec q c k : Decision (occurs_at q c k) :=
  decide (lower (take (length q) (drop k c)) = lower q).

(** The first index at which it does. *)
Definition first_occurrence (q c : text) : option nat :=
  head (filter (occurs_at q c) (seq 0 (S (length c)))).

(** The excerpt for an occurrence at [k]: up to 100 characters before it,
    the occurrence, up to 100 characters after it, every newline replaced
    by a space, between two ellipses. *)
Definition excerpt_at (q c : text) (k : nat) : text :=
  str "..."
  ++ replace_char nl " " (take (k `min` 100 + length q + 100) (drop (k - 100) c))
  ++ str "...".

(** The paths of the notes a tree shows. *)
Fixpoint notes_of (t : VaultManager.tree) : list text :=
  match t with
  | VaultManager.Note _ p => [p]
  | VaultManager.Directory _ ts => flat_map notes_of ts
  end.

(** [rel] leads from the directory [p] to a note the structure shows:
    every component is visible (its name does not start with a dot), every
    component but the last is a directory, and the last is a file with the
    suffix [.md]. *)
Fixpoint visible_note (fs : fsys) (p rel : path) : Prop :=
  match rel with
  | [] => False
  | n :: rel' =>
      startswith (str ".") n = false
      /\ match rel' with
         | [] => (exists data, fs !! (p ++ [n]) = Some (File data))
                 /\ suffix (p ++ [n]) = str ".md"
         | _ :: _ => fs !! (p ++ [n]) = Some Dir
                     /\ visible_note fs (p ++ [n]) rel'
         end
  end.

(** A file system in which every entry below [base] lies in a
    directory. *)
Definition in_directory (base : path) (fs : fsys) (q : path) : bool :=
  match relative_to q base with
  | Some (_ :: _) => match fs !! parent q with Some Dir => true | _ => false end
  | _ => true
  end.

Definition well_formed (base : path) (fs : fsys) : Prop :=
  map_Forall (fun q _ => in_directory base fs q = true) fs.

(** Every entry of the file system may be listed and examined. *)
Definition permitted {A : Access} (fs : fsys) : Prop :=
  forall q, is_Some (fs !! q) -> may_list q = true /\ may_stat q = true.

(** * Properties *)

Import FrontmatterParser VaultManager Reference.

(** ** The matcher on the shapes the patterns are built from *)

Section ReLemmas.

Lemma downto_S n : map S (downto n) ++ [0] = downto (S n).
Proof.
  induction n as [|n IH]; [done|].
  simpl. f_equal. apply IH.
Qed.

Lemma elem_of_downto n k : k ∈ downto n ↔ k ≤ n.
Proof.
  induction n as [|n IH]; simpl.
  - rewrite list_elem_of_singleton. lia.
  - rewrite elem_of_cons, IH. lia.
Qed.

Lemma adv_0 st : adv 0 st = st.
Proof. by destruct st. Qed.

Lemma adv_S k x xs p g :
  adv (S k) (MState p (x :: xs) g) = adv k (MState (Some x) xs g).
Proof. unfold adv; simpl. by destruct k. Qed.

Lemma run_set_cons cs x xs p g :
  run (Set_ cs) (MState p (x :: xs) g)
  = if mem cs x then [MState (Some x) xs g] else [].
Proof. done. Qed.

(** Greedy [cs*]: every prefix of the longest run, longest first. *)
Lemma iter_greedy_set cs s p g :
  iter_greedy (run (Set_ cs)) (length s) (MState p s g)
  = map (fun k => adv k (MState p s g)) (downto (span cs s)).
Proof.
  revert p. induction s as [|x xs IH]; intro p; [done|].
  cbn [length iter_greedy span]. rewrite run_set_cons.
  destruct (mem cs x); cbn [flat_map map].
  - unfold shorter at 1. cbn [rest length].
    replace (length xs <? S (length xs)) with true
      by (symmetry; apply Nat.ltb_lt; lia).
    rewrite app_nil_r, IH, <- downto_S, map_app, map_map. cbn [map].
    rewrite adv_0. f_equal.
  - cbn [downto map]. by rewrite adv_0.
Qed.

Lemma run_star_set cs st :
  run (Star (Set_ cs)) st = map (fun k => adv k st) (downto (span cs (rest st))).
Proof. destruct st as [p s g]. apply iter_greedy_set. Qed.

(** Lazy [.*?] under DOTALL: every prefix, shortest first. *)
Lemma iter_lazy_any s p g :
  iter_lazy (run (Set_ CAny)) (length s) (MState p s g)
  = map (fun k => adv k (MState p s g)) (upto (length s)).
Proof.
  revert p. induction s as [|x xs IH]; intro p; [reflexivity|].
  cbn [length iter_lazy]. rewrite run_set_cons. cbn [mem flat_map].
  unfold shorter at 1. cbn [rest length].
  replace (length xs <? S (length xs)) with true
    by (symmetry; apply Nat.ltb_lt; lia).
  rewrite app_nil_r, IH.
  change (upto (S (length xs))) with (0 :: seq 1 (S (length xs))).
  rewrite <- seq_shift. cbn [map]. rewrite map_map, adv_0. done.
Qed.

Lemma run_lazy_any st :
  run (StarLazy (Set_ CAny)) st = map (fun k => adv k st) (upto (length (rest st))).
Proof. destruct st as [p s g]. apply iter_lazy_any. Qed.

Ltac shorter_lia :=
  repeat match goal with
         | H : shorter _ _ = true |- _ =>
             unfold shorter in H; apply Nat.ltb_lt in H
         end;
  simpl in *; lia.

Ltac rew_shorter :=
  match goal with H : shorter _ _ = true |- _ => rewrite H end.

(** The matcher finds exactly the matches. *)
Lemma iter_greedy_matches r step :
  (forall st st', In st' (step st) <-> matches r st st') ->
  forall fuel st st', length (rest st) <= fuel ->
    In st' (iter_greedy step fuel st) <-> matches (Star r) st st'.
Proof.
  intros Hstep. induction fuel as [|f IH]; intros st st' Hlen; simpl.
  - split.
    + intros [<-|[]]. constructor.
    + inversion 1; subst; [by left|]. shorter_lia.
  - rewrite in_app_iff, in_flat_map. split.
    + intros [(m & Hm & Hin)|[<-|[]]]; [|constructor].
      destruct (shorter m st) eqn:Hs; [|done].
      eapply m_star_step; [by apply Hstep|done|].
      apply IH; [|done]. shorter_lia.
    + inversion 1; subst; [right; by left|]. left.
      exists st1. split; [by apply Hstep|]. rew_shorter.
      apply IH; [|done]. shorter_lia.
Qed.

Lemma iter_lazy_matches r step :
  (forall st st', In st' (step st) <-> matches r st st') ->
  forall fuel st st', length (rest st) <= fuel ->
    In st' (iter_lazy step fuel st) <-> matches (StarLazy r) st st'.
Proof.
  intros Hstep. induction fuel as [|f IH]; intros st st' Hlen; simpl.
  - split.
    + intros [<-|[]]. constructor.
    + inversion 1; subst; [by left|]. shorter_lia.
  - rewrite in_flat_map. split.
    + intros [<-|(m & Hm & Hin)]; [constructor|].
      destruct (shorter m st) eqn:Hs; [|done].
      eapply m_lazy_step; [by apply Hstep|done|].
      apply IH; [|done]. shorter_lia.
    + inversion 1; subst; [by left|]. right.
      exists st1. split; [by apply Hstep|]. rew_shorter.
      apply IH; [|done]. shorter_lia.
Qed.

Theorem run_matches r st st' : In st' (run r st) <-> matches r st st'.
Proof.
  revert st st'. induction r; intros st st'; cbn [run].
  - split; [intros [<-|[]]; constructor | inversion 1; by left].
  - destruct st as [p [|x xs] g]; cbn [rest grp].
    + split; [done | inversion 1].
    + destruct (mem cs x) eqn:Hx.
      * split; [intros [<-|[]]; by constructor | inversion 1; by left].
      * split; [done | inversion 1; congruence].
  - rewrite in_flat_map. split.
    + intros (m & H1 & H2). econstructor; [by apply IHr1 | by apply IHr2].
    + inversion 1; subst. eexists. split; [by apply IHr1 | by apply IHr2].
  - rewrite in_app_iff. split.
    + intros [H1|[<-|[]]]; [apply m_opt_some; by apply IHr | apply m_opt_none].
    + inversion 1; subst; [left; by apply IHr | right; by left].
  - by apply iter_greedy_matches.
  - by apply iter_lazy_matches.
  - rewrite in_flat_map. split.
    + intros (m & H1 & H2). econstructor; [by apply IHr|].
      by eapply iter_greedy_matches.
    + inversion 1; subst. eexists. split; [by apply IHr|].
      by eapply iter_greedy_matches.
  - rewrite in_map_iff. split.
    + intros (m & <- & H1). constructor. by apply IHr.
    + inversion 1; subst. eexists. split; [done | by apply IHr].
  - destruct (prev st) eqn:Hp.
    + split; [done | inversion 1; congruence].
    + split; [intros [<-|[]]; by constructor | inversion 1; by left].
  - destruct (at_boundary st) eqn:Hb.
    + split; [intros [<-|[]]; by constructor | inversion 1; by left].
    + split; [done | inversion 1; congruence].
Qed.

End ReLemmas.

(** ** Patterns that do not look at their context *)

Section Reach.

Lemma matches_cat a b st st' :
  matches (Cat a b) st st' <-> exists m, matches a st m /\ matches b m st'.
Proof.
  split; [inversion 1; subst; eauto | intros (m & Ha & Hb); by econstructor].
Qed.

Lemma matches_bos st st' : matches Bos st st' <-> prev st = None /\ st' = st.
Proof. split; [by inversion 1 | intros [Hp ->]; by constructor]. Qed.

Lemma matches_wordb st st' :
  matches WordB st st' <-> at_boundary st = true /\ st' = st.
Proof. split; [by inversion 1 | intros [Hp ->]; by constructor]. Qed.

Lemma ctxfree_iff r (L1 L2 : text -> text -> Prop) :
  (forall s s', L1 s s' <-> L2 s s') -> ctxfree r L1 -> ctxfree r L2.
Proof. intros HL H1 st s'. rewrite <- HL. apply H1. Qed.

Lemma cf_eps : ctxfree Eps (fun s s' => s = s').
Proof.
  intros st s'. split.
  - intros (st' & Hm & <-). by inversion Hm.
  - intros <-. exists st. split; [constructor|done].
Qed.

Lemma cf_set cs :
  ctxfree (Set_ cs) (fun s s' => exists x, s = x :: s' /\ mem cs x = true).
Proof.
  intros st s'. split.
  - intros (st' & Hm & <-). inversion Hm; subst. simpl. eauto.
  - intros (x & Hs & Hx). destruct st as [p s g]. simpl in Hs. subst s.
    eexists. split; [by constructor|done].
Qed.

Lemma cf_cat a b La Lb :
  ctxfree a La -> ctxfree b Lb ->
  ctxfree (Cat a b) (fun s s' => exists s1, La s s1 /\ Lb s1 s').
Proof.
  intros Ha Hb st s'. split.
  - intros (st' & Hm & <-). inversion Hm; subst.
    exists (rest st1). split; [apply Ha | apply Hb]; eexists; eauto.
  - intros (s1 & (m & Hm & <-)%Ha & (st' & Hm' & <-)%Hb).
    exists st'. split; [by econstructor|done].
Qed.

Lemma cf_lit w : ctxfree (lit w) (fun s s' => s = w ++ s').
Proof.
  induction w as [|c w IH]; [apply cf_eps|].
  eapply ctxfree_iff; [|apply (cf_cat _ _ _ _ (cf_set (CChr c)) IH)].
  intros s s'. simpl. split.
  - intros (s1 & (x & -> & Hx%bool_decide_eq_true) & ->). by subst.
  - intros ->. exists (w ++ s'). split; [|done].
    exists c. split; [done|]. by apply bool_decide_eq_true.
Qed.

Lemma cf_group r L : ctxfree r L -> ctxfree (Group r) L.
Proof.
  intros Hr st s'. split.
  - intros (st' & Hm & <-). inversion Hm; subst. apply Hr. eexists; eauto.
  - intros (st' & Hm & <-)%Hr. eexists. split; [by constructor|done].
Qed.

Lemma cf_opt r L : ctxfree r L -> ctxfree (Opt r) (fun s s' => L s s' \/ s = s').
Proof.
  intros Hr st s'. split.
  - intros (st' & Hm & <-). inversion Hm; subst; [|by right].
    left. apply Hr. eexists; eauto.
  - intros [(st' & Hm & <-)%Hr|<-].
    + eexists. split; [by apply m_opt_some|done].
    + eexists. split; [apply m_opt_none|done].
Qed.

Lemma cf_plus a La Ls :
  ctxfree a La -> ctxfree (Star a) Ls ->
  ctxfree (Plus a) (fun s s' => exists s1, La s s1 /\ Ls s1 s').
Proof.
  intros Ha Hs st s'. split.
  - intros (st' & Hm & <-). inversion Hm; subst.
    exists (rest st1). split; [apply Ha | apply Hs]; eexists; eauto.
  - intros (s1 & (m & Hm & <-)%Ha & (st' & Hm' & <-)%Hs).
    exists st'. split; [by econstructor|done].
Qed.

Lemma span_le cs s : span cs s <= length s.
Proof. induction s as [|x s IH]; simpl; [lia|]. destruct (mem cs x); simpl; lia. Qed.

Lemma span_take cs s k : k <= span cs s -> all_in cs (take k s).
Proof.
  revert k. induction s as [|x s IH]; intros k Hk; simpl in *.
  - destruct k; constructor.
  - destruct k as [|k]; [constructor|]. destruct (mem cs x) eqn:Hx; [|lia].
    constructor; [done|]. apply IH. lia.
Qed.

Lemma span_app cs w s : all_in cs w -> span cs (w ++ s) = length w + span cs s.
Proof. induction 1 as [|x w Hx _ IH]; simpl; [done|]. by rewrite Hx, IH. Qed.

Lemma rest_adv k st : rest (adv k st) = drop k (rest st).
Proof. done. Qed.

Lemma grp_adv k st : grp (adv k st) = grp st.
Proof. done. Qed.

Lemma matches_star_set cs st st' :
  matches (Star (Set_ cs)) st st'
  <-> exists k, k <= span cs (rest st) /\ st' = adv k st.
Proof.
  rewrite <- run_matches, run_star_set, in_map_iff. split.
  - intros (k & <- & Hk%list_elem_of_In%elem_of_downto). eauto.
  - intros (k & Hk & ->). exists k. split; [done|].
    by apply list_elem_of_In, elem_of_downto.
Qed.

Lemma matches_lazy_any st st' :
  matches (StarLazy (Set_ CAny)) st st'
  <-> exists k, k <= length (rest st) /\ st' = adv k st.
Proof.
  rewrite <- run_matches, run_lazy_any, in_map_iff. unfold upto. split.
  - intros (k & <- & Hk%in_seq). exists k. split; [lia|done].
  - intros (k & Hk & ->). exists k. split; [done|]. apply in_seq. lia.
Qed.

Lemma cf_star_set cs :
  ctxfree (Star (Set_ cs)) (fun s s' => exists w, s = w ++ s' /\ all_in cs w).
Proof.
  intros st s'. split.
  - intros (st' & (k & Hk & ->)%matches_star_set & <-).
    exists (take k (rest st)). split; [by rewrite rest_adv, take_drop|].
    by apply span_take.
  - intros (w & Hs & Hw). exists (adv (length w) st). split.
    + apply matches_star_set. exists (length w). split; [|done].
      rewrite Hs, span_app by done. lia.
    + by rewrite rest_adv, Hs, drop_app_length.
Qed.

Lemma cf_lazy_any :
  ctxfree (StarLazy (Set_ CAny)) (fun s s' => exists w, s = w ++ s').
Proof.
  intros st s'. split.
  - intros (st' & (k & Hk & ->)%matches_lazy_any & <-).
    exists (take k (rest st)). by rewrite rest_adv, take_drop.
  - intros (w & Hs). exists (adv (length w) st). split.
    + apply matches_lazy_any. exists (length w). split; [|done].
      rewrite Hs, length_app. lia.
    + by rewrite rest_adv, Hs, drop_app_length.
Qed.

Lemma cf_plus_set cs :
  ctxfree (Plus (Set_ cs))
    (fun s s' => exists x w, s = x :: w ++ s' /\ all_in cs (x :: w)).
Proof.
  eapply ctxfree_iff; [|apply (cf_plus _ _ _ (cf_set cs) (cf_star_set cs))].
  intros s s'. split.
  - intros (s1 & (x & -> & Hx) & (w & -> & Hw)). exists x, w.
    split; [done|by constructor].
  - intros (x & w & -> & Hxw). inversion Hxw; subst.
    exists (w ++ s'). split; [eauto|eauto].
Qed.

Lemma match_None_reach r s :
  match_ r s = None <-> forall s', ~ reach r (MState None s None) s'.
Proof.
  unfold match_. split.
  - intros Hhd s' (st' & Hm%run_matches & _).
    destruct (run r _); [done|discriminate].
  - intros Hno. destruct (run r _) as [|st' l] eqn:Hrun; [done|].
    exfalso. apply (Hno (rest st')). exists st'. split; [|done].
    apply run_matches. rewrite Hrun. by left.
Qed.

(** The header pattern matches exactly the header blocks. *)
Lemma header_pattern_reach t body :
  reach FRONTMATTER_PATTERN (MState None t None) body
  <-> exists hdr, header_block_with t hdr body.
Proof.
  pose proof (cf_cat _ _ _ _ (cf_lit (str "---"))
    (cf_cat _ _ _ _ (cf_star_set CSpace)
      (cf_cat _ _ _ _ (cf_set (CChr nl))
        (cf_cat _ _ _ _ (cf_group _ _ cf_lazy_any)
          (cf_cat _ _ _ _ (cf_set (CChr nl))
            (cf_cat _ _ _ _ (cf_lit (str "---"))
              (cf_cat _ _ _ _ (cf_star_set CSpace) (cf_set (CChr nl))))))))) as Hcf.
  unfold FRONTMATTER_PATTERN. cbn [cat]. split.
  - intros (st' & (m & [_ ->]%matches_bos & Hm)%matches_cat & <-).
    assert (Hr : reach _ _ (rest st')) by (exists st'; split; [exact Hm|done]).
    apply Hcf in Hr. cbn [rest] in Hr.
    destruct Hr as (s1 & -> & s2 & (ws1 & -> & Hws1) & s3
      & (x1 & -> & ->%bool_decide_eq_true) & s4 & (hdr & ->) & s5
      & (x2 & -> & ->%bool_decide_eq_true) & s6 & -> & s7 & (ws2 & -> & Hws2)
      & (x3 & -> & ->%bool_decide_eq_true)).
    by exists hdr, ws1, ws2.
  - intros (hdr & ws1 & ws2 & -> & Hws1 & Hws2).
    assert (Hr : reach (cat [lit (str "---"); Star (Set_ CSpace); Set_ (CChr nl);
       Group (StarLazy (Set_ CAny)); Set_ (CChr nl); lit (str "---");
       Star (Set_ CSpace); Set_ (CChr nl)])
       (MState None (str "---" ++ ws1 ++ [nl] ++ hdr ++ [nl] ++ str "---"
                     ++ ws2 ++ [nl] ++ body) None) body).
    { apply Hcf. cbn [rest].
      eexists. split; [reflexivity|].
      eexists. split; [by exists ws1|].
      eexists. split; [exists nl; split; [reflexivity|by apply bool_decide_eq_true]|].
      eexists. split; [by exists hdr|].
      eexists. split; [exists nl; split; [reflexivity|by apply bool_decide_eq_true]|].
      eexists. split; [reflexivity|].
      eexists. split; [by exists ws2|].
      exists nl; split; [reflexivity|by apply bool_decide_eq_true]. }
    destruct Hr as (st' & Hm & Hrest). exists st'. split; [|done].
    apply matches_cat. eexists. split; [by apply matches_bos|done].
Qed.

Lemma header_pattern_None t :
  match_ FRONTMATTER_PATTERN t = None <-> ~ header_block t.
Proof.
  rewrite match_None_reach. split.
  - intros Hno (hdr & body & Hb). apply (Hno body).
    apply header_pattern_reach. eauto.
  - intros Hno body (hdr & Hb)%header_pattern_reach. apply Hno. by exists hdr, body.
Qed.

End Reach.

(** ** The first match of the header pattern *)

Section FirstMatch.

Lemma head_app_nil {A} (l1 l2 : list A) : l1 = [] -> head (l1 ++ l2) = head l2.
Proof. by intros ->. Qed.

Lemma head_flat_map_skip {A B} (f : A -> list B) l1 l2 :
  (forall x, x ∈ l1 -> f x = []) ->
  head (flat_map f (l1 ++ l2)) = head (flat_map f l2).
Proof.
  induction l1 as [|x l1 IH]; intros Hnil; [done|].
  simpl. rewrite (Hnil x) by left. simpl. apply IH.
  intros y Hy. apply Hnil. by right.
Qed.

Lemma run_cat a b st : run (Cat a b) st = flat_map (run b) (run a st).
Proof. done. Qed.

Lemma flat_map_flat_map {A B C} (f : A -> list B) (g : B -> list C) l :
  flat_map g (flat_map f l) = flat_map (fun x => flat_map g (f x)) l.
Proof.
  induction l as [|x l IH]; [done|]. simpl. by rewrite flat_map_app, IH.
Qed.

Lemma run_cat_assoc a b c st : run (Cat (Cat a b) c) st = run (Cat a (Cat b c)) st.
Proof. cbn [run]. apply flat_map_flat_map. Qed.

Lemma starts_with_cons c w x s :
  starts_with (c :: w) (x :: s) = bool_decide (x = c) && starts_with w s.
Proof.
  unfold starts_with. simpl.
  destruct (decide (x = c)) as [->|Hne].
  - rewrite (bool_decide_eq_true_2 (c = c)) by done. simpl.
    apply bool_decide_ext. split; congruence.
  - rewrite (bool_decide_eq_false_2 (x = c)) by done. simpl.
    apply bool_decide_eq_false. congruence.
Qed.

Lemma starts_with_app w s : starts_with w (w ++ s) = true.
Proof. unfold starts_with. apply bool_decide_eq_true. by rewrite take_app_length. Qed.

Lemma starts_with_true w s : starts_with w s = true -> s = w ++ drop (length w) s.
Proof.
  unfold starts_with. intros Hw%bool_decide_eq_true.
  by rewrite <- Hw at 1; rewrite take_drop.
Qed.

(** A literal matches when the input starts with it. *)
Lemma run_lit w st :
  run (lit w) st = if starts_with w (rest st) then [adv (length w) st] else [].
Proof.
  revert st. induction w as [|c w IH]; intros [p s g].
  - simpl. unfold starts_with. simpl. by rewrite adv_0.
  - change (lit (c :: w)) with (Cat (Set_ (CChr c)) (lit w)). rewrite run_cat.
    destruct s as [|x s]; [done|]. cbn [rest].
    rewrite run_set_cons, starts_with_cons. cbn [mem]. destruct (bool_decide (x = c)); [|done].
    cbn [flat_map andb]. rewrite app_nil_r, IH. cbn [rest length].
    destruct (starts_with w s); [|done]. by rewrite adv_S.
Qed.

Lemma run_chr_adv c k st :
  run (Set_ (CChr c)) (adv k st)
  = if decide (rest st !! k = Some c) then [adv (S k) st] else [].
Proof.
  destruct st as [p s g]. unfold adv. cbn [rest prev grp run].
  destruct (drop k s) as [|x xs] eqn:Hd.
  - rewrite decide_False; [done|].
    rewrite lookup_ge_None_2; [done|].
    apply (f_equal length) in Hd. rewrite length_drop in Hd. simpl in Hd. lia.
  - assert (Hk : s !! k = Some x).
    { rewrite <- (Nat.add_0_r k), <- lookup_drop, Hd. done. }
    assert (Hxs : drop (S k) s = xs).
    { replace (S k) with (k + 1) by lia. by rewrite <- drop_drop, Hd. }
    rewrite Hk, Hxs. cbn [mem].
    destruct (decide (x = c)) as [->|Hne].
    + rewrite bool_decide_eq_true_2 by done. by rewrite decide_True.
    + rewrite bool_decide_eq_false_2 by done. rewrite decide_False; congruence.
Qed.

(** Greedy [cs*] followed by the character [c]: the matcher backs off to
    the last [c] within reach. *)
Lemma head_star_chr cs c st :
  head (run (Cat (Star (Set_ cs)) (Set_ (CChr c))) st)
  = match last_at c (rest st) (span cs (rest st)) with
    | Some j => Some (adv (S j) st)
    | None => None
    end.
Proof.
  rewrite run_cat, run_star_set.
  generalize (span cs (rest st)) as n. induction n as [|n IH].
  - cbn [downto map flat_map last_at]. rewrite run_chr_adv, app_nil_r.
    by destruct (decide _).
  - cbn [downto map flat_map last_at]. rewrite run_chr_adv.
    destruct (decide _); [done|]. apply IH.
Qed.

Lemma last_at_cons c x s n :
  last_at c (x :: s) (S n)
  = match last_at c s n with
    | Some j => Some (S j)
    | None => if decide (x = c) then Some 0 else None
    end.
Proof.
  induction n as [|n IH].
  - cbn [last_at lookup list_lookup].
    change ((x :: s) !! 1) with (s !! 0).
    destruct (decide (s !! 0 = Some c)); [done|].
    change ((x :: s) !! 0) with (Some x).
    destruct (decide (x = c)) as [->|Hne].
    + by rewrite decide_True.
    + rewrite decide_False; congruence.
  - change (last_at c (x :: s) (S (S n)))
      with (if decide ((x :: s) !! S (S n) = Some c) then Some (S (S n))
            else last_at c (x :: s) (S n)).
    change ((x :: s) !! S (S n)) with (s !! S n).
    cbn [last_at]. destruct (decide (s !! S n = Some c)); [done|]. apply IH.
Qed.

Lemma skip_blank_dumped B :
  exists j, last_at nl (nl :: nl :: B) (span CSpace (nl :: nl :: B)) = Some j
            /\ drop (S j) (nl :: nl :: B) = skip_blank B.
Proof.
  change (span CSpace (nl :: nl :: B)) with (S (S (span CSpace B))).
  rewrite !last_at_cons. unfold skip_blank.
  destruct (last_at nl B (span CSpace B)) as [j|].
  - by exists (S (S j)).
  - rewrite decide_True by done. by exists 1.
Qed.

Lemma occursb_drop w s k : occursb w s = false -> starts_with w (drop k s) = false.
Proof.
  revert k. induction s as [|x s IH]; intros k Hocc.
  - rewrite drop_nil. simpl in Hocc. by apply orb_false_iff in Hocc as [? _].
  - simpl in Hocc. apply orb_false_iff in Hocc as [Hhd Htl].
    destruct k as [|k]; [done|]. simpl. by apply IH.
Qed.

(** A block without a line that starts with [---] holds no closing
    delimiter, also not across its end. *)
Lemma no_delimiter_inside y Z k :
  occursb (nl :: str "---") y = false ->
  k < length y ->
  starts_with (nl :: str "---") (drop k (y ++ nl :: str "---" ++ Z)) = false.
Proof.
  intros Hocc Hk. apply (occursb_drop _ _ k) in Hocc.
  rewrite drop_app_le by lia.
  assert (Hlen : length (drop k y) <> 0) by (rewrite length_drop; lia).
  destruct (drop k y) as [|d0 [|d1 [|d2 [|d3 d]]]]; [done| | | |exact Hocc];
    apply bool_decide_eq_false; simpl; intros [= _ ? ? ?]; discriminate.
Qed.

Lemma run_bos_cat R s g :
  run (Cat Bos R) (MState None s g) = run R (MState None s g).
Proof. rewrite run_cat. cbn [run prev flat_map]. apply app_nil_r. Qed.

Lemma run_lit_cat w R st :
  run (Cat (lit w) R) st
  = if starts_with w (rest st) then run R (adv (length w) st) else [].
Proof.
  rewrite run_cat, run_lit. destruct (starts_with w (rest st)); [|done].
  cbn [flat_map]. apply app_nil_r.
Qed.

Lemma run_set_cat cs R x xs p g :
  run (Cat (Set_ cs) R) (MState p (x :: xs) g)
  = if mem cs x then run R (MState (Some x) xs g) else [].
Proof.
  rewrite run_cat, run_set_cons. destruct (mem cs x); [|done].
  cbn [flat_map]. apply app_nil_r.
Qed.

Lemma run_star_cat cs R st :
  run (Cat (Star (Set_ cs)) R) st
  = flat_map (fun k => run R (adv k st)) (downto (span cs (rest st))).
Proof.
  rewrite run_cat, run_star_set, flat_map_concat_map, map_map.
  by rewrite <- flat_map_concat_map.
Qed.

Lemma run_group_lazy_cat R st :
  run (Cat (Group (StarLazy (Set_ CAny))) R) st
  = flat_map (fun k => run R (MState (prev (adv k st)) (drop k (rest st))
                                     (Some (consumed st (adv k st)))))
             (upto (length (rest st))).
Proof.
  rewrite run_cat.
  change (run (Group (StarLazy (Set_ CAny))) st)
    with (map (fun st' => MState (prev st') (rest st') (Some (consumed st st')))
              (run (StarLazy (Set_ CAny)) st)).
  rewrite run_lazy_any, flat_map_concat_map, !map_map.
  by rewrite <- flat_map_concat_map.
Qed.

Lemma run_chr_lit_cat c w R st :
  run (Cat (Set_ (CChr c)) (Cat (lit w) R)) st
  = if starts_with (c :: w) (rest st) then run R (adv (S (length w)) st) else [].
Proof.
  rewrite <- run_cat_assoc.
  change (Cat (Set_ (CChr c)) (lit w)) with (lit (c :: w)). apply run_lit_cat.
Qed.

Lemma head_app_Some {A} (l1 l2 : list A) x :
  head l1 = Some x -> head (l1 ++ l2) = Some x.
Proof. by destruct l1. Qed.

(** The header pattern on a serialised note: group 1 is the YAML block, and
    the match ends after the last newline of the whitespace that follows
    the closing [---]. *)
Lemma match_dumped y B :
  (exists c y0, y = c :: y0 /\ is_space c = false) ->
  occursb (nl :: str "---") y = false ->
  exists m,
    match_ FRONTMATTER_PATTERN
      (str "---" ++ nl :: y ++ nl :: str "---" ++ nl :: nl :: B) = Some m
    /\ rest m = skip_blank B /\ grp m = Some y.
Proof.
  intros (c & y0 & -> & Hc) Hocc.
  set (Z := nl :: nl :: B).
  set (T2 := (c :: y0) ++ nl :: str "---" ++ Z).
  unfold match_, FRONTMATTER_PATTERN. cbn [cat].
  (* ^--- *)
  rewrite run_bos_cat, run_lit_cat. cbn [rest]. rewrite starts_with_app.
  change (adv (length (str "---")) _) with (MState (Some "-"%char) (nl :: T2) None).
  (* \s*\n : only the newline of the opening line fits *)
  rewrite run_star_cat. cbn [rest].
  assert (Hspan : span CSpace (nl :: T2) = 1).
  { unfold T2. simpl. by rewrite Hc. }
  rewrite Hspan. cbn [downto flat_map]. rewrite app_nil_r.
  change (adv 1 {| prev := Some "-"%char; rest := nl :: T2; grp := None |})
    with (MState (Some nl) ((c :: y0) ++ nl :: str "---" ++ Z) None).
  rewrite adv_0. cbn [app]. rewrite run_set_cat. cbn [mem].
  rewrite (bool_decide_eq_false_2 (c = nl)) by (intros ->; done).
  cbn [app]. rewrite run_set_cat. cbn [mem].
  rewrite bool_decide_eq_true_2 by done.
  (* (.*?) : the shortest prefix after which the closing line matches *)
  rewrite run_group_lazy_cat. unfold upto. cbn [rest].
  assert (Hlen : S (length T2)
                 = length (c :: y0) + S (length T2 - length (c :: y0))).
  { unfold T2. rewrite length_app. lia. }
  rewrite Hlen, seq_app, head_flat_map_skip; cycle 1.
  { intros k [_ Hk]%list_elem_of_In%in_seq.
    rewrite run_chr_lit_cat. cbn [rest]. unfold T2.
    by rewrite no_delimiter_inside by (done || lia). }
  rewrite Nat.add_0_l. cbn [seq flat_map].
  rewrite run_chr_lit_cat. cbn [rest].
  assert (Hdrop : drop (length (c :: y0)) T2 = nl :: str "---" ++ Z).
  { unfold T2. by rewrite drop_app_length. }
  rewrite Hdrop. change (nl :: str "---" ++ Z) with ((nl :: str "---") ++ Z).
  rewrite starts_with_app.
  destruct (skip_blank_dumped B) as (j & Hj & Hskip). fold Z in Hj, Hskip.
  eexists. split; [|split].
  - apply head_app_Some. rewrite head_star_chr. cbn [rest adv].
    change (drop (S (length (str "---"))) ((nl :: str "---") ++ Z)) with Z.
    rewrite Hj. reflexivity.
  - exact Hskip.
  - cbn [grp adv]. unfold consumed. cbn [rest]. rewrite rest_adv. cbn [rest].
    rewrite length_drop. f_equal. unfold T2. rewrite length_app.
    replace (_ - _) with (length (c :: y0)) by lia.
    by rewrite take_app_length.
Qed.

Lemma last_at_Some c s n j : last_at c s n = Some j -> s !! j = Some c.
Proof.
  induction n as [|n IH]; simpl.
  - destruct (decide (s !! 0 = Some c)); [by intros [= <-]|done].
  - destruct (decide (s !! S n = Some c)); [by intros [= <-]|done].
Qed.

(** A body survives the round trip unchanged exactly when the whitespace
    at its start holds no newline. *)
Lemma skip_blank_id B : skip_blank B = B <-> last_at nl B (span CSpace B) = None.
Proof.
  unfold skip_blank. destruct (last_at nl B _) as [j|] eqn:Hj; [|done].
  split; [|done]. intros Hd. apply last_at_Some in Hj.
  apply lookup_lt_Some in Hj. apply (f_equal length) in Hd.
  rewrite length_drop in Hd. lia.
Qed.

End FirstMatch.

Section Codec.
Context {Y : Yaml}.

(** Parsing a serialised note: the metadata is what the YAML library reads
    back, the body lost its leading blank lines. *)
Lemma parse_dump (M : yval) (y B : text) :
  truthy M = true ->
  writes_block M y ->
  yaml_safe_load y = inr M ->
  parse (dump M B)
  = inr {| frontmatter := M; content := skip_blank B; has_frontmatter := true |}.
Proof.
  intros HM (Hdump & Hhead & Hocc) Hload.
  destruct (match_dumped y B Hhead Hocc) as (m & Hm & Hrest & Hgrp).
  unfold dump. rewrite HM, Hdump. cbn [negb].
  replace (str "---" ++ [nl] ++ (y ++ [nl]) ++ str "---" ++ [nl; nl] ++ B)
    with (str "---" ++ nl :: y ++ nl :: str "---" ++ nl :: nl :: B)
    by (by rewrite <- !app_assoc).
  unfold parse. rewrite Hm, Hgrp. simpl default. by rewrite Hload, HM, Hrest.
Qed.

Lemma parse_without_header (t : text) :
  ~ header_block t ->
  parse t = inr {| frontmatter := YMap []; content := t; has_frontmatter := false |}.
Proof. intros Hno%header_pattern_None. unfold parse. by rewrite Hno. Qed.

Lemma parse_falsy (t : text) (r : FrontmatterResult) :
  parse t = inr r -> truthy (frontmatter r) = false -> frontmatter r = YMap [].
Proof.
  unfold parse. destruct (match_ FRONTMATTER_PATTERN t) as [m|].
  - destruct (yaml_safe_load _) as [e|v]; [done|]. intros [= <-]. simpl.
    by destruct (truthy v) eqn:Hv; [rewrite Hv|].
  - by intros [= <-].
Qed.

Lemma parse_truthy (t : text) (r : FrontmatterResult) :
  parse t = inr r -> truthy (frontmatter r) = true -> has_frontmatter r = true.
Proof.
  unfold parse. destruct (match_ FRONTMATTER_PATTERN t) as [m|].
  - destruct (yaml_safe_load _) as [e|v]; [done|]. by intros [= <-].
  - by intros [= <-].
Qed.

End Codec.


(** ** Searching a text *)

Section Search.

Lemma match_at_reach r p s :
  is_Some (match_at r p s) <-> exists s', reach r (MState p s None) s'.
Proof.
  unfold match_at. split.
  - intros [m Hm]. destruct (run r _) as [|m' l] eqn:Hrun; [done|].
    exists (rest m'), m'. split; [|done]. apply run_matches. rewrite Hrun. by left.
  - intros (s' & m & Hm%run_matches & _). destruct (run r _); [done|by eexists].
Qed.

Lemma findall_nil_search r fuel p s :
  length s < fuel ->
  findall_from r fuel p s = [] <-> search_from r p s = None.
Proof.
  revert fuel p. induction s as [|c s IH]; intros [|f] p Hf; try (simpl in Hf; lia).
  - simpl. destruct (match_at r p []); [split; discriminate|done].
  - simpl. destruct (match_at r p (c :: s)); [split; discriminate|].
    apply IH. simpl in Hf. lia.
Qed.

(** [ctx p pre] is the character before the cursor after reading [pre]. *)
Lemma search_from_Some r p s :
  is_Some (search_from r p s)
  <-> exists pre suf, s = pre ++ suf
                      /\ is_Some (match_at r (from_option Some p (last pre)) suf).
Proof.
  revert p. induction s as [|c s IH]; intros p; simpl.
  - destruct (match_at r p []) eqn:Hm.
    + split; [|by eauto]. intros _. exists [], []. split; [done|].
      simpl. rewrite Hm. by eexists.
    + split; [by intros [? ?]|]. intros (pre & suf & Heq & Hs).
      symmetry in Heq. apply app_eq_nil in Heq as [-> ->]. simpl in Hs.
      rewrite Hm in Hs. by destruct Hs.
  - destruct (match_at r p (c :: s)) eqn:Hm.
    + split; [|by eauto]. intros _. exists [], (c :: s). split; [done|].
      simpl. rewrite Hm. by eexists.
    + rewrite IH. split.
      * intros (pre & suf & -> & Hs). exists (c :: pre), suf. split; [done|].
        destruct pre as [|x pre] using rev_ind; [done|].
        rewrite last_snoc in Hs. change (c :: pre ++ [x]) with ((c :: pre) ++ [x]).
        by rewrite last_snoc.
      * intros ([|x pre] & suf & Heq & Hs).
        { simpl in *. subst suf. rewrite Hm in Hs. by destruct Hs. }
        injection Heq as <- ->. exists pre, suf. split; [done|].
        destruct pre as [|y pre] using rev_ind; [done|].
        rewrite last_snoc. change (c :: pre ++ [y]) with ((c :: pre) ++ [y]) in Hs.
        by rewrite last_snoc in Hs.
Qed.

(** For a pattern that does not look at its context, [findall] finds
    something exactly in the texts that hold a match. *)
Lemma findall_ctxfree r L s :
  ctxfree r L ->
  findall r s <> [] <-> exists pre suf s', s = pre ++ suf /\ L suf s'.
Proof.
  intros Hcf. unfold findall.
  rewrite findall_nil_search by lia.
  unfold search. rewrite not_eq_None_Some, search_from_Some. split.
  - intros (pre & suf & -> & (s' & Hr)%match_at_reach). exists pre, suf, s'.
    split; [done|]. by apply Hcf in Hr.
  - intros (pre & suf & s' & -> & HL). exists pre, suf. split; [done|].
    apply match_at_reach. exists s'. by apply Hcf.
Qed.

Lemma all_in_CNot c (w : text) : all_in (CNot c) w <-> c ∉ w.
Proof.
  unfold all_in. rewrite Forall_forall. split.
  - intros Hall Hc. apply Hall in Hc. simpl in Hc.
    by rewrite bool_decide_eq_true_2 in Hc.
  - intros Hc x Hx. simpl. apply negb_true_iff, bool_decide_eq_false.
    intros ->. done.
Qed.

(** The link pattern matches exactly the two shapes of a link to [N]. *)
Lemma link_pattern_ctxfree N :
  ctxfree (link_pattern N) (fun s s' =>
    s = str "[[" ++ N ++ str "]]" ++ s'
    \/ exists a, s = str "[[" ++ N ++ "|"%char :: a ++ str "]]" ++ s'
                 /\ a <> [] /\ "]"%char ∉ a).
Proof.
  unfold link_pattern. cbn [cat].
  eapply ctxfree_iff; [|apply (cf_cat _ _ _ _ (cf_lit (str "[["))
    (cf_cat _ _ _ _ (cf_lit N)
      (cf_cat _ _ _ _
         (cf_opt _ _ (cf_group _ _
            (cf_cat _ _ _ _ (cf_set (CChr "|")) (cf_plus_set (CNot "]")))))
         (cf_lit (str "]]")))))].
  intros s s'. split.
  - intros (s1 & -> & s2 & -> & s3 & Hopt & ->).
    destruct Hopt as [(s4 & (x & -> & ->%bool_decide_eq_true)
                       & (y & w & -> & Hw%all_in_CNot)) | ->]; [right|by left].
    by exists (y :: w).
  - intros [->|(a & -> & Ha & Hnot)].
    + eexists. split; [reflexivity|]. eexists. split; [reflexivity|].
      eexists. split; [by right|done].
    + destruct a as [|y w]; [done|].
      eexists. split; [reflexivity|]. eexists. split; [reflexivity|].
      exists (str "]]" ++ s'). split; [|done]. left.
      exists ((y :: w) ++ str "]]" ++ s'). split.
      * exists "|"%char. split; [done|]. by apply bool_decide_eq_true.
      * exists y, w. split; [done|]. by apply all_in_CNot.
Qed.

Lemma findall_link N content_ :
  findall (link_pattern N) content_ <> [] <-> has_link N content_.
Proof.
  rewrite (findall_ctxfree _ _ _ (link_pattern_ctxfree N)).
  unfold has_link, link_at. split.
  - intros (pre & suf & s' & -> & [->|(a & -> & Ha)]); exists pre; eauto 10.
  - intros (pre & suf & -> & [(r & ->)|(a & r & -> & Ha)]); exists pre; eauto 10.
Qed.

(** A loop that appends an entry for the files that pass a test. *)
Lemma flat_map_filter_map {A B} (Q : A -> Prop) `{!forall x, Decision (Q x)}
    (g : A -> B) (l : list A) :
  flat_map (fun x => if decide (Q x) then [g x] else []) l = map g (filter Q l).
Proof.
  induction l as [|x l IH]; [done|]. cbn [flat_map]. rewrite filter_cons, IH.
  by destruct (decide (Q x)).
Qed.

Lemma matches_lit w st st' :
  matches (lit w) st st'
  <-> starts_with w (rest st) = true /\ st' = adv (length w) st.
Proof.
  rewrite <- run_matches, run_lit. destruct (starts_with w (rest st)).
  - split; [by intros [<-|[]] | intros [_ ->]; by left].
  - split; [done | by intros [? _]].
Qed.

Lemma matches_set cs st st' :
  matches (Set_ cs) st st'
  <-> exists x xs, rest st = x :: xs /\ mem cs x = true
                   /\ st' = MState (Some x) xs (grp st).
Proof.
  split.
  - inversion 1; subst. simpl. eauto.
  - intros (x & xs & Hr & Hx & ->). destruct st as [p s g]. simpl in *. subst s.
    by constructor.
Qed.

Lemma prev_adv_app c w r g :
  prev (adv (length w) (MState (Some c) (w ++ r) g)) = last (c :: w).
Proof.
  destruct w as [|x w] using rev_ind; [done|].
  unfold adv. cbn [prev rest]. rewrite length_app. cbn [length].
  rewrite Nat.add_1_r, <- app_assoc. cbn [app].
  rewrite list_lookup_middle by done.
  change (c :: w ++ [x]) with ((c :: w) ++ [x]). by rewrite last_snoc.
Qed.

(** The tag pattern matches at a position exactly when the tag stands
    there as a whole word, whatever precedes the [#]. *)
Lemma find_tag_pattern_match clean p s :
  is_Some (match_at (find_tag_pattern clean) p s) <-> tag_at clean s.
Proof.
  rewrite match_at_reach. unfold find_tag_pattern, tag_at. cbn [cat]. split.
  - intros (s' & st' & (m1 & (x & xs & Hs & Hx%bool_decide_eq_true & ->)%matches_set
      & (m2 & [Hb1 ->]%matches_wordb
      & (m3 & [Hw%starts_with_true ->]%matches_lit
      & [Hb2 ->]%matches_wordb)%matches_cat)%matches_cat)%matches_cat & _).
    cbn [rest grp] in *. subst x s.
    exists (drop (length clean) xs). unfold at_boundary in *. cbn [prev rest] in *.
    split; [by rewrite <- Hw|]. rewrite <- Hw. split; [exact Hb1|].
    rewrite Hw, prev_adv_app, rest_adv in Hb2. cbn [rest] in Hb2.
    by rewrite drop_app_length in Hb2.
  - intros (r & -> & Hb1 & Hb2). eexists _, _. split; [|reflexivity].
    apply matches_cat. eexists. split.
    { apply matches_set. eexists _, _. split; [reflexivity|]. split; [|reflexivity].
      by apply bool_decide_eq_true. }
    apply matches_cat. eexists. split; [by apply matches_wordb|].
    apply matches_cat. eexists. split.
    { apply matches_lit. cbn [rest]. by rewrite starts_with_app. }
    apply matches_wordb. split; [|reflexivity].
    unfold at_boundary. cbn [grp]. rewrite prev_adv_app, rest_adv. cbn [rest].
    by rewrite drop_app_length.
Qed.

Lemma search_find_tag clean content_ :
  is_Some (search (find_tag_pattern clean) content_) <-> has_tag clean content_.
Proof.
  unfold search, has_tag. rewrite search_from_Some. split.
  - intros (pre & suf & -> & Hm%find_tag_pattern_match). eauto.
  - intros (pre & suf & -> & Hm). exists pre, suf. split; [done|].
    by apply find_tag_pattern_match.
Qed.

End Search.

(** ** The tag index *)

Section TagIndex.

Lemma first_seen_acc (acc l : list text) :
  let r := foldl (fun acc x => if decide (x ∈ acc) then acc else acc ++ [x]) acc l in
  (NoDup acc -> NoDup r) /\ (forall x, x ∈ r <-> x ∈ acc \/ x ∈ l).
Proof.
  revert acc. induction l as [|y l IH]; intros acc; simpl.
  - split; [done|]. intros x. rewrite elem_of_nil. tauto.
  - destruct (IH (if decide (y ∈ acc) then acc else acc ++ [y])) as [Hnd Hin].
    split.
    + intros Hacc. apply Hnd. destruct (decide (y ∈ acc)); [done|].
      apply NoDup_app. split; [done|]. split; [|apply NoDup_singleton].
      intros x Hx ->%list_elem_of_singleton. done.
    + intros x. rewrite Hin, elem_of_cons. destruct (decide (y ∈ acc)).
      * split; [tauto|]. intros [?|[->|?]]; tauto.
      * rewrite elem_of_app, list_elem_of_singleton. tauto.
Qed.

Lemma NoDup_first_seen l : NoDup (first_seen l).
Proof. apply (first_seen_acc [] l). constructor. Qed.

Lemma elem_of_first_seen l x : x ∈ first_seen l <-> x ∈ l.
Proof.
  unfold first_seen. rewrite (proj2 (first_seen_acc [] l)), elem_of_nil. tauto.
Qed.

Lemma first_seen_snoc l x :
  first_seen (l ++ [x])
  = if decide (x ∈ first_seen l) then first_seen l else first_seen l ++ [x].
Proof. unfold first_seen. by rewrite foldl_app. Qed.

Lemma paths_of_snoc x occ t p :
  paths_of x (occ ++ [(t, p)])
  = paths_of x occ ++ (if decide (t = x) then [p] else []).
Proof.
  unfold paths_of. rewrite filter_app, map_app. f_equal.
  rewrite filter_cons, filter_nil. simpl. by destruct (decide (t = x)).
Qed.

Lemma paths_of_other x occ t p : x <> t -> paths_of x (occ ++ [(t, p)]) = paths_of x occ.
Proof.
  intros Hne. rewrite paths_of_snoc, decide_False by done. apply app_nil_r.
Qed.

Lemma paths_of_absent t occ : t ∉ map fst occ -> paths_of t occ = [].
Proof.
  unfold paths_of. induction occ as [|[t' p'] occ IH]; [done|].
  simpl. rewrite not_elem_of_cons. intros [Hne Hnot].
  rewrite filter_cons, decide_False by (simpl; congruence). by apply IH.
Qed.

Lemma take_3_snoc (l : list text) p :
  take 3 (l ++ [p]) = if length (take 3 l) <? 3 then take 3 l ++ [p] else take 3 l.
Proof. by destruct l as [|a [|b [|c l]]]. Qed.

Lemma index_entry_other occ t p (L : list text) :
  t ∉ L -> map (index_entry (occ ++ [(t, p)])) L = map (index_entry occ) L.
Proof.
  intros Ht. apply map_ext_in. intros x Hx%list_elem_of_In.
  unfold index_entry. rewrite paths_of_other; [done|]. by intros ->.
Qed.

(** One step of the loop on an index built so far. *)
Lemma tag_data_hit_map occ t p (L : list text) :
  NoDup L ->
  (t ∉ L -> paths_of t occ = []) ->
  tag_data_hit t p (map (index_entry occ) L)
  = map (index_entry (occ ++ [(t, p)])) L
    ++ (if decide (t ∈ L) then [] else [index_entry (occ ++ [(t, p)]) t]).
Proof.
  induction L as [|x L IH]; intros Hnd Habs.
  - rewrite decide_False by apply not_elem_of_nil.
    cbn [map app tag_data_hit]. unfold index_entry.
    rewrite paths_of_snoc, decide_True by done.
    by rewrite Habs by apply not_elem_of_nil.
  - apply NoDup_cons in Hnd as [Hx Hnd]. cbn [map tag_data_hit].
    cbn [tag index_entry]. destruct (decide (x = t)) as [->|Hne].
    + rewrite decide_True by left. rewrite app_nil_r.
      rewrite index_entry_other by done. f_equal.
      unfold index_entry. cbn [count examples].
      rewrite paths_of_snoc, decide_True by done.
      rewrite length_app, take_3_snoc. done.
    + rewrite IH; [|done|].
      * cbn [app]. f_equal.
        { unfold index_entry. rewrite paths_of_other; [done|]. done. }
        f_equal. destruct (decide (t ∈ L)) as [Hin|Hnin].
        -- by rewrite decide_True by (by right).
        -- rewrite decide_False; [done|].
           rewrite not_elem_of_cons. split; [congruence|done].
      * intros Hnin. apply Habs. rewrite not_elem_of_cons. split; [congruence|done].
Qed.

Lemma tag_data_hit_index occ t p :
  tag_data_hit t p (tag_index occ) = tag_index (occ ++ [(t, p)]).
Proof.
  unfold tag_index. rewrite map_app. cbn [map fst].
  rewrite first_seen_snoc, tag_data_hit_map.
  - destruct (decide (t ∈ first_seen (map fst occ))).
    + by rewrite app_nil_r.
    + by rewrite map_app.
  - apply NoDup_first_seen.
  - intros Hnot. apply paths_of_absent. by rewrite <- elem_of_first_seen.
Qed.

Lemma foldl_hit_index occ0 occ :
  foldl (fun d o => tag_data_hit o.1 o.2 d) (tag_index occ0) occ
  = tag_index (occ0 ++ occ).
Proof.
  revert occ0. induction occ as [|[t p] occ IH]; intros occ0.
  - by rewrite app_nil_r.
  - cbn [foldl fst snd]. rewrite tag_data_hit_index, IH, <- app_assoc. done.
Qed.

Lemma foldl_flat_map {A B C} (g : A -> C -> A) (h : B -> list C) a l :
  foldl g a (flat_map h l) = foldl (fun a x => foldl g a (h x)) a l.
Proof.
  revert a. induction l as [|x l IH]; intros a; [done|].
  cbn [flat_map foldl]. by rewrite foldl_app, IH.
Qed.

End TagIndex.

(** ** Tag tokens and the sort *)

Section Tokens.

Lemma run_plus_set cs x xs p g :
  run (Plus (Set_ cs)) (MState p (x :: xs) g)
  = if mem cs x
    then map (fun k => adv k (MState (Some x) xs g)) (downto (span cs xs))
    else [].
Proof.
  change (run (Plus (Set_ cs)) (MState p (x :: xs) g))
    with (flat_map (fun st' => run (Star (Set_ cs)) st')
                   (run (Set_ cs) (MState p (x :: xs) g))).
  rewrite run_set_cons. destruct (mem cs x); [|done].
  cbn [flat_map]. rewrite app_nil_r. apply run_star_set.
Qed.

Lemma head_downto n : head (downto n) = Some n.
Proof. by destruct n. Qed.

Lemma match_at_tag_pattern p s :
  match_at tag_pattern p s
  = match tag_token s with
    | Some (w, r) =>
        Some (MState (s !! length w) r (Some w))
    | None => None
    end.
Proof.
  unfold match_at, tag_pattern, tag_token. cbn [cat].
  destruct s as [|c s1]; [done|].
  rewrite run_set_cat. cbn [mem].
  destruct (bool_decide (c = "#"%char)); [|done]. cbn [andb].
  change (run (Group ?r) ?st)
    with (map (fun st' => MState (prev st') (rest st') (Some (consumed st st')))
              (run r st)).
  destruct s1 as [|x xs]; [done|].
  rewrite run_plus_set. cbn [span]. destruct (mem CWord x); [|done].
  rewrite <- !list_fmap_compose.
  destruct (downto (span CWord xs)) as [|k ks] eqn:Hd;
    [by destruct (span CWord xs)|].
  assert (k = span CWord xs) as ->.
  { pose proof (head_downto (span CWord xs)) as Hh. rewrite Hd in Hh.
    by injection Hh. }
  cbn [fmap list_fmap head compose Nat.ltb Nat.leb].
  pose proof (span_le CWord xs) as Hle.
  f_equal. unfold consumed. cbn [rest adv prev]. f_equal.
  - rewrite length_take. cbn [length]. rewrite Nat.min_l by lia.
    by destruct (span CWord xs).
  - f_equal. rewrite length_drop. cbn [length].
    replace (S (length xs) - (length xs - span CWord xs))
      with (S (span CWord xs)) by lia.
    done.
Qed.

Lemma findall_from_tokens fuel p s :
  findall_from tag_pattern fuel p s = tokens_from fuel s.
Proof.
  revert p s. induction fuel as [|f IH]; intros p s; [done|].
  cbn [findall_from tokens_from]. rewrite match_at_tag_pattern.
  destruct (tag_token s) as [[w r]|] eqn:Htok.
  - cbn [grp rest prev default]. f_equal.
    assert (length r < length s) as Hlt.
    { unfold tag_token in Htok. destruct s as [|c s1]; [done|].
      destruct (_ && _); [|done]. injection Htok as <- <-.
      rewrite length_drop. cbn [length]. lia. }
    apply Nat.ltb_lt in Hlt. rewrite Hlt. apply IH.
  - destruct s as [|c s']; [done|]. apply IH.
Qed.

Lemma findall_tokens s : findall tag_pattern s = tokens s.
Proof. apply findall_from_tokens. Qed.

End Tokens.

Section Sorting.
Context {A : Type} (key : A -> Z).

Lemma insert_sorted_perm x l : insert_sorted key x l ≡ₚ x :: l.
Proof.
  induction l as [|y l IH]; [done|]. simpl.
  destruct (key x <=? key y)%Z; [done|].
  rewrite IH. apply Permutation_swap.
Qed.

Lemma sorted_perm l : sorted key l ≡ₚ l.
Proof.
  induction l as [|x l IH]; [done|].
  unfold sorted in *. simpl. by rewrite insert_sorted_perm, IH.
Qed.

Lemma insert_sorted_sorted x l :
  StronglySorted (fun a b => (key a <= key b)%Z) l ->
  StronglySorted (fun a b => (key a <= key b)%Z) (insert_sorted key x l).
Proof.
  induction 1 as [|y l Hl IH Hy]; simpl.
  - repeat constructor.
  - destruct (Z.leb_spec (key x) (key y)) as [Hle|Hgt].
    + constructor; [by constructor|]. constructor; [done|].
      eapply Forall_impl; [exact Hy|]. simpl. lia.
    + constructor; [done|].
      rewrite insert_sorted_perm. constructor; [lia|done].
Qed.

Lemma sorted_sorted l :
  StronglySorted (fun a b => (key a <= key b)%Z) (sorted key l).
Proof.
  induction l as [|x l IH]; [constructor|].
  by apply insert_sorted_sorted.
Qed.

(** Elements of equal key keep their order. *)
Lemma insert_sorted_stable k x l :
  filter (fun y => key y = k) (insert_sorted key x l)
  = filter (fun y => key y = k) (x :: l).
Proof.
  induction l as [|y l IH]; [done|]. simpl.
  destruct (Z.leb_spec (key x) (key y)) as [Hle|Hgt]; [done|].
  rewrite (filter_cons _ y), IH, !(filter_cons _ x), !(filter_cons _ y).
  destruct (decide (key y = k)), (decide (key x = k)); try done. lia.
Qed.

Lemma sorted_stable k l :
  filter (fun y => key y = k) (sorted key l) = filter (fun y => key y = k) l.
Proof.
  induction l as [|x l IH]; [done|].
  unfold sorted in *. simpl.
  by rewrite insert_sorted_stable, !filter_cons, IH.
Qed.

End Sorting.

Section ListTags.
Context {P : Platform}.

Lemma StronglySorted_impl {A} (R1 R2 : A -> A -> Prop) l :
  (forall a b, R1 a b -> R2 a b) -> StronglySorted R1 l -> StronglySorted R2 l.
Proof.
  intros HR. induction 1 as [|x l Hl IH Hx]; constructor; [done|].
  eapply Forall_impl; [exact Hx|]. apply HR.
Qed.

Lemma foldl_hit_note rel_path occ0 tags :
  foldl (fun tag_data tag_ => tag_data_hit tag_ rel_path tag_data)
        (tag_index occ0) tags
  = tag_index (occ0 ++ map (fun t => (t, rel_path)) tags).
Proof.
  rewrite <- foldl_hit_index. generalize (tag_index occ0).
  induction tags as [|t tags IH]; intros d; [done|]. simpl. apply IH.
Qed.

(** The loop of [list_tags] builds the index of the occurrences. *)
Lemma list_tags_index self fs :
  list_tags self fs
  = sorted (fun e => - Z.of_nat (count e))%Z (tag_index (occurrences self fs)).
Proof.
  unfold list_tags. f_equal.
  change (@nil tag_entry) with (tag_index []).
  rewrite <- (app_nil_l (occurrences self fs)). unfold occurrences.
  generalize (md_files self fs) as fl, (@nil (text * text)) at 1 2 as occ0.
  induction fl as [|f fl IH]; intros occ0.
  - by rewrite app_nil_r.
  - cbn [foldl flat_map]. destruct (try_read fs f) as [content_|].
    + rewrite foldl_hit_note, IH, <- app_assoc. done.
    + apply IH.
Qed.

End ListTags.

(** ** Paths and the file system *)

Section FsLemmas.

Lemma relative_to_Some p base rel :
  relative_to p base = Some rel <-> p = base ++ rel.
Proof.
  revert p. induction base as [|b base IH]; intros [|c p]; simpl;
    try (split; congruence).
  destruct (decide (c = b)) as [->|Hne].
  - rewrite IH. split; congruence.
  - split; [done | congruence].
Qed.

Lemma relative_to_prefix p base :
  is_Some (relative_to p base) <-> base `prefix_of` p.
Proof.
  split.
  - intros [rel Hrel]. exists rel. by apply relative_to_Some.
  - intros [rel ->]. exists rel. by apply relative_to_Some.
Qed.

Lemma exists_last_or_nil (q : path) : q = [] \/ exists l c, q = l ++ [c].
Proof.
  destruct q as [|x q] using rev_ind; [by left|right; eauto].
Qed.

Lemma parent_snoc (l : path) c : parent (l ++ [c]) = l.
Proof. apply removelast_last. Qed.

Lemma snoc_not_prefix (l : path) c : ~ (l ++ [c]) `prefix_of` l.
Proof.
  intros [k Hk]. apply (f_equal length) in Hk.
  rewrite !length_app in Hk. simpl in Hk. lia.
Qed.

Lemma os_mkdir_inv p fs fs' r :
  os_mkdir p fs = (fs', r) ->
  match r with
  | inl _ => fs' = fs
  | inr _ => fs !! p = None /\ fs !! parent p = Some Dir /\ fs' = <[p := Dir]> fs
  end.
Proof.
  unfold os_mkdir. destruct (fs !! p) eqn:Hp; [by intros [= <- <-]|].
  destruct (fs !! parent p) as [[|d]|] eqn:Hq; intros [= <- <-]; auto.
Qed.

Lemma os_mkdir_not_found p fs fs' msg :
  os_mkdir p fs = (fs', inl (FileNotFoundError msg)) -> fs !! p = None.
Proof.
  unfold os_mkdir. destruct (fs !! p) eqn:Hp; [by intros [= <-]|done].
Qed.

Lemma mkdir_exist_ok_inv p fs fs' r :
  mkdir_exist_ok p fs = (fs', r) ->
  match r with
  | inl _ => fs' = fs
  | inr _ => fs' !! p = Some Dir /\ forall q, q <> p -> fs' !! q = fs !! q
  end.
Proof.
  unfold mkdir_exist_ok. destruct (os_mkdir p fs) as [fs1 [e|[]]] eqn:Hmk.
  - destruct (fs !! p) as [[|d]|] eqn:Hp; intros [= <- <-]; auto.
  - apply os_mkdir_inv in Hmk as (_ & _ & ->). intros [= <- <-]. split.
    + apply lookup_insert_eq.
    + intros q Hq. by apply lookup_insert_ne.
Qed.

Lemma exist_ok_inv (p : path) (fs fs' : fsys) (e : exn) (r : exn + ()) :
  match fs !! p with
  | Some Dir => (fs, inr ())
  | _ => (fs, inl e)
  end = (fs', r) ->
  match r with
  | inl _ => fs' = fs
  | inr _ => fs' !! p = Some Dir /\ forall q, fs' !! q = fs !! q
  end.
Proof. destruct (fs !! p) as [[|d]|] eqn:Hp; intros [= <- <-]; auto. Qed.

(** [mkdir(parents=True, exist_ok=True)] either fails and leaves the file
    system as it was, or makes [p] a directory and touches nothing that is
    not an ancestor of [p] or [p] itself. *)
Lemma mkdir_rev_inv rp fs fs' r :
  mkdir_rev rp fs = (fs', r) ->
  match r with
  | inl _ => fs' = fs
  | inr _ =>
      fs' !! rev rp = Some Dir
      /\ forall q, ~ q `prefix_of` rev rp -> fs' !! q = fs !! q
  end.
Proof.
  revert fs fs' r. induction rp as [|c rp IH]; intros fs fs' r; cbn [mkdir_rev].
  - destruct (os_mkdir (rev []) fs) as [fs1 [e|[]]] eqn:Hmk.
    + destruct e;
        try (intros Hr%exist_ok_inv; destruct r as [?|[]]; [done|]; split; [tauto|]; intros; by apply Hr).
      by intros [= <- <-].
    + apply os_mkdir_inv in Hmk as (_ & _ & ->). intros [= <- <-]. split.
      * apply lookup_insert_eq.
      * intros q Hq. apply lookup_insert_ne. intros <-. by apply Hq.
  - destruct (os_mkdir (rev (c :: rp)) fs) as [fs1 [e|[]]] eqn:Hmk.
    + destruct e;
        try (intros Hr%exist_ok_inv; destruct r as [?|[]]; [done|]; split; [tauto|]; intros; by apply Hr).
      apply os_mkdir_not_found in Hmk.
      destruct (mkdir_rev rp fs) as [fs2 [e2|[]]] eqn:Hrec.
      * apply IH in Hrec as ->. by intros [= <- <-].
      * apply IH in Hrec as [Hdir Hframe].
        assert (Hp2 : fs2 !! rev (c :: rp) = None).
        { rewrite Hframe; [done|]. simpl. apply snoc_not_prefix. }
        unfold mkdir_exist_ok, os_mkdir. rewrite Hp2.
        simpl rev. rewrite parent_snoc, Hdir.
        intros [= <- <-]. split; [apply lookup_insert_eq|].
        intros q Hq. rewrite lookup_insert_ne; [|intros <-; by apply Hq].
        apply Hframe. intros Hpre. apply Hq.
        etrans; [done|]. by apply prefix_app_r.
    + apply os_mkdir_inv in Hmk as (_ & _ & ->). intros [= <- <-]. split.
      * apply lookup_insert_eq.
      * intros q Hq. apply lookup_insert_ne. intros <-. by apply Hq.
Qed.

Lemma mkdir_parents_inv p fs fs' r :
  mkdir_parents p fs = (fs', r) ->
  match r with
  | inl _ => fs' = fs
  | inr _ => fs' !! p = Some Dir /\ forall q, ~ q `prefix_of` p -> fs' !! q = fs !! q
  end.
Proof.
  unfold mkdir_parents. intros Hmk. apply mkdir_rev_inv in Hmk.
  by rewrite rev_involutive in Hmk.
Qed.

Lemma mkdir_root_inv fs fs' :
  mkdir_parents [] fs = (fs', inr ()) -> fs !! [] = Some Dir.
Proof.
  unfold mkdir_parents, mkdir_rev, os_mkdir, parent. simpl.
  destruct (fs !! []) as [[|d]|] eqn:Hp; by intros [= <-].
Qed.

(** After the parents of an absent [q] were made, writing [q] succeeds. *)
Lemma write_after_mkdir q s fs fs1 :
  fs !! q = None ->
  mkdir_parents (parent q) fs = (fs1, inr ()) ->
  write_text q s fs1
  = (<[q := File (Some (universal_newlines s))]> fs1, inr ()).
Proof.
  intros Hq Hmk. destruct (exists_last_or_nil q) as [->|(l & c & ->)].
  - apply mkdir_root_inv in Hmk. congruence.
  - rewrite parent_snoc in Hmk. apply mkdir_parents_inv in Hmk as [Hdir Hframe].
    unfold write_text. rewrite parent_snoc, Hdir, Hframe, Hq; [done|].
    apply snoc_not_prefix.
Qed.

End FsLemmas.

(** ** Newlines of a text read back *)

Section Newlines.

Lemma universal_newlines_cons c s :
  c <> cr -> universal_newlines (c :: s) = c :: universal_newlines s.
Proof. intros Hc. cbn [universal_newlines]. by rewrite decide_False. Qed.

(** Translation starts afresh after a prefix without carriage return. *)
Lemma universal_newlines_app a b :
  cr ∉ a -> universal_newlines (a ++ b) = a ++ universal_newlines b.
Proof.
  induction a as [|c a IH]; intros Ha; [done|].
  apply not_elem_of_cons in Ha as [Hc Ha]. simpl app.
  rewrite universal_newlines_cons by done. by rewrite IH.
Qed.

(** A text without carriage return is read back as it was written. *)
Lemma universal_newlines_id s : cr ∉ s -> universal_newlines s = s.
Proof.
  intros Hs. rewrite <- (app_nil_r s) at 1.
  rewrite universal_newlines_app by done. by rewrite app_nil_r.
Qed.

(** No carriage return is ever read. *)
Lemma universal_newlines_no_cr s : cr ∉ universal_newlines s.
Proof.
  induction s as [s IH] using (induction_ltof1 _ (@length ascii)).
  unfold ltof in IH. destruct s as [|c s]; [by apply not_elem_of_nil|].
  cbn [universal_newlines]. destruct (decide (c = cr)) as [->|Hc].
  - apply not_elem_of_cons. split; [done|].
    destruct s as [|c' s]; [by apply not_elem_of_nil|].
    destruct (decide (c' = nl)); apply IH; simpl; lia.
  - apply not_elem_of_cons. split; [done|]. apply IH. simpl. lia.
Qed.

Lemma universal_newlines_idem s :
  universal_newlines (universal_newlines s) = universal_newlines s.
Proof. apply universal_newlines_id, universal_newlines_no_cr. Qed.

(** A dumped text whose YAML block holds no carriage return is read back
    as the same header followed by the body as it is read back. *)
Lemma universal_newlines_dump {Y : Yaml} (M : yval) (y B : text) :
  yaml_dump M = y ++ [nl] -> cr ∉ y ->
  universal_newlines (dump M B) = dump M (universal_newlines B).
Proof.
  intros Hy Hcr. unfold dump. destruct (negb (truthy M)); [done|].
  rewrite Hy, !app_assoc. apply universal_newlines_app.
  rewrite !not_elem_of_app.
  repeat split; try done;
    repeat (apply not_elem_of_cons; split; [done|]); apply not_elem_of_nil.
Qed.

End Newlines.

(** ** Dictionaries *)

Section DictLemmas.

Lemma filter_ext_elem {A} (P1 P2 : A -> Prop)
    `{!forall x, Decision (P1 x)} `{!forall x, Decision (P2 x)} (l : list A) :
  (forall x, x ∈ l -> (P1 x <-> P2 x)) -> filter P1 l = filter P2 l.
Proof.
  induction l as [|x l IH]; intros Hl; [done|].
  rewrite !filter_cons, IH by (intros y Hy; apply Hl; by right).
  destruct (decide (P1 x)) as [H1|H1], (decide (P2 x)) as [H2|H2]; try done;
    exfalso; apply (Hl x) in H1 || apply (Hl x) in H2; try done; by left.
Qed.

Lemma dict_get_set k k' v d :
  dict_get k (dict_set k' v d) = if decide (k' = k) then Some v else dict_get k d.
Proof.
  induction d as [|[k1 v1] d IH]; simpl.
  - by destruct (decide (k' = k)).
  - destruct (decide (k1 = k')) as [->|Hne]; simpl.
    + by destruct (decide (k' = k)).
    + destruct (decide (k1 = k)) as [->|Hne'].
      * by rewrite decide_False by done.
      * done.
Qed.

Lemma dict_get_None k d : dict_get k d = None <-> k ∉ keys d.
Proof.
  induction d as [|[k1 v1] d IH]; simpl.
  - split; [intros _; apply not_elem_of_nil | done].
  - rewrite not_elem_of_cons. destruct (decide (k1 = k)) as [->|Hne].
    + split; [done | by intros [? _]].
    + rewrite IH. split; [by auto | by intros [_ ?]].
Qed.

Lemma dict_set_fresh k v d : k ∉ keys d -> dict_set k v d = d ++ [(k, v)].
Proof.
  induction d as [|[k1 v1] d IH]; simpl; [done|].
  rewrite not_elem_of_cons. intros [Hne Hk].
  rewrite decide_False by done. by rewrite IH.
Qed.

Lemma keys_dict_set_old k v d : k ∈ keys d -> keys (dict_set k v d) = keys d.
Proof.
  induction d as [|[k1 v1] d IH]; simpl.
  - by intros ?%elem_of_nil.
  - destruct (decide (k1 = k)) as [->|Hne]; [done|].
    rewrite elem_of_cons. intros [->|Hk]; [done|]. simpl. by rewrite IH.
Qed.

Lemma dict_merge_cons a k v b :
  dict_merge a ((k, v) :: b) = dict_merge (dict_set k v a) b.
Proof. done. Qed.

(** Looking a key up in [{**a, **b}]. *)
Lemma dict_get_merge k a b :
  NoDup (keys b) ->
  dict_get k (dict_merge a b)
  = match dict_get k b with Some v => Some v | None => dict_get k a end.
Proof.
  revert a. induction b as [|[k1 v1] b IH]; intros a Hnd; [done|].
  simpl in Hnd. apply NoDup_cons in Hnd as [Hk1 Hnd].
  rewrite dict_merge_cons, IH by done. simpl.
  destruct (decide (k1 = k)) as [->|Hne].
  - apply dict_get_None in Hk1. rewrite Hk1, dict_get_set.
    by rewrite decide_True.
  - rewrite dict_get_set. by rewrite decide_False.
Qed.

(** The keys of [{**a, **b}]: those of [a] in their order, then the new
    ones of [b] in theirs. *)
Lemma keys_dict_merge a b :
  NoDup (keys b) ->
  keys (dict_merge a b) = keys a ++ filter (fun k => k ∉ keys a) (keys b).
Proof.
  revert a. induction b as [|[k1 v1] b IH]; intros a Hnd.
  - simpl. by rewrite app_nil_r.
  - simpl in Hnd. apply NoDup_cons in Hnd as [Hk1 Hnd].
    rewrite dict_merge_cons, IH by done. simpl keys. rewrite filter_cons.
    destruct (decide (k1 ∈ keys a)) as [Hin|Hnin].
    + rewrite keys_dict_set_old by done.
      by rewrite decide_False by auto.
    + rewrite decide_True by done.
      rewrite dict_set_fresh by done.
      rewrite map_app. simpl. rewrite <- app_assoc. simpl.
      do 2 f_equal. apply filter_ext_elem.
      intros k Hk. rewrite not_elem_of_app, list_elem_of_singleton.
      split; [tauto|]. intros Hka. split; [done|]. intros ->. done.
Qed.

Lemma dict_merge_nil b : NoDup (keys b) -> dict_merge [] b = b.
Proof.
  assert (Hgen : forall a, NoDup (keys b) ->
    (forall k, k ∈ keys b -> k ∉ keys a) -> dict_merge a b = a ++ b).
  { induction b as [|[k1 v1] b IH]; intros a Hnd Hdisj.
    - simpl. by rewrite app_nil_r.
    - simpl in Hnd. apply NoDup_cons in Hnd as [Hk1 Hnd].
      rewrite dict_merge_cons, dict_set_fresh by (apply Hdisj; simpl; left).
      rewrite IH; [by rewrite <- app_assoc|done|].
      intros k Hk. rewrite map_app. simpl.
      rewrite not_elem_of_app, list_elem_of_singleton. split.
      + apply Hdisj. simpl. by right.
      + intros ->. done. }
  intros Hnd. apply (Hgen [] Hnd). intros k _. apply not_elem_of_nil.
Qed.

End DictLemmas.

(** ** What the operations do on a given note *)

Section Outcomes.
Context {Y : Yaml} {P : Platform}.

Ltac unfold_ops :=
  unfold read_note, create_note, edit_note, read_frontmatter,
    update_frontmatter, bind, lift, raise, ret, exists_ in *.

Lemma create_note_existing self p q n content_ fm fs :
  _resolve_path self p = inr q ->
  fs !! q = Some n ->
  create_note self p content_ fm fs
  = (fs, inl (FileExistsError (str "Note already exists: " ++ p))).
Proof.
  intros Hq Hn. unfold_ops. rewrite Hq. cbn.
  by rewrite bool_decide_eq_true_2 by eauto.
Qed.

Lemma edit_note_missing self p q content_ fs :
  _resolve_path self p = inr q ->
  fs !! q = None ->
  edit_note self p content_ fs
  = (fs, inl (FileNotFoundError (str "Note not found: " ++ p))).
Proof.
  intros Hq Hn. unfold_ops. rewrite Hq. cbn.
  by rewrite bool_decide_eq_false_2 by (intros [? ?]; congruence).
Qed.

Lemma update_frontmatter_missing self p q fields fs :
  _resolve_path self p = inr q ->
  fs !! q = None ->
  update_frontmatter self p fields fs
  = (fs, inl (FileNotFoundError (str "Note not found: " ++ p))).
Proof.
  intros Hq Hn. unfold_ops. rewrite Hq. cbn.
  by rewrite bool_decide_eq_false_2 by (intros [? ?]; congruence).
Qed.

Lemma edit_note_unparsed self p q text_ e content_ fs :
  _resolve_path self p = inr q ->
  fs !! q = Some (File (Some text_)) ->
  parse text_ = inl e ->
  edit_note self p content_ fs = (fs, inl e).
Proof.
  intros Hq Hn He. unfold_ops. rewrite Hq. cbn.
  rewrite bool_decide_eq_true_2 by eauto. cbn.
  unfold read_text. by rewrite Hn, He.
Qed.

(** On an existing, readable note whose header parses, [edit_note] writes
    the new text in place. *)
Lemma edit_note_parsed self p q text_ result content_ fs :
  _resolve_path self p = inr q ->
  fs !! q = Some (File (Some text_)) ->
  parse text_ = inr result ->
  edit_note self p content_ fs
  = (<[q := File (Some (universal_newlines
                          (if has_frontmatter result
                           then dump (frontmatter result) content_
                           else content_)))]> fs, inr ()).
Proof.
  intros Hq Hn He. unfold_ops. rewrite Hq. cbn.
  rewrite bool_decide_eq_true_2 by eauto. cbn.
  unfold read_text. rewrite Hn, He. cbn. unfold write_text. by rewrite Hn.
Qed.

Lemma update_frontmatter_updated self p q text_ new_content fields fs :
  _resolve_path self p = inr q ->
  fs !! q = Some (File (Some text_)) ->
  update text_ fields = inr new_content ->
  update_frontmatter self p fields fs
  = (<[q := File (Some (universal_newlines new_content))]> fs, inr ()).
Proof.
  intros Hq Hn He. unfold_ops. rewrite Hq. cbn.
  rewrite bool_decide_eq_true_2 by eauto. cbn.
  unfold read_text. rewrite Hn, He. cbn. unfold write_text. by rewrite Hn.
Qed.

End Outcomes.

(** ** The claims *)

Ltac unfold_ops :=
  unfold read_note, create_note, edit_note, read_frontmatter,
    update_frontmatter, bind, lift, raise, ret, exists_ in *.

(** C1.  [_resolve_path] strips the leading separators, joins the input
    against the vault root and canonicalises it; it fails, with
    [PathTraversalError], exactly when the canonical path is neither the
    root nor below it, and otherwise returns that canonical path, which is
    the root or below it.  A failure is raised by every operation before it
    touches the file system. *)
Theorem C1_resolve_confines_to_root {Y : Yaml} {P : Platform}
    (self : VaultManager) (p : text) :
  ((exists e, _resolve_path self p = inl e)
     <-> ~ vault_path self `prefix_of` canonical self p)
  /\ (forall e, _resolve_path self p = inl e -> PathTraversalError e)
  /\ (forall q, _resolve_path self p = inr q ->
        q = canonical self p /\ vault_path self `prefix_of` q)
  /\ (forall e, _resolve_path self p = inl e ->
      forall fs content_ fm fields,
        read_note self p fs = (fs, inl e)
        /\ create_note self p content_ fm fs = (fs, inl e)
        /\ edit_note self p content_ fs = (fs, inl e)
        /\ read_frontmatter self p fs = (fs, inl e)
        /\ update_frontmatter self p fields fs = (fs, inl e)).
Proof.
  unfold _resolve_path. fold (canonical self p).
  destruct (relative_to (canonical self p) (vault_path self)) as [rel|] eqn:Hrel.
  - assert (Hpre : vault_path self `prefix_of` canonical self p).
    { apply relative_to_prefix. by exists rel. }
    split; [|split; [|split]]; try done.
    + split; [by intros [e He] | done].
    + by intros q [= <-].
  - assert (Hpre : ~ vault_path self `prefix_of` canonical self p).
    { intros [rel Hrel']%relative_to_prefix. congruence. }
    split; [|split; [|split]]; try done.
    + split; [done|eauto].
    + intros e [= <-]. by eexists.
    + intros e [= <-] fs content_ fm fields. unfold_ops. unfold _resolve_path.
      unfold canonical in Hrel. by rewrite Hrel.
Qed.

Lemma C1_witness :
  (exists e, _resolve_path (P := Demo.os) Demo.self (str "../outside.md") = inl e
             /\ PathTraversalError e)
  /\ (exists e, _resolve_path (P := Demo.os) Demo.self (str "out/passwd") = inl e
                /\ PathTraversalError e)
  /\ (exists q, _resolve_path (P := Demo.os) Demo.self (str "Daily/2024-01-01.md")
                = inr q /\ Demo.root `prefix_of` q)
  /\ (exists q, _resolve_path (P := Demo.os) Demo.self (str "/etc/passwd")
                = inr q /\ Demo.root `prefix_of` q).
Proof.
  pose proof (fun p => C1_resolve_confines_to_root (Y := plain_yaml)
                         (P := Demo.os) Demo.self p) as C1.
  split; [|split; [|split]].
  - eexists. split; [vm_compute; reflexivity|].
    apply (proj1 (proj2 (C1 (str "../outside.md")))). vm_compute. reflexivity.
  - eexists. split; [vm_compute; reflexivity|].
    apply (proj1 (proj2 (C1 (str "out/passwd")))). vm_compute. reflexivity.
  - eexists. split; [vm_compute; reflexivity|].
    apply (proj1 (proj2 (proj2 (C1 (str "Daily/2024-01-01.md"))))).
    vm_compute. reflexivity.
  - eexists. split; [vm_compute; reflexivity|].
    apply (proj1 (proj2 (proj2 (C1 (str "/etc/passwd"))))).
    vm_compute. reflexivity.
Defined.

(** C10.  [create_note], [edit_note] and [update_frontmatter] validate
    before they write: when one of them raises, the file system is what it
    was before the call; when it returns, its last action was the single
    write of the new text to the resolved path. *)
Theorem C10_errors_leave_files_untouched {Y : Yaml} {P : Platform}
    (self : VaultManager) (p : text) (fs fs' : fsys) :
  (forall e content_ fm,
      create_note self p content_ fm fs = (fs', inl e) -> fs' = fs)
  /\ (forall e content_, edit_note self p content_ fs = (fs', inl e) -> fs' = fs)
  /\ (forall e fields,
        update_frontmatter self p fields fs = (fs', inl e) -> fs' = fs)
  /\ (forall content_ fm,
        create_note self p content_ fm fs = (fs', inr ()) ->
        exists q fs1 new_text,
          _resolve_path self p = inr q /\ fs !! q = None
          /\ mkdir_parents (parent q) fs = (fs1, inr ())
          /\ fs' = <[q := File (Some new_text)]> fs1)
  /\ (forall content_,
        edit_note self p content_ fs = (fs', inr ()) ->
        exists q new_text,
          _resolve_path self p = inr q
          /\ fs' = <[q := File (Some new_text)]> fs)
  /\ (forall fields,
        update_frontmatter self p fields fs = (fs', inr ()) ->
        exists q new_text,
          _resolve_path self p = inr q
          /\ fs' = <[q := File (Some new_text)]> fs).
Proof.
  assert (Hwrite : forall q s r,
    is_Some (fs !! q) -> write_text q s fs = (fs', r) ->
    match r with
    | inl _ => fs' = fs
    | inr _ => fs' = <[q := File (Some (universal_newlines s))]> fs
    end).
  { intros q s r [[|d] Hq]; unfold write_text; rewrite Hq; by intros [= <- <-]. }
  unfold_ops. destruct (_resolve_path self p) as [e0|q]; cbn.
  { repeat split; intros; simplify_eq; done. }
  destruct (fs !! q) as [n|] eqn:Hq.
  - rewrite bool_decide_eq_true_2 by eauto. cbn.
    split; [by intros e content_ fm [= <-]|].
    assert (Hsome : is_Some (fs !! q)) by eauto.
    unfold read_text. rewrite Hq.
    repeat split.
    + intros e content_. destruct n as [|[s|]]; try by intros [= <-].
      destruct (parse s) as [e1|res]; cbn; [by intros [= <-]|].
      intros Hw. by apply Hwrite in Hw.
    + intros e fields. destruct n as [|[s|]]; try by intros [= <-].
      destruct (update s fields) as [e1|new]; cbn; [by intros [= <-]|].
      intros Hw. by apply Hwrite in Hw.
    + done.
    + intros content_. destruct n as [|[s|]]; try done.
      destruct (parse s) as [e1|res]; cbn; [done|].
      intros Hw. apply Hwrite in Hw; [|done]. eauto.
    + intros fields. destruct n as [|[s|]]; try done.
      destruct (update s fields) as [e1|new]; cbn; [done|].
      intros Hw. apply Hwrite in Hw; [|done]. eauto.
  - rewrite bool_decide_eq_false_2 by (intros [? ?]; congruence). cbn.
    repeat split; try (intros; simplify_eq; done).
    + intros e content_ fm.
      destruct (mkdir_parents (parent q) fs) as [fs1 [e1|[]]] eqn:Hmk.
      * apply mkdir_parents_inv in Hmk. by intros [= <-].
      * erewrite write_after_mkdir by done. done.
    + intros content_ fm.
      destruct (mkdir_parents (parent q) fs) as [fs1 [e1|[]]] eqn:Hmk; [done|].
      erewrite write_after_mkdir by done. intros [= <-]. eauto 10.
Qed.

Lemma C10_witness :
  (create_note (Y := plain_yaml) (P := Demo.os) Demo.self (str "README.md")
     (str "New content") None Demo.fs).1 = Demo.fs
  /\ (edit_note (Y := plain_yaml) (P := Demo.os) Demo.self (str "Broken.md")
        (str "New content") Demo.fs).1 = Demo.fs
  /\ (update_frontmatter (Y := plain_yaml) (P := Demo.os) Demo.self
        (str "nonexistent.md") [(str "key", YStr (str "value"))] Demo.fs).1
     = Demo.fs.
Proof.
  split; [|split].
  - eapply (proj1 (C10_errors_leave_files_untouched (Y := plain_yaml)
                     (P := Demo.os) Demo.self (str "README.md") Demo.fs _)
              _ (str "New content") None).
    erewrite create_note_existing; [reflexivity| |]; vm_compute; reflexivity.
  - eapply (proj1 (proj2 (C10_errors_leave_files_untouched (Y := plain_yaml)
                     (P := Demo.os) Demo.self (str "Broken.md") Demo.fs _))
              _ (str "New content")).
    erewrite edit_note_unparsed; [reflexivity| | |]; vm_compute; reflexivity.
  - eapply (proj1 (proj2 (proj2 (C10_errors_leave_files_untouched
                     (Y := plain_yaml) (P := Demo.os) Demo.self
                     (str "nonexistent.md") Demo.fs _)))
              _ [(str "key", YStr (str "value"))]).
    erewrite update_frontmatter_missing; [reflexivity| |]; vm_compute; reflexivity.
Defined.

(** C9.  When the header block matches and the YAML loader rejects its
    content, [parse] raises [MetadataFormatError] with the loader's
    diagnostic, and so does every operation that parses the header of such
    a note; nothing is written. *)
Theorem C9_malformed_header_is_raised {Y : Yaml} {P : Platform}
    (text_ : text) (m : mstate) (diagnostic : text) :
  match_ FRONTMATTER_PATTERN text_ = Some m ->
  yaml_safe_load (default [] (grp m)) = inl diagnostic ->
  exists e,
    MetadataFormatError diagnostic e
    /\ parse text_ = inl e
    /\ (forall fields, update text_ fields = inl e)
    /\ forall self p q fs,
         _resolve_path self p = inr q ->
         fs !! q = Some (File (Some text_)) ->
         (forall content_, edit_note self p content_ fs = (fs, inl e))
         /\ read_frontmatter self p fs = (fs, inl e)
         /\ (forall fields, update_frontmatter self p fields fs = (fs, inl e)).
Proof.
  intros Hm Hload. eexists. split; [reflexivity|].
  assert (Hparse : parse text_
    = inl (ValueError (str "Invalid YAML frontmatter: " ++ diagnostic))).
  { unfold parse. by rewrite Hm, Hload. }
  split; [done|]. split.
  { intros fields. unfold update. by rewrite Hparse. }
  intros self p q fs Hq Hfile. unfold_ops. rewrite Hq. cbn.
  rewrite bool_decide_eq_true_2 by eauto. cbn.
  unfold read_text, update. rewrite Hfile, Hparse. done.
Qed.

Lemma C9_witness :
  exists e,
    MetadataFormatError (str "mapping values are not allowed here") e
    /\ parse (Y := plain_yaml) Demo.broken = inl e
    /\ forall content_,
         edit_note (Y := plain_yaml) (P := Demo.os) Demo.self
           (str "Broken.md") content_ Demo.fs = (Demo.fs, inl e).
Proof.
  destruct (C9_malformed_header_is_raised (Y := plain_yaml) (P := Demo.os)
              Demo.broken _ (str "mapping values are not allowed here")
              ltac:(vm_compute; reflexivity) ltac:(vm_compute; reflexivity))
    as (e & He & Hparse & _ & Hops).
  exists e. split; [done|]. split; [done|].
  apply (Hops Demo.self (str "Broken.md") [str "vault"; str "Broken.md"]);
    vm_compute; reflexivity.
Defined.

Lemma parse_no_header {Y : Yaml} (text_ : text) (r : FrontmatterResult) :
  parse text_ = inr r -> has_frontmatter r = false ->
  frontmatter r = YMap [] /\ content r = text_.
Proof.
  unfold parse. destruct (match_ FRONTMATTER_PATTERN text_) as [m|].
  - destruct (yaml_safe_load _); [done|]. by intros [= <-].
  - by intros [= <-].
Qed.

(** C3 (where the code does what it documents).  On a text that parses
    to a mapping - a text without header block, or one whose header loads
    as a mapping or as nothing - [update] serialises, with the body of the
    parsed text, the existing metadata overwritten by the new: every key of
    the new mapping has the new value, whole; every other key keeps its
    value; an overwritten key keeps its place and is not repeated, new keys
    follow; and without a header block the result is the new mapping
    itself. *)
Theorem C3_merge_overwrites_shallowly {Y : Yaml} (text_ : text) (N : dict)
    (r : FrontmatterResult) (E : dict) :
  NoDup (keys N) ->
  parse text_ = inr r ->
  frontmatter r = YMap E ->
  update text_ N = inr (dump (YMap (dict_merge E N)) (content r))
  /\ (forall k, dict_get k (dict_merge E N)
                = match dict_get k N with
                  | Some v => Some v
                  | None => dict_get k E
                  end)
  /\ keys (dict_merge E N) = keys E ++ filter (fun k => k ∉ keys E) (keys N)
  /\ (NoDup (keys E) -> NoDup (keys (dict_merge E N)))
  /\ (has_frontmatter r = false -> dict_merge E N = N).
Proof.
  intros Hnd Hparse HE. split; [|split; [|split; [|split]]].
  - unfold update. by rewrite Hparse, HE.
  - intros k. by apply dict_get_merge.
  - by apply keys_dict_merge.
  - intros HndE. rewrite keys_dict_merge by done.
    apply NoDup_app. split; [done|]. split.
    + intros k Hk [Hnk _]%list_elem_of_filter. done.
    + by apply NoDup_filter.
  - intros Hno. destruct (parse_no_header _ _ Hparse Hno) as [Hfm _].
    rewrite HE in Hfm. injection Hfm as ->. by apply dict_merge_nil.
Qed.

Lemma C3_witness :
  update (Y := plain_yaml) Demo.readme [(str "author", YStr (str "Test"))]
  = inr (Demo.lines ["---"; "title: Welcome"; "author: Test"; "---"; "";
                     "# Welcome to My Vault"; ""]).
Proof.
  destruct (C3_merge_overwrites_shallowly (Y := plain_yaml) Demo.readme
              [(str "author", YStr (str "Test"))] _
              [(str "title", YStr (str "Welcome"))]
              ltac:(repeat constructor; set_solver)
              ltac:(vm_compute; reflexivity) ltac:(vm_compute; reflexivity))
    as [Hupd _].
  rewrite Hupd. vm_compute. reflexivity.
Defined.

(** C3 does not hold of every text.  A header that loads as a scalar is
    returned by [parse] as the metadata, though [FrontmatterResult] declares
    [frontmatter: dict[str, Any]]; [update] then unpacks it as a mapping and
    raises [TypeError] whatever the new mapping is. *)
Lemma C3_counterexample :
  let text_ := Demo.lines ["---"; "hello"; "---"; "Body"] in
  (exists r, parse (Y := plain_yaml) text_ = inr r
             /\ has_frontmatter r = true
             /\ frontmatter r = YStr (str "hello"))
  /\ forall N, exists msg, update (Y := plain_yaml) text_ N = inl (TypeError msg).
Proof.
  split.
  - eexists. split; [vm_compute; reflexivity|]. by split.
  - intros N. eexists. unfold update.
    replace (parse (Y := plain_yaml) _)
      with (inr (B := FrontmatterResult) (A := exn)
              {| frontmatter := YStr (str "hello");
                 content := str "Body";
                 has_frontmatter := true |})
      by (vm_compute; reflexivity).
    reflexivity.
Qed.

(** C5.  On a text that has no header block at its very start, [parse]
    returns no metadata, [has_frontmatter = false] and the whole text as
    the body (and only on such a text does it return
    [has_frontmatter = false]).  A closing [---] that is not followed by a
    newline closes no header block: see the witness. *)
Theorem C5_no_header_block_no_metadata {Y : Yaml} (text_ : text) :
  (~ header_block text_ ->
   parse text_ = inr {| frontmatter := YMap [];
                        content := text_;
                        has_frontmatter := false |})
  /\ (forall r, parse text_ = inr r -> has_frontmatter r = false ->
                ~ header_block text_).
Proof.
  split.
  - apply parse_without_header.
  - intros r Hparse Hfalse. apply header_pattern_None. unfold parse in Hparse.
    destruct (match_ FRONTMATTER_PATTERN text_) as [m|]; [|done].
    destruct (yaml_safe_load _); [done|]. injection Hparse as <-. done.
Qed.

Lemma C5_witness :
  parse (Y := plain_yaml) (Demo.lines ["---"; "title: Test"; "---Content"])
  = inr {| frontmatter := YMap [];
           content := Demo.lines ["---"; "title: Test"; "---Content"];
           has_frontmatter := false |}
  /\ parse (Y := plain_yaml) (Demo.lines ["---"; "key: v"; "---"])
     = inr {| frontmatter := YMap [];
              content := Demo.lines ["---"; "key: v"; "---"];
              has_frontmatter := false |}.
Proof.
  split.
  - apply (proj1 (C5_no_header_block_no_metadata (Y := plain_yaml) _)).
    apply header_pattern_None. vm_compute. reflexivity.
  - apply (proj1 (C5_no_header_block_no_metadata (Y := plain_yaml) _)).
    apply header_pattern_None. vm_compute. reflexivity.
Defined.

(** C2 (as the code has it).  For non-empty metadata [M] that the YAML
    library writes as a block [y] and reads back, [parse (dump M B)]
    returns [M], [has_frontmatter = true], and the body [B] without its
    leading blank lines: [B] itself exactly when the whitespace at the
    start of [B] holds no newline.  With empty metadata [dump] returns
    the body and emits no header. *)
Theorem C2_round_trip_up_to_blank_lines {Y : Yaml} (M : dict) (y B : text) :
  M <> [] ->
  writes_block (YMap M) y ->
  yaml_safe_load y = inr (YMap M) ->
  parse (dump (YMap M) B)
  = inr {| frontmatter := YMap M;
           content := skip_blank B;
           has_frontmatter := true |}
  /\ (skip_blank B = B <-> last_at nl B (span CSpace B) = None)
  /\ dump (YMap []) B = B.
Proof.
  intros HM Hblock Hload. split; [|split].
  - apply (parse_dump _ y); [by destruct M|done|done].
  - apply skip_blank_id.
  - done.
Qed.

Lemma C2_witness :
  parse (Y := plain_yaml)
    (dump (Y := plain_yaml) (YMap [(str "title", YStr (str "Test"))])
       (str "# Test Content"))
  = inr {| frontmatter := YMap [(str "title", YStr (str "Test"))];
           content := str "# Test Content";
           has_frontmatter := true |}.
Proof.
  apply (C2_round_trip_up_to_blank_lines (Y := plain_yaml)
           [(str "title", YStr (str "Test"))] (str "title: Test")
           (str "# Test Content")).
  - discriminate.
  - split; [reflexivity|]. split; [|reflexivity].
    eexists _, _. split; reflexivity.
  - reflexivity.
Defined.

(** C2 as stated fails on a body that starts with a blank line: the
    metadata [{title: T}] and the body ["\nX"] come back as [{title: T}]
    and ["X"]. *)
Lemma C2_counterexample :
  exists r,
    parse (Y := plain_yaml)
      (dump (Y := plain_yaml) (YMap [(str "title", YStr (str "T"))])
         (nl :: str "X")) = inr r
    /\ frontmatter r = YMap [(str "title", YStr (str "T"))]
    /\ content r = str "X"
    /\ content r <> nl :: str "X".
Proof. eexists. split; [vm_compute; reflexivity|]. by repeat split. Qed.

(** C4 (as the code has it).  [edit_note] on a missing note raises
    [NoteNotFoundError].  On a note whose text parses, it writes a text
    that is read back as [new] and parses to the same metadata.  The new
    body is read back with universal newlines; when the note has metadata
    that the YAML library writes as a block without carriage return and
    loads back, the body parsed from [new] is that text without its leading
    blank lines; when the note has none, [new] is that text, and its body
    if it does not itself begin with a header block. *)
Theorem C4_edit_note_keeps_metadata {Y : Yaml} {P : Platform}
    (self : VaultManager) (p : text) (q : path) (fs : fsys) (B : text) :
  _resolve_path self p = inr q ->
  (fs !! q = None ->
   exists e, NoteNotFoundError e /\ edit_note self p B fs = (fs, inl e))
  /\ (forall old r,
        fs !! q = Some (File (Some old)) ->
        parse old = inr r ->
        exists new,
          edit_note self p B fs = (<[q := File (Some new)]> fs, inr ())
          /\ read_note self p (<[q := File (Some new)]> fs)
             = (<[q := File (Some new)]> fs, inr new)
          /\ (truthy (frontmatter r) = true ->
              forall y, writes_block (frontmatter r) y ->
                        cr ∉ y ->
                        yaml_safe_load y = inr (frontmatter r) ->
              parse new = inr {| frontmatter := frontmatter r;
                                 content := skip_blank (universal_newlines B);
                                 has_frontmatter := true |})
          /\ (truthy (frontmatter r) = false ->
              new = universal_newlines B
              /\ (~ header_block (universal_newlines B) ->
                  parse new = inr {| frontmatter := frontmatter r;
                                     content := universal_newlines B;
                                     has_frontmatter := false |}))
          /\ (cr ∉ B -> universal_newlines B = B)).
Proof.
  intros Hq. split.
  - intros Hnone. eexists. split; [by eexists|]. by eapply edit_note_missing.
  - intros old r Hold Hparse. eexists. split; [by eapply edit_note_parsed|].
    split.
    { unfold_ops. rewrite Hq. cbn.
      rewrite bool_decide_eq_true_2 by (rewrite lookup_insert_eq; eauto).
      cbn. unfold read_text. by rewrite lookup_insert_eq. }
    split; [|split].
    + intros Htrue y Hblock Hcr Hload.
      rewrite (parse_truthy _ _ Hparse Htrue).
      rewrite (universal_newlines_dump _ y) by (done || apply Hblock).
      by apply (parse_dump _ y).
    + intros Hfalse.
      assert (Hnew : (if has_frontmatter r then dump (frontmatter r) B else B) = B).
      { unfold dump. rewrite Hfalse. by destruct (has_frontmatter r). }
      rewrite Hnew. split; [done|]. intros Hno.
      rewrite (parse_falsy _ _ Hparse Hfalse).
      by apply parse_without_header.
    + apply universal_newlines_id.
Qed.

Lemma C4_witness :
  exists new,
    edit_note (Y := plain_yaml) (P := Demo.os) Demo.self (str "README.md")
      (str "New body content") Demo.fs
    = (<[[str "vault"; str "README.md"] := File (Some new)]> Demo.fs, inr ())
    /\ parse (Y := plain_yaml) new
       = inr {| frontmatter := YMap [(str "title", YStr (str "Welcome"))];
                content := str "New body content";
                has_frontmatter := true |}.
Proof.
  destruct (proj2 (C4_edit_note_keeps_metadata (Y := plain_yaml) (P := Demo.os)
                     Demo.self (str "README.md") [str "vault"; str "README.md"]
                     Demo.fs (str "New body content")
                     ltac:(vm_compute; reflexivity))
              Demo.readme
              {| frontmatter := YMap [(str "title", YStr (str "Welcome"))];
                 content := Demo.lines ["# Welcome to My Vault"; ""];
                 has_frontmatter := true |}
              ltac:(vm_compute; reflexivity) ltac:(vm_compute; reflexivity))
    as (new & Hedit & _ & Htrue & _).
  exists new. split; [exact Hedit|].
  apply (Htrue eq_refl (str "title: Welcome")).
  - split; [reflexivity|]. split; [|reflexivity]. eexists _, _. split; reflexivity.
  - apply (bool_decide_unpack _). vm_compute. reflexivity.
  - reflexivity.
Defined.

(** C4 as stated fails in three ways.  On a note with metadata, the body
    read back after [edit_note] lacks the blank line the new body started
    with.  A carriage return in the new body is read back as a newline.
    On a note without metadata, a new body that begins with a header block
    gives the note metadata. *)
Lemma C4_counterexample :
  (exists new r,
     edit_note (Y := plain_yaml) (P := Demo.os) Demo.self (str "README.md")
       (nl :: str "New body") Demo.fs
     = (<[[str "vault"; str "README.md"] := File (Some new)]> Demo.fs, inr ())
     /\ parse (Y := plain_yaml) new = inr r
     /\ content r = str "New body"
     /\ content r <> nl :: str "New body")
  /\ (exists new r,
        edit_note (Y := plain_yaml) (P := Demo.os) Demo.self (str "README.md")
          (str "a" ++ cr :: str "b") Demo.fs
        = (<[[str "vault"; str "README.md"] := File (Some new)]> Demo.fs, inr ())
        /\ parse (Y := plain_yaml) new = inr r
        /\ content r = str "a" ++ nl :: str "b"
        /\ content r <> str "a" ++ cr :: str "b")
  /\ (exists old new r,
        parse (Y := plain_yaml) Demo.untagged = inr old
        /\ frontmatter old = YMap []
        /\ edit_note (Y := plain_yaml) (P := Demo.os) Demo.self
             (str "Untagged.md")
             (Demo.lines ["---"; "title: Injected"; "---"; "Body"]) Demo.fs
           = (<[[str "vault"; str "Untagged.md"] := File (Some new)]> Demo.fs,
              inr ())
        /\ parse (Y := plain_yaml) new = inr r
        /\ frontmatter r = YMap [(str "title", YStr (str "Injected"))]
        /\ frontmatter r <> frontmatter old).
Proof.
  split; [|split].
  - eexists _, _. split.
    { eapply (edit_note_parsed (Y := plain_yaml) (P := Demo.os));
        vm_compute; reflexivity. }
    split; [vm_compute; reflexivity|]. by split.
  - eexists _, _. split.
    { eapply (edit_note_parsed (Y := plain_yaml) (P := Demo.os));
        vm_compute; reflexivity. }
    split; [vm_compute; reflexivity|]. by split.
  - eexists _, _, _. split; [vm_compute; reflexivity|]. split; [reflexivity|].
    split.
    { eapply (edit_note_parsed (Y := plain_yaml) (P := Demo.os));
        vm_compute; reflexivity. }
    split; [vm_compute; reflexivity|]. by split.
Qed.

(** C7.  [get_backlinks N] returns one entry for each scanned note that
    holds at least one link to [N], in scan order, with the number of
    links found in it; a note holds one exactly when [[N]] or [[N|alias]]
    occurs in it; and the pattern matches at a position exactly when the
    text there starts with [[N]] or with [[N|alias]] for a non-empty
    alias without a closing bracket, [N] standing for itself character
    by character. *)
Theorem C7_backlinks_are_literal_links {P : Platform} (self : VaultManager)
    (N : text) (fs : fsys) :
  get_backlinks self N fs
  = map (fun f => {| bl_path := rel_posix self f;
                     bl_name := stem f;
                     link_count := links_in N fs f |})
        (filter (fun f => 0 < links_in N fs f) (md_files self fs))
  /\ (forall f content_,
        try_read fs f = Some content_ ->
        (0 < links_in N fs f <-> has_link N content_))
  /\ (forall p s, is_Some (match_at (link_pattern N) p s) <-> link_at N s).
Proof.
  split; [|split].
  - unfold get_backlinks. rewrite <- flat_map_filter_map.
    apply flat_map_ext. intros f. unfold links_in.
    destruct (try_read fs f) as [content_|]; [|done].
    by destruct (findall (link_pattern N) content_).
  - intros f content_ Hread. unfold links_in. rewrite Hread.
    rewrite <- findall_link. destruct (findall _ _); simpl; split; (done || lia).
  - intros p s. rewrite match_at_reach. unfold link_at. split.
    + intros (s' & Hr). apply link_pattern_ctxfree in Hr. cbn [rest] in Hr.
      destruct Hr as [->|(a & -> & Ha)]; eauto 10.
    + intros [(r & ->)|(a & r & -> & Ha)]; exists r; apply link_pattern_ctxfree;
        cbn [rest]; eauto 10.
Qed.

Lemma C7_witness :
  has_link (str "Project A") Demo.project_b
  /\ ~ has_link (str "Project") Demo.project_b.
Proof.
  pose proof (fun N => proj1 (proj2 (C7_backlinks_are_literal_links
                (P := Demo.os) Demo.self N Demo.fs))
                [str "vault"; str "Projects"; str "Project B.md"]
                Demo.project_b ltac:(vm_compute; reflexivity)) as C7.
  split.
  - apply C7. vm_compute. lia.
  - intros Hlink%C7. vm_compute in Hlink. lia.
Defined.

Example get_backlinks_project_a :
  get_backlinks (P := Demo.os) Demo.self (str "Project A") Demo.fs
  = [{| bl_path := str "Projects/Project B.md";
        bl_name := str "Project B";
        link_count := 2 |}].
Proof. vm_compute. reflexivity. Qed.

Example get_backlinks_no_prefix_match :
  get_backlinks (P := Demo.os) Demo.self (str "Project") Demo.fs = [].
Proof. vm_compute. reflexivity. Qed.

(** C8 (as the code has it).  [find_by_tag t] strips every leading [#] of
    [t] and returns, in scan order, one entry for each scanned note in
    which [#] followed by the stripped tag stands as a whole word (a word
    boundary on both sides of the tag).  The result depends on [t] only
    through the stripped tag, so [#project] and [project] give the same
    result. *)
Theorem C8_find_by_tag_whole_word {P : Platform} (self : VaultManager)
    (t : text) (fs : fsys) :
  find_by_tag self t fs
  = map (fun f => {| nr_path := rel_posix self f; nr_name := stem f |})
        (filter (fun f => tag_found (lstrip "#" t) fs f = true)
                (md_files self fs))
  /\ (forall f content_,
        try_read fs f = Some content_ ->
        (tag_found (lstrip "#" t) fs f = true
         <-> has_tag (lstrip "#" t) content_))
  /\ (forall t', lstrip "#" t' = lstrip "#" t ->
                 find_by_tag self t' fs = find_by_tag self t fs)
  /\ find_by_tag self ("#"%char :: t) fs = find_by_tag self t fs.
Proof.
  split; [|split; [|split]].
  - unfold find_by_tag. rewrite <- flat_map_filter_map.
    apply flat_map_ext. intros f. unfold tag_found.
    destruct (try_read fs f) as [content_|]; [|done].
    by destruct (bool_decide _).
  - intros f content_ Hread. unfold tag_found. rewrite Hread.
    rewrite bool_decide_eq_true. apply search_find_tag.
  - intros t' Ht'. unfold find_by_tag. by rewrite Ht'.
  - done.
Qed.

Lemma C8_witness :
  ~ has_tag (str "custom") Demo.project_b
  /\ has_tag (str "customtag") Demo.project_b
  /\ find_by_tag (P := Demo.os) Demo.self (str "#project") Demo.fs
     = find_by_tag (P := Demo.os) Demo.self (str "project") Demo.fs.
Proof.
  pose proof (fun t => proj1 (proj2 (C8_find_by_tag_whole_word
                (P := Demo.os) Demo.self t Demo.fs))
                [str "vault"; str "Projects"; str "Project B.md"]
                Demo.project_b ltac:(vm_compute; reflexivity)) as C8.
  split; [|split].
  - intros Htag. apply (C8 (str "custom")) in Htag. vm_compute in Htag.
    discriminate.
  - apply (C8 (str "customtag")). vm_compute. reflexivity.
  - apply (proj1 (proj2 (proj2 (C8_find_by_tag_whole_word
             (P := Demo.os) Demo.self (str "project") Demo.fs)))).
    reflexivity.
Defined.

(** C8 as stated fails on a query with two leading [#]: stripping one
    leaves [#test], which stands in no note as a whole word after a [#],
    yet [find_by_tag] returns the note that holds [#test]. *)
Lemma C8_counterexample :
  find_by_tag (P := Demo.os) Demo.self (str "##test") Demo.fs
  = [{| nr_path := str "Untagged.md"; nr_name := str "Untagged" |}]
  /\ strip_hash (str "##test") = str "#test"
  /\ forall content_, ~ has_tag (strip_hash (str "##test")) content_.
Proof.
  split; [vm_compute; reflexivity|]. split; [reflexivity|].
  intros content_ (pre & suf & _ & r & _ & Hw & _). discriminate Hw.
Qed.

Example find_by_tag_custom :
  find_by_tag (P := Demo.os) Demo.self (str "custom") Demo.fs = [].
Proof. vm_compute. reflexivity. Qed.

Example find_by_tag_project :
  find_by_tag (P := Demo.os) Demo.self (str "#project") Demo.fs
  = [{| nr_path := str "Daily/2024-01-01.md"; nr_name := str "2024-01-01" |};
     {| nr_path := str "Projects/Project A.md"; nr_name := str "Project A" |}].
Proof. vm_compute. reflexivity. Qed.

(** C6 (what the code does).  [list_tags] scans every readable [.md] file
    for the tokens [#] followed by one or more word characters, and returns one
    entry per distinct tag: its number of occurrences in the vault and the
    paths of the notes of its first three occurrences, in scan order, one
    path per occurrence (so a note with several occurrences is listed
    several times).  The entries are sorted descending by count, and
    entries of equal count keep the order in which the tags were first
    encountered. *)
Theorem C6_list_tags_counts_occurrences {P : Platform} (self : VaultManager)
    (fs : fsys) :
  let idx := tag_index (occurrences self fs) in
  (forall s, findall tag_pattern s = tokens s)
  /\ list_tags self fs ≡ₚ idx
  /\ StronglySorted (fun a b => count b <= count a) (list_tags self fs)
  /\ (forall n, filter (fun e => count e = n) (list_tags self fs)
                = filter (fun e => count e = n) idx).
Proof.
  intros idx. split; [apply findall_tokens|].
  rewrite list_tags_index. fold idx. split; [apply sorted_perm|]. split.
  - eapply StronglySorted_impl; [|apply sorted_sorted]. simpl. lia.
  - intros n.
    transitivity (filter (fun e => (- Z.of_nat (count e))%Z = (- Z.of_nat n)%Z)
                         (sorted (fun e => - Z.of_nat (count e))%Z idx)).
    { apply filter_ext_elem. intros e _. lia. }
    rewrite sorted_stable. apply filter_ext_elem. intros e _. lia.
Qed.

Lemma C6_witness :
  findall tag_pattern Demo.project_a = [str "project"; str "project"; str "active"]
  /\ filter (fun e => count e = 1) (list_tags (P := Demo.os) Demo.self Demo.fs)
     = [{| tag := str "daily"; count := 1;
           examples := [str "Daily/2024-01-01.md"] |};
        {| tag := str "active"; count := 1;
           examples := [str "Projects/Project A.md"] |};
        {| tag := str "customtag"; count := 1;
           examples := [str "Projects/Project B.md"] |};
        {| tag := str "test"; count := 1; examples := [str "Untagged.md"] |}].
Proof.
  destruct (C6_list_tags_counts_occurrences (P := Demo.os) Demo.self Demo.fs)
    as (Htokens & _ & _ & Hstable).
  split.
  - rewrite Htokens. vm_compute. reflexivity.
  - rewrite Hstable. vm_compute. reflexivity.
Defined.

(** C6 fails of the code: the examples are not distinct note paths, and
    the count is not the number of notes that the tool documents
    ("count: Number of notes containing this tag", "up to 3 example note
    paths").  In the demonstration vault the tag [project] occurs once in
    the daily note and twice in Project A: two notes hold it, its count is
    3, and Project A is listed twice among its examples. *)
Lemma C6_counterexample :
  exists e,
    head (list_tags (P := Demo.os) Demo.self Demo.fs) = Some e
    /\ tag e = str "project" /\ count e = 3
    /\ length (find_by_tag (P := Demo.os) Demo.self (str "project") Demo.fs) = 2
    /\ examples e = [str "Daily/2024-01-01.md"; str "Projects/Project A.md";
                      str "Projects/Project A.md"]
    /\ ~ NoDup (examples e)
    /\ list_tags (P := Demo.os) Demo.self Demo.fs
       <> sorted (fun e => - Z.of_nat (count e))%Z
                 (tag_index_distinct (occurrences (P := Demo.os) Demo.self Demo.fs)).
Proof.
  eexists. split; [vm_compute; reflexivity|]. cbn [tag count examples].
  split; [reflexivity|]. split; [reflexivity|].
  split; [vm_compute; reflexivity|]. split; [reflexivity|]. split.
  - intros Hnd. apply NoDup_cons in Hnd as [_ Hnd].
    apply NoDup_cons in Hnd as [Hnot _]. apply Hnot. left.
  - intros Heq. apply (f_equal (fun l => examples <$> head l)) in Heq.
    vm_compute in Heq. discriminate Heq.
Qed.

Example list_tags_demo :
  list_tags (P := Demo.os) Demo.self Demo.fs
  = [{| tag := str "project"; count := 3;
        examples := [str "Daily/2024-01-01.md"; str "Projects/Project A.md";
                     str "Projects/Project A.md"] |};
     {| tag := str "daily"; count := 1; examples := [str "Daily/2024-01-01.md"] |};
     {| tag := str "active"; count := 1; examples := [str "Projects/Project A.md"] |};
     {| tag := str "customtag"; count := 1;
        examples := [str "Projects/Project B.md"] |};
     {| tag := str "test"; count := 1; examples := [str "Untagged.md"] |}].
Proof. vm_compute. reflexivity. Qed.

Example tokens_demo :
  tokens (str "# Title #a_1-b ##c #") = [str "a_1"; str "c"].
Proof. vm_compute. reflexivity. Qed.

(** * Further properties of the code *)

(** ** The shape of a parsed note *)

Section HeaderShape.

Lemma head_flat_map_Some {A B} (f : A -> list B) l y :
  head (flat_map f l) = Some y -> exists x, x ∈ l /\ head (f x) = Some y.
Proof.
  induction l as [|x l IH]; [done|]. cbn [flat_map].
  destruct (f x) as [|z zs] eqn:Hfx.
  - intros (x' & Hx' & Hy)%IH. exists x'. split; [by right|done].
  - intros Hy. exists x. split; [left|]. by rewrite Hfx.
Qed.

Lemma last_at_le c s n j : last_at c s n = Some j -> j <= n.
Proof.
  induction n as [|n IH]; simpl.
  - destruct (decide (s !! 0 = Some c)); [by intros [= <-]|done].
  - destruct (decide (s !! S n = Some c)); [by intros [= <-]|].
    intros Hj%IH. lia.
Qed.

Lemma last_at_max c s n j i :
  last_at c s n = Some j -> j < i <= n -> s !! i <> Some c.
Proof.
  induction n as [|n IH]; simpl.
  - destruct (decide (s !! 0 = Some c)); [intros [= <-]; lia|done].
  - destruct (decide (s !! S n = Some c)) as [|Hne]; [intros [= <-]; lia|].
    intros Hj Hi. destruct (decide (i = S n)) as [->|]; [done|].
    apply IH; [done|lia].
Qed.

Lemma span_stop cs s x : s !! span cs s = Some x -> mem cs x = false.
Proof.
  induction s as [|y s IH]; [done|]. simpl.
  destruct (mem cs y) eqn:Hy; [exact IH|]. by intros [= <-].
Qed.

Lemma span_drop cs s k : k <= span cs s -> span cs (drop k s) = span cs s - k.
Proof.
  revert k. induction s as [|y s IH]; intros k Hk.
  - by rewrite drop_nil.
  - destruct k as [|k]; [simpl; lia|]. simpl in *.
    destruct (mem cs y); [|lia]. simpl. apply IH. lia.
Qed.

(** What [skip_blank] returns has no blank line left at its start. *)
Lemma skip_blank_idem s : skip_blank (skip_blank s) = skip_blank s.
Proof.
  unfold skip_blank at 2 3.
  destruct (last_at nl s (span CSpace s)) as [j|] eqn:Hj; [|by apply skip_blank_id].
  apply skip_blank_id.
  destruct (last_at nl (drop (S j) s) _) as [i|] eqn:Hi; [exfalso|done].
  pose proof (last_at_Some _ _ _ _ Hj) as Hsj.
  pose proof (last_at_le _ _ _ _ Hj) as Hjle.
  assert (j <> span CSpace s) as Hjne.
  { intros ->. by apply span_stop in Hsj. }
  pose proof (last_at_Some _ _ _ _ Hi) as Hsi.
  pose proof (last_at_le _ _ _ _ Hi) as Hile.
  assert (i <> span CSpace (drop (S j) s)) as Hine.
  { intros ->. by apply span_stop in Hsi. }
  rewrite span_drop in Hile, Hine by lia.
  rewrite lookup_drop in Hsi.
  by apply (last_at_max _ _ _ _ (S j + i) Hj); [lia|].
Qed.

(** A successful match of the header pattern: the opening line, group 1,
    the closing [---], and a match end after the last newline of the
    whitespace that follows it. *)
Lemma match_header t m :
  match_ FRONTMATTER_PATTERN t = Some m ->
  exists ws1 hdr Z,
    t = str "---" ++ ws1 ++ nl :: hdr ++ nl :: str "---" ++ Z
    /\ all_in CSpace ws1
    /\ grp m = Some hdr
    /\ rest m = skip_blank Z
    /\ is_Some (last_at nl Z (span CSpace Z)).
Proof.
  unfold match_, FRONTMATTER_PATTERN. cbn [cat].
  rewrite run_bos_cat, run_lit_cat. cbn [rest].
  destruct (starts_with (str "---") t) eqn:H3; [|done].
  apply starts_with_true in H3.
  set (st1 := adv (length (str "---")) (MState None t None)).
  rewrite run_star_cat.
  intros (k1 & Hk1%elem_of_downto & Hh)%head_flat_map_Some.
  rewrite run_cat, run_chr_adv in Hh.
  destruct (decide (rest st1 !! k1 = Some nl)) as [Hnl|]; [|done].
  cbn [flat_map] in Hh. rewrite app_nil_r, run_group_lazy_cat in Hh.
  apply head_flat_map_Some in Hh as (k & Hk & Hh).
  apply list_elem_of_In, in_seq in Hk.
  rewrite run_chr_lit_cat in Hh. cbn [rest] in Hh.
  set (t2 := rest (adv (S k1) st1)) in *.
  destruct (starts_with (nl :: str "---") (drop k t2)) eqn:H4; [|done].
  apply starts_with_true in H4.
  rewrite head_star_chr in Hh. rewrite rest_adv in Hh. cbn [rest] in Hh.
  set (Z := drop (S (length (str "---"))) (drop k t2)) in *.
  destruct (last_at nl Z (span CSpace Z)) as [j|] eqn:Hj; [|done].
  injection Hh as <-.
  assert (Ht1 : rest st1 = drop 3 t) by done.
  assert (Ht2 : t2 = drop (S k1) (drop 3 t)).
  { unfold t2. by rewrite rest_adv, Ht1. }
  exists (take k1 (drop 3 t)), (take k t2), Z.
  split; [|split; [|split; [|split]]].
  - rewrite H3 at 1. f_equal. change (length (str "---")) with 3.
    rewrite <- (take_drop_middle (drop 3 t) k1 nl) at 1 by (by rewrite <- Ht1).
    f_equal. f_equal. rewrite <- Ht2.
    rewrite <- (take_drop k t2) at 1. f_equal. exact H4.
  - apply span_take. by rewrite <- Ht1.
  - cbn [grp adv]. unfold consumed. cbn [rest]. rewrite !rest_adv.
    rewrite <- (rest_adv (S k1) st1). fold t2.
    rewrite length_drop. f_equal. f_equal. lia.
  - rewrite rest_adv. cbn [rest]. unfold skip_blank. by rewrite Hj.
  - by rewrite Hj.
Qed.

End HeaderShape.

Section ParsedNotes.
Context {Y : Yaml}.

Lemma parse_found (t : text) (r : FrontmatterResult) :
  parse t = inr r -> has_frontmatter r = true ->
  exists ws1 hdr Z v,
    t = str "---" ++ ws1 ++ nl :: hdr ++ nl :: str "---" ++ Z
    /\ all_in CSpace ws1
    /\ is_Some (last_at nl Z (span CSpace Z))
    /\ yaml_safe_load hdr = inr v
    /\ frontmatter r = (if truthy v then v else YMap [])
    /\ content r = skip_blank Z.
Proof.
  unfold parse. destruct (match_ FRONTMATTER_PATTERN t) as [m|] eqn:Hm;
    [|by intros [= <-]].
  destruct (match_header _ _ Hm) as (ws1 & hdr & Z & Ht & Hws & Hg & Hr & Hj).
  rewrite Hg. change (default [] (Some hdr)) with hdr.
  destruct (yaml_safe_load hdr) as [d|v] eqn:Hload; [done|].
  intros [= <-] _. cbn [frontmatter content]. by exists ws1, hdr, Z, v.
Qed.

(** The body of a note parsed with a header never starts with a blank
    line. *)
Lemma parse_body_fixed (t : text) (r : FrontmatterResult) :
  parse t = inr r -> has_frontmatter r = true ->
  skip_blank (content r) = content r.
Proof.
  intros Hparse Hhas.
  destruct (parse_found _ _ Hparse Hhas) as (_ & _ & Z & _ & _ & _ & _ & _ & _ & ->).
  apply skip_blank_idem.
Qed.

(** The body of a parsed text is a part of the text. *)
Lemma parse_body_part (t : text) (r : FrontmatterResult) (c : ascii) :
  parse t = inr r -> c ∉ t -> c ∉ content r.
Proof.
  intros Hparse Hc. destruct (has_frontmatter r) eqn:Hhas.
  - destruct (parse_found _ _ Hparse Hhas)
      as (ws1 & hdr & Z & v & -> & _ & _ & _ & _ & ->).
    assert (HZ : c ∉ Z).
    { intros HZ. apply Hc.
      repeat (rewrite elem_of_app || rewrite elem_of_cons). auto 10. }
    unfold skip_blank. destruct (last_at nl Z (span CSpace Z)) as [j|]; [|done].
    intros Hin. apply HZ. rewrite <- (take_drop (S j) Z), elem_of_app. by right.
  - unfold parse in Hparse.
    destruct (match_ FRONTMATTER_PATTERN t) as [m|].
    + destruct (yaml_safe_load _); [done|]. injection Hparse as <-. done.
    + by injection Hparse as <-.
Qed.

Lemma dict_set_same k v (d : dict) : dict_get k d = Some v -> dict_set k v d = d.
Proof.
  induction d as [|[k' v'] d IH]; [done|]. simpl.
  destruct (decide (k' = k)) as [->|Hne].
  - by intros [= ->].
  - intros Hget. by rewrite IH.
Qed.

Lemma dict_merge_fixed (M N : dict) :
  (forall k v, (k, v) ∈ N -> dict_get k M = Some v) -> dict_merge M N = M.
Proof.
  induction N as [|[k v] N IH]; intros HN; [done|].
  rewrite dict_merge_cons, dict_set_same by (apply HN; left).
  apply IH. intros k' v' Hin. apply HN. by right.
Qed.

Lemma dict_get_elem k v (N : dict) :
  NoDup (keys N) -> (k, v) ∈ N -> dict_get k N = Some v.
Proof.
  induction N as [|[k' v'] N IH]; intros Hnd Hin; [by apply elem_of_nil in Hin|].
  simpl in *. apply NoDup_cons in Hnd as [Hk' Hnd].
  apply elem_of_cons in Hin as [[= -> ->]|Hin].
  - by rewrite decide_True.
  - rewrite decide_False; [by apply IH|].
    intros ->. apply Hk'. apply list_elem_of_fmap. by exists (k, v).
Qed.

Lemma dict_merge_idem (E N : dict) :
  NoDup (keys N) -> dict_merge (dict_merge E N) N = dict_merge E N.
Proof.
  intros Hnd. apply dict_merge_fixed. intros k v Hin.
  rewrite dict_get_merge by done. by rewrite (dict_get_elem k v N).
Qed.

End ParsedNotes.

(** X1.  A header found by [parse]: the text is the opening line, the
    header, the closing line and the body; the metadata is what the YAML
    library loads from the header (an empty mapping when that is empty or
    null); and the body returned never starts with a blank line, the blank
    lines after the closing line being dropped with it. *)
Theorem parse_header_shape {Y : Yaml} (t : text) (r : FrontmatterResult) :
  parse t = inr r ->
  has_frontmatter r = true ->
  (exists hdr v,
     header_block_with t hdr (content r)
     /\ yaml_safe_load hdr = inr v
     /\ frontmatter r = (if truthy v then v else YMap []))
  /\ skip_blank (content r) = content r.
Proof.
  intros Hparse Hhas. split; [|by eapply parse_body_fixed].
  destruct (parse_found _ _ Hparse Hhas)
    as (ws1 & hdr & Z & v & -> & Hws & [j Hj] & Hload & Hfm & Hc).
  exists hdr, v. split; [|done].
  exists ws1, (take j Z). split; [|split; [done|]].
  - rewrite Hc. unfold skip_blank. rewrite Hj.
    rewrite <- (take_drop_middle Z j nl) at 1 by (by eapply last_at_Some).
    done.
  - apply span_take. by eapply last_at_le.
Qed.

Lemma parse_header_shape_witness :
  (exists hdr v,
     header_block_with Demo.readme hdr (Demo.lines ["# Welcome to My Vault"; ""])
     /\ yaml_safe_load (Yaml := plain_yaml) hdr = inr v
     /\ YMap [(str "title", YStr (str "Welcome"))]
        = (if truthy v then v else YMap []))
  /\ skip_blank (Demo.lines ["# Welcome to My Vault"; ""])
     = Demo.lines ["# Welcome to My Vault"; ""].
Proof.
  apply (parse_header_shape (Y := plain_yaml) Demo.readme
           {| frontmatter := YMap [(str "title", YStr (str "Welcome"))];
              content := Demo.lines ["# Welcome to My Vault"; ""];
              has_frontmatter := true |}).
  - vm_compute. reflexivity.
  - reflexivity.
Defined.

(** X2.  A parsed note with metadata is a fixed point of the codec:
    serialising the metadata and the body that [parse] returned, and parsing
    again, gives the same result, the body included. *)
Theorem parse_dump_parse {Y : Yaml} (t y : text) (r : FrontmatterResult) :
  parse t = inr r ->
  truthy (frontmatter r) = true ->
  writes_block (frontmatter r) y ->
  yaml_safe_load y = inr (frontmatter r) ->
  parse (dump (frontmatter r) (content r)) = inr r.
Proof.
  intros Hparse Htrue Hblock Hload.
  pose proof (parse_truthy _ _ Hparse Htrue) as Hhas.
  rewrite (parse_dump _ y) by done.
  rewrite (parse_body_fixed _ _ Hparse Hhas). destruct r. simpl in *. by subst.
Qed.

Lemma parse_dump_parse_witness :
  parse (Y := plain_yaml)
    (dump (Y := plain_yaml) (YMap [(str "title", YStr (str "Welcome"))])
       (Demo.lines ["# Welcome to My Vault"; ""]))
  = inr {| frontmatter := YMap [(str "title", YStr (str "Welcome"))];
           content := Demo.lines ["# Welcome to My Vault"; ""];
           has_frontmatter := true |}.
Proof.
  apply (parse_dump_parse (Y := plain_yaml) Demo.readme (str "title: Welcome")
           {| frontmatter := YMap [(str "title", YStr (str "Welcome"))];
              content := Demo.lines ["# Welcome to My Vault"; ""];
              has_frontmatter := true |}).
  - vm_compute. reflexivity.
  - reflexivity.
  - split; [reflexivity|]. split; [|reflexivity]. eexists _, _. split; reflexivity.
  - reflexivity.
Defined.

(** X3.  Updating twice with the same fields is updating once: the text that
    [update] returns is left as it is by a second [update] with the same
    fields, when the note had a header or its text does not start with a
    blank line. *)
Theorem update_idempotent {Y : Yaml} (t y : text) (N E : dict)
    (r : FrontmatterResult) :
  NoDup (keys N) ->
  parse t = inr r ->
  frontmatter r = YMap E ->
  dict_merge E N <> [] ->
  writes_block (YMap (dict_merge E N)) y ->
  yaml_safe_load y = inr (YMap (dict_merge E N)) ->
  (has_frontmatter r = false -> skip_blank t = t) ->
  exists t1, update t N = inr t1 /\ update t1 N = inr t1.
Proof.
  intros Hnd Hparse HE Hne Hblock Hload Hbody.
  exists (dump (YMap (dict_merge E N)) (content r)). split.
  { unfold update. by rewrite Hparse, HE. }
  assert (Htrue : truthy (YMap (dict_merge E N)) = true).
  { simpl. by destruct (dict_merge E N). }
  assert (Hfix : skip_blank (content r) = content r).
  { destruct (has_frontmatter r) eqn:Hhas; [by eapply parse_body_fixed|].
    destruct (parse_no_header _ _ Hparse Hhas) as [_ ->]. by apply Hbody. }
  unfold update. rewrite (parse_dump _ y) by done. cbn [frontmatter content].
  by rewrite dict_merge_idem, Hfix.
Qed.

Lemma update_idempotent_witness :
  exists t1,
    update (Y := plain_yaml) Demo.readme [(str "author", YStr (str "Test"))]
    = inr t1
    /\ update (Y := plain_yaml) t1 [(str "author", YStr (str "Test"))] = inr t1.
Proof.
  apply (update_idempotent (Y := plain_yaml) Demo.readme
           (Demo.lines ["title: Welcome"; "author: Test"])
           [(str "author", YStr (str "Test"))]
           [(str "title", YStr (str "Welcome"))]
           {| frontmatter := YMap [(str "title", YStr (str "Welcome"))];
              content := Demo.lines ["# Welcome to My Vault"; ""];
              has_frontmatter := true |}).
  - apply NoDup_singleton.
  - vm_compute. reflexivity.
  - reflexivity.
  - discriminate.
  - split; [reflexivity|]. split; [|reflexivity]. eexists _, _. split; reflexivity.
  - reflexivity.
  - discriminate.
Defined.

(** ** Creating, reading and rewriting notes *)

Section NoteOperations.
Context {Y : Yaml} {P : Platform}.

Lemma mkdir_rev_exists rp fs :
  fs !! rev rp = Some Dir -> mkdir_rev rp fs = (fs, inr ()).
Proof.
  intros Hdir. destruct rp; cbn [mkdir_rev]; unfold os_mkdir; by rewrite !Hdir.
Qed.

(** What [mkdir(parents=True, exist_ok=True)] changes: it only adds
    directories, at ancestors of [p] or [p] itself that did not exist. *)
Lemma mkdir_rev_grow rp fs fs' :
  mkdir_rev rp fs = (fs', inr ()) ->
  forall q, fs' !! q = fs !! q
            \/ (fs !! q = None /\ fs' !! q = Some Dir /\ q `prefix_of` rev rp).
Proof.
  revert fs fs'. induction rp as [|c rp IH]; intros fs fs'; cbn [mkdir_rev].
  - destruct (os_mkdir (rev []) fs) as [fs1 [e|[]]] eqn:Hmk.
    + destruct e; try (intros Hr%exist_ok_inv; left; by apply Hr). done.
    + apply os_mkdir_inv in Hmk as (Hnone & _ & ->). intros [= <-] q.
      destruct (decide (q = rev [])) as [->|Hne].
      * right. by rewrite lookup_insert_eq.
      * left. by rewrite lookup_insert_ne.
  - destruct (os_mkdir (rev (c :: rp)) fs) as [fs1 [e|[]]] eqn:Hmk.
    + destruct e; try (intros Hr%exist_ok_inv; left; by apply Hr).
      apply os_mkdir_not_found in Hmk.
      destruct (mkdir_rev rp fs) as [fs2 [e2|[]]] eqn:Hrec; [done|].
      pose proof (IH _ _ Hrec) as Hgrow.
      apply mkdir_rev_inv in Hrec as [Hdir Hframe].
      assert (Hp2 : fs2 !! rev (c :: rp) = None).
      { rewrite Hframe; [done|]. simpl. apply snoc_not_prefix. }
      unfold mkdir_exist_ok, os_mkdir. rewrite Hp2.
      simpl rev. rewrite parent_snoc, Hdir. intros [= <-] q.
      destruct (decide (q = rev rp ++ [c])) as [->|Hne].
      * right. by rewrite lookup_insert_eq.
      * rewrite lookup_insert_ne by done.
        destruct (Hgrow q) as [Heq|(Hq & Hq' & Hpre)]; [by left|right].
        split; [done|]. split; [done|]. by apply prefix_app_r.
    + apply os_mkdir_inv in Hmk as (Hnone & _ & ->). intros [= <-] q.
      destruct (decide (q = rev (c :: rp))) as [->|Hne].
      * right. by rewrite lookup_insert_eq.
      * left. by rewrite lookup_insert_ne.
Qed.

Lemma mkdir_parents_grow p fs fs' :
  mkdir_parents p fs = (fs', inr ()) ->
  forall q, fs' !! q = fs !! q
            \/ (fs !! q = None /\ fs' !! q = Some Dir /\ q `prefix_of` p).
Proof.
  unfold mkdir_parents. intros Hmk q.
  destruct (mkdir_rev_grow _ _ _ Hmk q) as [?|Hq]; [by left|right].
  by rewrite rev_involutive in Hq.
Qed.

(** Below an existing directory [d], a chain of missing directories is
    made, one by one. *)
Lemma mkdir_parents_makes d l fs :
  fs !! d = Some Dir ->
  (forall l', l' `prefix_of` l -> l' <> [] -> fs !! (d ++ l') = None) ->
  exists fs',
    mkdir_parents (d ++ l) fs = (fs', inr ())
    /\ forall l', l' `prefix_of` l -> fs' !! (d ++ l') = Some Dir.
Proof.
  intros Hd. induction l as [|c l IH] using rev_ind; intros Hnone.
  - exists fs. rewrite app_nil_r. split.
    + apply mkdir_rev_exists. by rewrite rev_involutive.
    + intros l' ->%prefix_nil_inv. by rewrite app_nil_r.
  - destruct IH as (fs2 & Hmk2 & Hdirs).
    { intros l' Hpre Hne. apply Hnone; [|done]. by apply prefix_app_r. }
    assert (Hp : fs !! (d ++ l ++ [c]) = None).
    { apply Hnone; [done|]. by destruct l. }
    pose proof (mkdir_parents_inv _ _ _ _ Hmk2) as [Hdir Hframe].
    assert (Hp2 : fs2 !! (d ++ l ++ [c]) = None).
    { rewrite Hframe; [done|]. rewrite app_assoc. apply snoc_not_prefix. }
    exists (<[d ++ l ++ [c] := Dir]> fs2). split.
    + unfold mkdir_parents. rewrite app_assoc, rev_unit. cbn [mkdir_rev].
      cbn [rev]. rewrite rev_involutive, <- app_assoc.
      unfold os_mkdir at 1. rewrite Hp.
      rewrite app_assoc, parent_snoc, <- app_assoc.
      destruct (fs !! (d ++ l)) as [[|data]|] eqn:Hparent.
      * assert (l = []) as ->.
        { destruct (decide (l = [])) as [|Hne]; [done|].
          rewrite Hnone in Hparent; [done| |done]. by apply prefix_app_r. }
        rewrite app_nil_r in Hmk2. unfold mkdir_parents in Hmk2.
        rewrite mkdir_rev_exists in Hmk2 by (by rewrite rev_involutive, <- (app_nil_r d)).
        by injection Hmk2 as <-.
      * assert (l = []) as ->.
        { destruct (decide (l = [])) as [|Hne]; [done|].
          rewrite Hnone in Hparent; [done| |done]. by apply prefix_app_r. }
        rewrite app_nil_r in Hparent. congruence.
      * unfold mkdir_parents in Hmk2. rewrite Hmk2.
        unfold mkdir_exist_ok, os_mkdir. rewrite Hp2.
        by rewrite app_assoc, parent_snoc, Hdir.
    + intros l' Hpre. destruct (decide (l' = l ++ [c])) as [->|Hne].
      * apply lookup_insert_eq.
      * rewrite lookup_insert_ne by (intros ?%(inj (app d)); done).
        apply Hdirs. destruct Hpre as [k Hk].
        destruct k as [|x k _] using rev_ind.
        { rewrite app_nil_r in Hk. done. }
        rewrite app_assoc in Hk. apply app_inj_tail in Hk as [-> _].
        by apply prefix_app_r.
Qed.

Lemma written_text_eq (fm : option dict) content_ :
  match fm with
  | Some d => if truthy (YMap d) then dump (YMap d) content_ else content_
  | None => content_
  end = written_text fm content_.
Proof.
  destruct fm as [d|]; [|done]. unfold written_text, dump.
  by destruct (truthy (YMap d)).
Qed.

(** The three ways [create_note] can go on a path that resolves. *)
Lemma create_note_inv self p q content_ fm fs fs' r :
  _resolve_path self p = inr q ->
  create_note self p content_ fm fs = (fs', r) ->
  (is_Some (fs !! q) /\ fs' = fs
   /\ r = inl (FileExistsError (str "Note already exists: " ++ p)))
  \/ (fs !! q = None /\ fs' = fs
      /\ exists e, r = inl e /\ mkdir_parents (parent q) fs = (fs, inl e))
  \/ (fs !! q = None /\ r = inr ()
      /\ exists fs1, mkdir_parents (parent q) fs = (fs1, inr ())
                     /\ fs' = <[q := File (Some (universal_newlines
                                                   (written_text fm content_)))]>
                               fs1).
Proof.
  intros Hq Hc. unfold create_note, bind, lift, raise, ret, exists_ in Hc.
  rewrite Hq in Hc. cbn [fst snd] in Hc.
  destruct (fs !! q) as [n|] eqn:Hn.
  - rewrite bool_decide_eq_true_2 in Hc by eauto. injection Hc as <- <-.
    left. eauto.
  - rewrite bool_decide_eq_false_2 in Hc by (intros [? ?]; congruence). right.
    destruct (mkdir_parents (parent q) fs) as [fs1 [e|[]]] eqn:Hmk.
    + pose proof (mkdir_parents_inv _ _ _ _ Hmk) as Heq. simpl in Heq. subst fs1.
      injection Hc as <- <-. left. eauto.
    + rewrite written_text_eq, (write_after_mkdir q _ fs fs1) in Hc by done.
      injection Hc as <- <-. right. eauto.
Qed.

Lemma read_note_stored self p q s fs :
  _resolve_path self p = inr q ->
  fs !! q = Some (File (Some s)) ->
  read_note self p fs = (fs, inr s).
Proof.
  intros Hq Hn. unfold read_note, bind, lift, raise, ret, exists_. rewrite Hq. cbn.
  rewrite bool_decide_eq_true_2 by eauto. cbn. unfold read_text. by rewrite Hn.
Qed.

Lemma read_frontmatter_stored self p q s r fs :
  _resolve_path self p = inr q ->
  fs !! q = Some (File (Some s)) ->
  parse s = inr r ->
  read_frontmatter self p fs = (fs, inr (frontmatter r)).
Proof.
  intros Hq Hn Hparse.
  unfold read_frontmatter, bind, lift, raise, ret, exists_. rewrite Hq. cbn.
  rewrite bool_decide_eq_true_2 by eauto. cbn. unfold read_text.
  by rewrite Hn, Hparse.
Qed.

End NoteOperations.

Section NoteOutcomes.
Context {Y : Yaml} {P : Platform}.

Lemma create_note_created self p q content_ fm fs fs1 :
  _resolve_path self p = inr q ->
  fs !! q = None ->
  mkdir_parents (parent q) fs = (fs1, inr ()) ->
  create_note self p content_ fm fs
  = (<[q := File (Some (universal_newlines (written_text fm content_)))]> fs1,
     inr ()).
Proof.
  intros Hq Hn Hmk. unfold create_note, bind, lift, raise, ret, exists_.
  rewrite Hq. cbn [fst snd].
  rewrite bool_decide_eq_false_2 by (intros [? ?]; congruence). cbn [negb].
  by rewrite Hmk, written_text_eq, (write_after_mkdir q _ fs fs1).
Qed.

Lemma create_note_in_dir self p q content_ fm fs :
  _resolve_path self p = inr q ->
  fs !! q = None ->
  fs !! parent q = Some Dir ->
  create_note self p content_ fm fs
  = (<[q := File (Some (universal_newlines (written_text fm content_)))]> fs,
     inr ()).
Proof.
  intros Hq Hn Hdir. apply create_note_created; [done|done|].
  apply mkdir_rev_exists. by rewrite rev_involutive.
Qed.

End NoteOutcomes.

(** X4.  A successful [create_note] only adds to the file system: the note
    did not exist before and now holds the text written, as [read_text]
    reads it back; every entry that existed is as it was; and whatever else
    is new is a directory on the way to the note. *)
Theorem create_note_only_adds {Y : Yaml} {P : Platform} (self : VaultManager)
    (p : text) (q : path) (content_ : text) (fm : option dict) (fs fs' : fsys) :
  _resolve_path self p = inr q ->
  create_note self p content_ fm fs = (fs', inr ()) ->
  fs !! q = None
  /\ fs' !! q = Some (File (Some (universal_newlines (written_text fm content_))))
  /\ (forall q' n, fs !! q' = Some n -> fs' !! q' = Some n)
  /\ (forall q', q' <> q -> fs !! q' = None ->
        fs' !! q' = None \/ (fs' !! q' = Some Dir /\ q' `prefix_of` parent q)).
Proof.
  intros Hq Hc.
  destruct (create_note_inv _ _ _ _ _ _ _ _ Hq Hc)
    as [(_ & _ & [=])|[(_ & _ & e & [=] & _)|(Hn & _ & fs1 & Hmk & ->)]].
  pose proof (mkdir_parents_grow _ _ _ Hmk) as Hgrow.
  split; [done|]. split; [apply lookup_insert_eq|]. split.
  - intros q' n Hq'. rewrite lookup_insert_ne by congruence.
    destruct (Hgrow q') as [->|(Hnone & _)]; congruence.
  - intros q' Hne Hq'. rewrite lookup_insert_ne by done.
    destruct (Hgrow q') as [->|(_ & Hdir & Hpre)]; [by left|by right].
Qed.

Lemma create_note_only_adds_witness :
  let q := [str "vault"; str "Daily"; str "2024-01-02.md"] in
  let fs' := <[q := File (Some (str "Second day"))]> Demo.fs in
  Demo.fs !! q = None
  /\ fs' !! q = Some (File (Some (str "Second day")))
  /\ (forall q' n, Demo.fs !! q' = Some n -> fs' !! q' = Some n)
  /\ (forall q', q' <> q -> Demo.fs !! q' = None ->
        fs' !! q' = None \/ (fs' !! q' = Some Dir /\ q' `prefix_of` parent q)).
Proof.
  intros q fs'.
  apply (create_note_only_adds (Y := plain_yaml) (P := Demo.os) Demo.self
           (str "Daily/2024-01-02.md") q (str "Second day") None Demo.fs fs').
  - vm_compute. reflexivity.
  - apply (create_note_in_dir (Y := plain_yaml) (P := Demo.os) Demo.self
             (str "Daily/2024-01-02.md") q (str "Second day") None Demo.fs);
      vm_compute; reflexivity.
Defined.

(** X5.  [create_note] makes the directories that are missing: when the note
    does not exist and, below some existing directory, no component of the
    way to it exists yet, it succeeds, every directory on the way exists
    afterwards, and the note holds the text written, as [read_text] reads
    it back. *)
Theorem create_note_makes_parents {Y : Yaml} {P : Platform}
    (self : VaultManager) (p : text) (q d l : path) (content_ : text)
    (fm : option dict) (fs : fsys) :
  _resolve_path self p = inr q ->
  fs !! q = None ->
  parent q = d ++ l ->
  fs !! d = Some Dir ->
  (forall l', l' `prefix_of` l -> l' <> [] -> fs !! (d ++ l') = None) ->
  exists fs',
    create_note self p content_ fm fs = (fs', inr ())
    /\ (forall l', l' `prefix_of` l -> fs' !! (d ++ l') = Some Dir)
    /\ fs' !! q = Some (File (Some (universal_newlines
                                      (written_text fm content_)))).
Proof.
  intros Hq Hn Hparent Hd Hnone.
  destruct (mkdir_parents_makes d l fs Hd Hnone) as (fs1 & Hmk & Hdirs).
  rewrite <- Hparent in Hmk.
  eexists. split; [by apply create_note_created|].
  split; [|apply lookup_insert_eq].
  intros l' Hpre. rewrite lookup_insert_ne; [by apply Hdirs|].
  intros Heq.
  destruct (exists_last_or_nil q) as [->|(l0 & c & ->)].
  - simpl in Hparent. symmetry in Hparent.
    apply app_eq_nil in Hparent as [-> ->]. congruence.
  - rewrite parent_snoc in Hparent. subst l0.
    destruct Hpre as [k ->]. apply (f_equal length) in Heq.
    rewrite !length_app in Heq. simpl in Heq. lia.
Qed.

Lemma create_note_makes_parents_witness :
  exists fs',
    create_note (Y := plain_yaml) (P := Demo.os) Demo.self
      (str "Archive/2023/Old.md") (str "Old") None Demo.fs = (fs', inr ())
    /\ (forall l', l' `prefix_of` [str "Archive"; str "2023"] ->
          fs' !! ([str "vault"] ++ l') = Some Dir)
    /\ fs' !! [str "vault"; str "Archive"; str "2023"; str "Old.md"]
       = Some (File (Some (str "Old"))).
Proof.
  apply (create_note_makes_parents (Y := plain_yaml) (P := Demo.os) Demo.self
           (str "Archive/2023/Old.md")
           [str "vault"; str "Archive"; str "2023"; str "Old.md"]
           [str "vault"] [str "Archive"; str "2023"] (str "Old") None Demo.fs).
  - vm_compute. reflexivity.
  - vm_compute. reflexivity.
  - reflexivity.
  - vm_compute. reflexivity.
  - intros l' [k Hk] Hne.
    destruct l' as [|a [|b [|c l']]]; [done| | |discriminate Hk];
      simplify_eq/=; vm_compute; reflexivity.
Defined.

(** X6.  What was created is there: after a successful [create_note],
    [read_note] on the same path returns the text written with its
    newlines as they are read back - the text written itself when it holds
    no carriage return - and a second [create_note] on it raises
    [NoteAlreadyExistsError] whatever its arguments, changing nothing. *)
Theorem create_then_read {Y : Yaml} {P : Platform} (self : VaultManager)
    (p : text) (q : path) (content_ : text) (fm : option dict) (fs fs' : fsys) :
  _resolve_path self p = inr q ->
  create_note self p content_ fm fs = (fs', inr ()) ->
  read_note self p fs'
  = (fs', inr (universal_newlines (written_text fm content_)))
  /\ (cr ∉ written_text fm content_ ->
      read_note self p fs' = (fs', inr (written_text fm content_)))
  /\ forall content2 fm2,
       exists e, NoteAlreadyExistsError e
                 /\ create_note self p content2 fm2 fs' = (fs', inl e).
Proof.
  intros Hq Hc.
  destruct (create_note_inv _ _ _ _ _ _ _ _ Hq Hc)
    as [(_ & _ & [=])|[(_ & _ & e & [=] & _)|(Hn & _ & fs1 & Hmk & ->)]].
  assert (Hread : read_note self p
            (<[q := File (Some (universal_newlines (written_text fm content_)))]>
               fs1)
          = (<[q := File (Some (universal_newlines (written_text fm content_)))]>
               fs1,
             inr (universal_newlines (written_text fm content_)))).
  { eapply read_note_stored; [done|]. apply lookup_insert_eq. }
  split; [done|]. split.
  - intros Hcr. rewrite Hread. by rewrite universal_newlines_id.
  - intros content2 fm2. eexists. split; [by eexists|].
    eapply create_note_existing; [done|]. apply lookup_insert_eq.
Qed.

Lemma create_then_read_witness :
  let q := [str "vault"; str "Daily"; str "2024-01-02.md"] in
  let fs' := <[q := File (Some (str "Second day"))]> Demo.fs in
  read_note (P := Demo.os) Demo.self (str "Daily/2024-01-02.md") fs'
  = (fs', inr (str "Second day"))
  /\ (cr ∉ str "Second day" ->
      read_note (P := Demo.os) Demo.self (str "Daily/2024-01-02.md") fs'
      = (fs', inr (str "Second day")))
  /\ forall content2 fm2,
       exists e, NoteAlreadyExistsError e
                 /\ create_note (Y := plain_yaml) (P := Demo.os) Demo.self
                      (str "Daily/2024-01-02.md") content2 fm2 fs' = (fs', inl e).
Proof.
  intros q fs'.
  apply (create_then_read (Y := plain_yaml) (P := Demo.os) Demo.self
           (str "Daily/2024-01-02.md") q (str "Second day") None Demo.fs fs').
  - vm_compute. reflexivity.
  - apply (create_note_in_dir (Y := plain_yaml) (P := Demo.os) Demo.self
             (str "Daily/2024-01-02.md") q (str "Second day") None Demo.fs);
      vm_compute; reflexivity.
Defined.

(** X7.  Metadata given to [create_note] is read back by [read_frontmatter]:
    for a non-empty mapping that the YAML library writes as a block without
    carriage return and reads back, the note created holds that mapping as
    its metadata, and its body is the body given as it is read back, less
    its leading blank lines. *)
Theorem create_then_read_frontmatter {Y : Yaml} {P : Platform}
    (self : VaultManager) (p : text) (q : path) (content_ y : text) (d : dict)
    (fs fs' : fsys) :
  _resolve_path self p = inr q ->
  create_note self p content_ (Some d) fs = (fs', inr ()) ->
  d <> [] ->
  writes_block (YMap d) y ->
  cr ∉ y ->
  yaml_safe_load y = inr (YMap d) ->
  read_frontmatter self p fs' = (fs', inr (YMap d))
  /\ exists text_,
       read_note self p fs' = (fs', inr text_)
       /\ parse text_ = inr {| frontmatter := YMap d;
                               content := skip_blank (universal_newlines content_);
                               has_frontmatter := true |}.
Proof.
  intros Hq Hc Hd Hblock Hcr Hload.
  destruct (create_note_inv _ _ _ _ _ _ _ _ Hq Hc)
    as [(_ & _ & [=])|[(_ & _ & e & [=] & _)|(Hn & _ & fs1 & Hmk & ->)]].
  assert (Hparse : parse (universal_newlines (written_text (Some d) content_))
                   = inr {| frontmatter := YMap d;
                            content := skip_blank (universal_newlines content_);
                            has_frontmatter := true |}).
  { unfold written_text.
    rewrite (universal_newlines_dump _ y) by (done || apply Hblock).
    apply (parse_dump _ y); [by destruct d|done|done]. }
  split.
  - apply (read_frontmatter_stored _ _ _ _ _ _ Hq (lookup_insert_eq _ _ _) Hparse).
  - eexists. split; [|exact Hparse].
    eapply read_note_stored; [done|]. apply lookup_insert_eq.
Qed.

Lemma create_then_read_frontmatter_witness :
  let q := [str "vault"; str "Daily"; str "2024-01-02.md"] in
  let d := [(str "title", YStr (str "Second"))] in
  let fs' := <[q := File (Some (universal_newlines
                                   (written_text (H := plain_yaml) (Some d)
                                      (cr :: nl :: str "Second" ++ cr :: str "day"))))]>
               Demo.fs in
  read_frontmatter (Y := plain_yaml) (P := Demo.os) Demo.self
    (str "Daily/2024-01-02.md") fs' = (fs', inr (YMap d))
  /\ exists text_,
       read_note (P := Demo.os) Demo.self (str "Daily/2024-01-02.md") fs'
       = (fs', inr text_)
       /\ parse (Y := plain_yaml) text_
          = inr {| frontmatter := YMap d;
                   content := str "Second" ++ nl :: str "day";
                   has_frontmatter := true |}.
Proof.
  intros q d fs'.
  apply (create_then_read_frontmatter (Y := plain_yaml) (P := Demo.os) Demo.self
           (str "Daily/2024-01-02.md") q
           (cr :: nl :: str "Second" ++ cr :: str "day")
           (str "title: Second") d Demo.fs fs').
  - vm_compute. reflexivity.
  - apply (create_note_in_dir (Y := plain_yaml) (P := Demo.os) Demo.self
             (str "Daily/2024-01-02.md") q
             (cr :: nl :: str "Second" ++ cr :: str "day") (Some d)
             Demo.fs); vm_compute; reflexivity.
  - discriminate.
  - split; [reflexivity|]. split; [|reflexivity]. eexists _, _. split; reflexivity.
  - apply (bool_decide_unpack _). vm_compute. reflexivity.
  - reflexivity.
Defined.

(** X8.  The fields given to [update_frontmatter] are read back: on a
    note as [read_text] returns it, so without carriage return, whose
    metadata is a mapping, when the YAML library writes the merged mapping
    as a block without carriage return and reads it back, the update
    succeeds, [read_frontmatter] then returns the merged mapping, no other
    entry of the file system changes, and the body of the note is the old
    body less its leading blank lines - the old body itself when the note
    had a header. *)
Theorem update_then_read_frontmatter {Y : Yaml} {P : Platform}
    (self : VaultManager) (p : text) (q : path) (old y : text) (N E : dict)
    (r : FrontmatterResult) (fs : fsys) :
  _resolve_path self p = inr q ->
  fs !! q = Some (File (Some old)) ->
  cr ∉ old ->
  parse old = inr r ->
  frontmatter r = YMap E ->
  dict_merge E N <> [] ->
  writes_block (YMap (dict_merge E N)) y ->
  cr ∉ y ->
  yaml_safe_load y = inr (YMap (dict_merge E N)) ->
  exists fs' new,
    update_frontmatter self p N fs = (fs', inr ())
    /\ read_frontmatter self p fs' = (fs', inr (YMap (dict_merge E N)))
    /\ (forall q', q' <> q -> fs' !! q' = fs !! q')
    /\ fs' !! q = Some (File (Some new))
    /\ parse new = inr {| frontmatter := YMap (dict_merge E N);
                          content := skip_blank (content r);
                          has_frontmatter := true |}
    /\ (has_frontmatter r = true -> skip_blank (content r) = content r).
Proof.
  intros Hq Hold Hcrold Hparse HE Hne Hblock Hcr Hload.
  set (new := dump (YMap (dict_merge E N)) (content r)).
  assert (Hupd : update old N = inr new).
  { unfold update. by rewrite Hparse, HE. }
  assert (Hread : universal_newlines new = new).
  { unfold new. rewrite (universal_newlines_dump _ y) by (done || apply Hblock).
    rewrite (universal_newlines_id (content r)); [done|].
    by apply (parse_body_part old). }
  assert (Hnew : parse new = inr {| frontmatter := YMap (dict_merge E N);
                                    content := skip_blank (content r);
                                    has_frontmatter := true |}).
  { apply (parse_dump _ y); [|done|done]. simpl. by destruct (dict_merge E N). }
  exists (<[q := File (Some new)]> fs), new.
  split.
  { rewrite (update_frontmatter_updated _ _ _ _ _ _ _ Hq Hold Hupd).
    by rewrite Hread. }
  split; [|split; [|split; [|split]]].
  - apply (read_frontmatter_stored _ _ _ _ _ _ Hq (lookup_insert_eq _ _ _) Hnew).
  - intros q' Hq'. by apply lookup_insert_ne.
  - apply lookup_insert_eq.
  - exact Hnew.
  - by apply (parse_body_fixed old).
Qed.

Lemma update_then_read_frontmatter_witness :
  let M := [(str "title", YStr (str "Welcome")); (str "author", YStr (str "Test"))] in
  exists fs' new,
    update_frontmatter (Y := plain_yaml) (P := Demo.os) Demo.self
      (str "README.md") [(str "author", YStr (str "Test"))] Demo.fs = (fs', inr ())
    /\ read_frontmatter (Y := plain_yaml) (P := Demo.os) Demo.self
         (str "README.md") fs' = (fs', inr (YMap M))
    /\ (forall q', q' <> [str "vault"; str "README.md"] ->
                   fs' !! q' = Demo.fs !! q')
    /\ fs' !! [str "vault"; str "README.md"] = Some (File (Some new))
    /\ parse (Y := plain_yaml) new
       = inr {| frontmatter := YMap M;
                content := Demo.lines ["# Welcome to My Vault"; ""];
                has_frontmatter := true |}
    /\ (true = true -> skip_blank (Demo.lines ["# Welcome to My Vault"; ""])
                       = Demo.lines ["# Welcome to My Vault"; ""]).
Proof.
  intros M.
  apply (update_then_read_frontmatter (Y := plain_yaml) (P := Demo.os) Demo.self
           (str "README.md") [str "vault"; str "README.md"] Demo.readme
           (Demo.lines ["title: Welcome"; "author: Test"])
           [(str "author", YStr (str "Test"))]
           [(str "title", YStr (str "Welcome"))]
           {| frontmatter := YMap [(str "title", YStr (str "Welcome"))];
              content := Demo.lines ["# Welcome to My Vault"; ""];
              has_frontmatter := true |} Demo.fs).
  - vm_compute. reflexivity.
  - vm_compute. reflexivity.
  - apply (bool_decide_unpack _). vm_compute. reflexivity.
  - vm_compute. reflexivity.
  - reflexivity.
  - discriminate.
  - split; [reflexivity|]. split; [|reflexivity]. eexists _, _. split; reflexivity.
  - apply (bool_decide_unpack _). vm_compute. reflexivity.
  - reflexivity.
Defined.

(** X9.  On a note with metadata that the YAML library writes as a block
    without carriage return and reads back, the last [edit_note] wins:
    editing with one body and then with another leaves the file system that
    editing with the second body alone leaves, the note holding the
    metadata dumped with the second body as it is read back; in particular
    editing twice with the same body is editing once. *)
Theorem edit_note_last_wins {Y : Yaml} {P : Platform} (self : VaultManager)
    (p : text) (q : path) (old y B1 B2 : text) (r : FrontmatterResult)
    (fs : fsys) :
  _resolve_path self p = inr q ->
  fs !! q = Some (File (Some old)) ->
  parse old = inr r ->
  truthy (frontmatter r) = true ->
  writes_block (frontmatter r) y ->
  cr ∉ y ->
  yaml_safe_load y = inr (frontmatter r) ->
  exists fs1 fs2,
    edit_note self p B1 fs = (fs1, inr ())
    /\ edit_note self p B2 fs1 = (fs2, inr ())
    /\ edit_note self p B2 fs = (fs2, inr ())
    /\ fs2 !! q
       = Some (File (Some (dump (frontmatter r) (universal_newlines B2)))).
Proof.
  intros Hq Hold Hparse Htrue Hblock Hcr Hload.
  pose proof (parse_truthy _ _ Hparse Htrue) as Hhas.
  assert (Hread : forall B, universal_newlines (dump (frontmatter r) B)
                            = dump (frontmatter r) (universal_newlines B)).
  { intros B. apply (universal_newlines_dump _ y); [apply Hblock|done]. }
  exists (<[q := File (Some (dump (frontmatter r) (universal_newlines B1)))]> fs),
         (<[q := File (Some (dump (frontmatter r) (universal_newlines B2)))]> fs).
  split; [|split; [|split]].
  - rewrite (edit_note_parsed _ _ _ _ _ _ _ Hq Hold Hparse).
    by rewrite Hhas, Hread.
  - rewrite (edit_note_parsed _ _ _ _ _ _ _ Hq (lookup_insert_eq _ _ _)
               (parse_dump _ y (universal_newlines B1) Htrue Hblock Hload)).
    cbn [has_frontmatter frontmatter]. by rewrite Hread, insert_insert_eq.
  - rewrite (edit_note_parsed _ _ _ _ _ _ _ Hq Hold Hparse).
    by rewrite Hhas, Hread.
  - apply lookup_insert_eq.
Qed.

Lemma edit_note_last_wins_witness :
  exists fs1 fs2,
    edit_note (Y := plain_yaml) (P := Demo.os) Demo.self (str "README.md")
      (str "First") Demo.fs = (fs1, inr ())
    /\ edit_note (Y := plain_yaml) (P := Demo.os) Demo.self (str "README.md")
         (str "Second") fs1 = (fs2, inr ())
    /\ edit_note (Y := plain_yaml) (P := Demo.os) Demo.self (str "README.md")
         (str "Second") Demo.fs = (fs2, inr ())
    /\ fs2 !! [str "vault"; str "README.md"]
       = Some (File (Some (dump (Y := plain_yaml)
                             (YMap [(str "title", YStr (str "Welcome"))])
                             (str "Second")))).
Proof.
  apply (edit_note_last_wins (Y := plain_yaml) (P := Demo.os) Demo.self
           (str "README.md") [str "vault"; str "README.md"] Demo.readme
           (str "title: Welcome") (str "First") (str "Second")
           {| frontmatter := YMap [(str "title", YStr (str "Welcome"))];
              content := Demo.lines ["# Welcome to My Vault"; ""];
              has_frontmatter := true |} Demo.fs).
  - vm_compute. reflexivity.
  - vm_compute. reflexivity.
  - vm_compute. reflexivity.
  - reflexivity.
  - split; [reflexivity|]. split; [|reflexivity]. eexists _, _. split; reflexivity.
  - apply (bool_decide_unpack _). vm_compute. reflexivity.
  - reflexivity.
Defined.

(** X10.  Reading changes nothing, and [read_frontmatter] is [parse] after
    [read_note]: it returns the metadata of the text [read_note] returns,
    raises what [read_note] raises, and raises what [parse] raises on that
    text; in every case the file system is as it was. *)
Theorem read_frontmatter_parses_read_note {Y : Yaml} {P : Platform}
    (self : VaultManager) (p : text) (fs : fsys) :
  (read_note self p fs).1 = fs
  /\ read_frontmatter self p fs
     = (fs, match (read_note self p fs).2 with
            | inl e => inl e
            | inr text_ =>
                match parse text_ with
                | inl e => inl e
                | inr r => inr (frontmatter r)
                end
            end).
Proof.
  unfold read_note, read_frontmatter, bind, lift, raise, ret, exists_.
  destruct (_resolve_path self p) as [e|q]; [done|]. cbn [fst snd].
  destruct (bool_decide (is_Some (fs !! q))); cbn [negb]; [|done].
  unfold read_text. destruct (fs !! q) as [[|[s|]]|]; try done.
  cbn [fst snd]. by destruct (parse s).
Qed.

(** ** Tags listed and tags found *)

Section TagTokens.

Lemma span_0 cs r : match head r with Some c => mem cs c | None => false end = false ->
  span cs r = 0.
Proof. destruct r as [|x r]; [done|]. simpl. by intros ->. Qed.

Lemma head_drop_span cs s :
  match head (drop (span cs s) s) with Some c => mem cs c | None => false end = false.
Proof.
  rewrite head_lookup, lookup_drop, Nat.add_0_r.
  destruct (s !! span cs s) as [x|] eqn:Hx; [|done]. by apply span_stop in Hx.
Qed.

(** A tag token: [#], a non-empty run of word characters, and no word
    character after it. *)
Lemma tag_token_Some s w r :
  tag_token s = Some (w, r)
  <-> s = "#"%char :: w ++ r /\ w <> [] /\ all_in CWord w
      /\ word_at (head r) = false.
Proof.
  unfold tag_token. split.
  - destruct s as [|c s1]; [done|].
    destruct (bool_decide (c = "#"%char)) eqn:Hc; [|done].
    apply bool_decide_eq_true in Hc as ->. cbn [andb].
    destruct (0 <? span CWord s1) eqn:Hspan; [|done].
    apply Nat.ltb_lt in Hspan. intros [= <- <-].
    split; [by rewrite take_drop|]. split; [|split].
    + intros Hnil%(f_equal length). rewrite length_take in Hnil.
      pose proof (span_le CWord s1). simpl in Hnil. lia.
    + by apply span_take.
    + apply (head_drop_span CWord s1).
  - intros (-> & Hne & Hw & Hr).
    rewrite bool_decide_eq_true_2 by done. cbn [andb].
    rewrite span_app, (span_0 CWord r) by done. rewrite Nat.add_0_r.
    rewrite take_app_length, drop_app_length.
    destruct w; [done|]. done.
Qed.

Lemma tokens_from_elem fuel s w :
  w ∈ tokens_from fuel s ->
  exists pre suf r, s = pre ++ suf /\ tag_token suf = Some (w, r).
Proof.
  revert s. induction fuel as [|f IH]; intros s; [by intros ?%elem_of_nil|].
  cbn [tokens_from]. destruct (tag_token s) as [[w0 r0]|] eqn:Htok.
  - intros [->|Hin]%elem_of_cons.
    + by exists [], s, r0.
    + destruct (IH _ Hin) as (pre & suf & r & -> & Hsuf).
      apply tag_token_Some in Htok as (-> & _).
      exists ("#"%char :: w0 ++ pre), suf, r. split; [|done].
      simpl. by rewrite <- app_assoc.
  - destruct s as [|c s']; [by intros ?%elem_of_nil|].
    intros Hin. destruct (IH _ Hin) as (pre & suf & r & -> & Hsuf).
    by exists (c :: pre), suf, r.
Qed.

Lemma is_word_hash : is_word "#" = false.
Proof. reflexivity. Qed.

(** No token is skipped: a [#] cannot lie inside an earlier token. *)
Lemma tokens_from_complete fuel pre suf w r :
  tag_token suf = Some (w, r) ->
  length (pre ++ suf) < fuel ->
  w ∈ tokens_from fuel (pre ++ suf).
Proof.
  intros Hsuf. revert pre. induction fuel as [|f IH]; intros pre Hlen; [lia|].
  cbn [tokens_from]. destruct (tag_token (pre ++ suf)) as [[w0 r0]|] eqn:Htok.
  - destruct pre as [|c pre].
    + simpl in Htok. rewrite Hsuf in Htok. injection Htok as <- <-. left.
    + right. apply tag_token_Some in Htok as (Heq & _ & Hw0 & _).
      simpl in Heq. injection Heq as -> Heq.
      pose proof (proj1 (tag_token_Some _ _ _) Hsuf) as (Hs & _).
      destruct (decide (length pre < length w0)) as [Hlt|Hge].
      * exfalso. apply (f_equal (fun l => l !! length pre)) in Heq.
        rewrite lookup_app_r, Nat.sub_diag, Hs in Heq by lia.
        rewrite lookup_app_l in Heq by done. simpl in Heq.
        symmetry in Heq. apply list_elem_of_lookup_2 in Heq.
        unfold all_in in Hw0. rewrite Forall_forall in Hw0.
        apply Hw0 in Heq. simpl in Heq. by rewrite is_word_hash in Heq.
      * assert (Hpre : pre = w0 ++ drop (length w0) pre).
        { rewrite <- (take_drop (length w0) pre) at 1. f_equal.
          apply (f_equal (take (length w0))) in Heq.
          rewrite take_app_le, take_app_length in Heq by lia. done. }
        assert (Hr0 : r0 = drop (length w0) pre ++ suf).
        { apply (f_equal (drop (length w0))) in Heq.
          rewrite drop_app_le, drop_app_length in Heq by lia. done. }
        rewrite Hr0. apply IH. rewrite Hpre in Hlen. simpl in Hlen.
        rewrite !length_app in *. lia.
  - destruct pre as [|c pre].
    + simpl in Htok. congruence.
    + simpl. apply IH. simpl in Hlen. lia.
Qed.

Lemma elem_of_tokens s w :
  w ∈ tokens s <-> exists pre suf r, s = pre ++ suf /\ tag_token suf = Some (w, r).
Proof.
  split; [apply tokens_from_elem|].
  intros (pre & suf & r & -> & Hsuf). apply (tokens_from_complete _ _ _ _ r); [done|].
  lia.
Qed.

Lemma last_word (t : text) :
  t <> [] -> all_in CWord t -> word_at (last ("#"%char :: t)) = true.
Proof.
  intros Hne Hw. destruct t as [|c t _] using rev_ind; [done|].
  rewrite app_comm_cons, last_snoc. simpl.
  unfold all_in in Hw. rewrite Forall_app, Forall_singleton in Hw. tauto.
Qed.

(** For a tag made of word characters, being a token of a text and being
    found in it as a whole word are the same. *)
Lemma tokens_has_tag t s :
  t <> [] -> all_in CWord t -> (t ∈ tokens s <-> has_tag t s).
Proof.
  intros Hne Hw. rewrite elem_of_tokens. unfold has_tag, tag_at.
  assert (Hhead : forall r, word_at (head (t ++ r)) = true).
  { intros r. destruct t as [|c t]; [done|]. simpl.
    by apply Forall_cons in Hw as [? _]. }
  split.
  - intros (pre & suf & r & -> & (-> & _ & _ & Hr)%tag_token_Some).
    exists pre, ("#"%char :: t ++ r). split; [done|]. exists r.
    split; [done|]. split; [done|]. by rewrite last_word, Hr.
  - intros (pre & suf & -> & r & -> & _ & Hb).
    exists pre, ("#"%char :: t ++ r), r. split; [done|].
    apply tag_token_Some. split; [done|]. split; [done|]. split; [done|].
    rewrite last_word in Hb by done. by destruct (word_at (head r)).
Qed.

(** The empty tag is found wherever there is a token. *)
Lemma tokens_has_empty_tag s : tokens s <> [] <-> has_tag [] s.
Proof.
  unfold has_tag, tag_at. split.
  - intros Hne. destruct (tokens s) as [|w ws] eqn:Htok; [done|].
    assert (Hin : w ∈ tokens s) by (rewrite Htok; left).
    apply elem_of_tokens in Hin
      as (pre & suf & r & -> & (-> & Hw & Hall & _)%tag_token_Some).
    exists pre, ("#"%char :: w ++ r). split; [done|]. exists (w ++ r).
    split; [done|].
    assert (word_at (head (w ++ r)) = true) as Hhead.
    { destruct w as [|c w]; [done|]. simpl. by apply Forall_cons in Hall as [? _]. }
    cbn [app]. by rewrite Hhead.
  - intros (pre & suf & -> & r & -> & Hr & _). cbn [app] in *.
    assert (Hin : take (span CWord r) r ∈ tokens (pre ++ "#"%char :: r)).
    { apply elem_of_tokens. exists pre, ("#"%char :: r), (drop (span CWord r) r).
      split; [done|]. unfold tag_token. rewrite bool_decide_eq_true_2 by done.
      destruct r as [|c r]; [done|]. simpl in *. by rewrite Hr. }
    intros Hnil. rewrite Hnil in Hin. by apply elem_of_nil in Hin.
Qed.

Lemma lstrip_word (t : text) : all_in CWord t -> lstrip "#" t = t.
Proof.
  intros Hw. destruct t as [|c t]; [done|]. simpl.
  apply Forall_cons in Hw as [Hc _]. simpl in Hc.
  rewrite decide_False; [done|]. intros ->. by rewrite is_word_hash in Hc.
Qed.

End TagTokens.

Section TagScan.
Context {P : Platform}.

Lemma find_by_tag_filter self t fs :
  find_by_tag self t fs
  = map (fun f => {| nr_path := rel_posix self f; nr_name := stem f |})
        (filter (fun f => tag_found (lstrip "#" t) fs f = true) (md_files self fs)).
Proof.
  unfold find_by_tag. rewrite <- flat_map_filter_map.
  apply flat_map_ext. intros f. unfold tag_found.
  destruct (try_read fs f) as [content_|]; [|done].
  by destruct (bool_decide _).
Qed.

Lemma tag_found_has_tag t fs f :
  tag_found t fs f = true
  <-> exists content_, try_read fs f = Some content_ /\ has_tag t content_.
Proof.
  unfold tag_found. destruct (try_read fs f) as [content_|].
  - rewrite bool_decide_eq_true, search_find_tag. split; [eauto|].
    by intros (? & [= <-] & ?).
  - split; [done|]. by intros (? & [=] & _).
Qed.

Lemma elem_of_find_by_tag self t fs n :
  n ∈ find_by_tag self t fs
  <-> exists f content_,
        f ∈ md_files self fs /\ try_read fs f = Some content_
        /\ has_tag (lstrip "#" t) content_
        /\ n = {| nr_path := rel_posix self f; nr_name := stem f |}.
Proof.
  rewrite find_by_tag_filter, list_elem_of_fmap. split.
  - intros (f & -> & [(c & Hc & Ht)%tag_found_has_tag Hf]%list_elem_of_filter).
    by exists f, c.
  - intros (f & c & Hf & Hc & Ht & ->). exists f. split; [done|].
    apply list_elem_of_filter. split; [|done]. apply tag_found_has_tag. eauto.
Qed.

Lemma elem_of_occurrences self fs t p :
  (t, p) ∈ occurrences self fs
  <-> exists f content_,
        f ∈ md_files self fs /\ try_read fs f = Some content_
        /\ t ∈ tokens content_ /\ p = rel_posix self f.
Proof.
  unfold occurrences. rewrite list_elem_of_In, in_flat_map. split.
  - intros (f & Hf%list_elem_of_In & Hin).
    destruct (try_read fs f) as [c|] eqn:Hc; [|done].
    apply list_elem_of_In, list_elem_of_fmap in Hin as (t' & [= -> ->] & Ht).
    rewrite findall_tokens in Ht. by exists f, c.
  - intros (f & c & Hf & Hc & Ht & ->). exists f.
    split; [by apply list_elem_of_In|]. rewrite Hc.
    apply list_elem_of_In, list_elem_of_fmap. exists t. split; [done|].
    by rewrite findall_tokens.
Qed.

Lemma elem_of_paths_of t p occ : p ∈ paths_of t occ <-> (t, p) ∈ occ.
Proof.
  unfold paths_of. rewrite list_elem_of_fmap. split.
  - intros ([t' p'] & -> & [Ht Hin]%list_elem_of_filter). simpl in *. by subst.
  - intros Hin. exists (t, p). split; [done|]. by apply list_elem_of_filter.
Qed.

Lemma elem_of_tag_index e occ :
  e ∈ tag_index occ <-> exists t, t ∈ map fst occ /\ e = index_entry occ t.
Proof.
  unfold tag_index. rewrite list_elem_of_fmap. split.
  - intros (t & -> & Ht). exists t. split; [|done].
    by apply (proj1 (elem_of_first_seen _ _)).
  - intros (t & Ht & ->). exists t. split; [done|]. by apply elem_of_first_seen.
Qed.

Lemma elem_of_list_tags self fs e :
  e ∈ list_tags self fs
  <-> exists t, t ∈ map fst (occurrences self fs)
                /\ e = index_entry (occurrences self fs) t.
Proof. by rewrite list_tags_index, sorted_perm, elem_of_tag_index. Qed.

Lemma sum_indicator (x : text) (L : list text) :
  NoDup L ->
  sum_list_with (fun t => if decide (x = t) then 1 else 0) L
  = if decide (x ∈ L) then 1 else 0.
Proof.
  induction 1 as [|y L Hy Hnd IH]; [done|]. simpl. rewrite IH.
  destruct (decide (x = y)) as [->|Hne].
  - rewrite decide_False by done. by rewrite decide_True by left.
  - destruct (decide (x ∈ L)) as [Hin|Hnin].
    + by rewrite decide_True by (by right).
    + rewrite decide_False; [done|]. rewrite not_elem_of_cons. done.
Qed.

Lemma sum_list_with_add {A} (f g : A -> nat) l :
  sum_list_with (fun x => f x + g x) l = sum_list_with f l + sum_list_with g l.
Proof. induction l as [|x l IH]; simpl; lia. Qed.

Lemma sum_list_with_pointwise {A} (f g : A -> nat) l :
  (forall x, f x = g x) -> sum_list_with f l = sum_list_with g l.
Proof. intros Hfg. induction l as [|x l IH]; simpl; [done|]. by rewrite Hfg, IH. Qed.

Lemma sum_list_with_map {A B} (f : B -> nat) (g : A -> B) l :
  sum_list_with f (map g l) = sum_list_with (fun x => f (g x)) l.
Proof. induction l as [|x l IH]; simpl; [done|]. by rewrite IH. Qed.

(** Every occurrence is counted under exactly one tag. *)
Lemma count_sum (L : list text) (occ : list (text * text)) :
  NoDup L ->
  (forall o, o ∈ occ -> o.1 ∈ L) ->
  sum_list_with (fun t => length (paths_of t occ)) L = length occ.
Proof.
  intros Hnd. induction occ as [|[t p] occ IH]; intros Hin.
  - clear. induction L as [|x L IHL]; [done|]. exact IHL.
  - rewrite (sum_list_with_pointwise _
      (fun x => (if decide (t = x) then 1 else 0) + length (paths_of x occ))).
    + rewrite sum_list_with_add, sum_indicator by done.
      rewrite IH by (intros o Ho; apply Hin; by right).
      rewrite decide_True; [done|]. apply (Hin (t, p)). left.
    + intros x. unfold paths_of. rewrite filter_cons. simpl.
      by destruct (decide (t = x)).
Qed.

End TagScan.

(** X13.  What every result of [list_tags] satisfies: no tag is listed
    twice; the counts add up to the number of tag tokens in the readable
    notes; and each entry has a non-empty tag of word characters, a count of
    at least one, as many examples as the count allows up to three, and as
    examples only paths of scanned notes that hold the tag as a token. *)
Theorem list_tags_entries {P : Platform} (self : VaultManager) (fs : fsys) :
  NoDup (map tag (list_tags self fs))
  /\ sum_list_with count (list_tags self fs) = length (occurrences self fs)
  /\ forall e, e ∈ list_tags self fs ->
       tag e <> [] /\ all_in CWord (tag e)
       /\ 1 <= count e
       /\ length (examples e) = 3 `min` count e
       /\ forall p, p ∈ examples e ->
            exists f content_,
              f ∈ md_files self fs /\ try_read fs f = Some content_
              /\ tag e ∈ tokens content_ /\ p = rel_posix self f.
Proof.
  split; [|split].
  - rewrite list_tags_index, sorted_perm. unfold tag_index.
    rewrite map_map, map_id. apply NoDup_first_seen.
  - rewrite list_tags_index, sorted_perm. unfold tag_index.
    rewrite sum_list_with_map. apply count_sum; [apply NoDup_first_seen|].
    intros o Ho. apply elem_of_first_seen, list_elem_of_fmap. by exists o.
  - intros e (t & Ht & ->)%elem_of_list_tags. cbn [tag count examples index_entry].
    apply list_elem_of_fmap in Ht as ([t' p] & -> & Hin). cbn [fst].
    pose proof (proj1 (elem_of_occurrences _ _ _ _) Hin)
      as (f & c & Hf & Hc & (pre & suf & r & -> & Htok)%elem_of_tokens & ->).
    apply tag_token_Some in Htok as (-> & Hne & Hw & _).
    split; [done|]. split; [done|]. split; [|split].
    + apply elem_of_paths_of in Hin.
      destruct (paths_of t' (occurrences self fs)); [by apply elem_of_nil in Hin|].
      simpl. lia.
    + by rewrite length_take.
    + intros p' Hp'%subseteq_take%elem_of_paths_of.
      by apply elem_of_occurrences.
Qed.

Lemma list_tags_entries_witness :
  let e := {| tag := str "project"; count := 3;
              examples := [str "Daily/2024-01-01.md"; str "Projects/Project A.md";
                           str "Projects/Project A.md"] |} in
  tag e <> [] /\ all_in CWord (tag e)
  /\ 1 <= count e
  /\ length (examples e) = 3 `min` count e
  /\ forall p, p ∈ examples e ->
       exists f content_,
         f ∈ md_files (P := Demo.os) Demo.self Demo.fs
         /\ try_read Demo.fs f = Some content_
         /\ tag e ∈ tokens content_
         /\ p = rel_posix Demo.self f.
Proof.
  intros e.
  apply (proj2 (proj2 (list_tags_entries (P := Demo.os) Demo.self Demo.fs)) e).
  vm_compute. left.
Defined.

(** X14.  [list_tags] and [find_by_tag] agree: a tag of word characters is
    listed exactly when [find_by_tag] finds a note for it, and every example
    path of a listed tag is among the notes [find_by_tag] returns for that
    tag. *)
Theorem listed_tags_are_found {P : Platform} (self : VaultManager) (fs : fsys) :
  (forall t, t <> [] -> all_in CWord t ->
     ((exists e, e ∈ list_tags self fs /\ tag e = t)
      <-> find_by_tag self t fs <> []))
  /\ (forall e p, e ∈ list_tags self fs -> p ∈ examples e ->
        exists n, n ∈ find_by_tag self (tag e) fs /\ nr_path n = p).
Proof.
  split.
  - intros t Hne Hw. split.
    + intros (e & (t' & Ht' & ->)%elem_of_list_tags & <-). cbn [tag index_entry].
      apply list_elem_of_fmap in Ht' as ([t p] & -> & Hin). cbn [fst] in *.
      apply elem_of_occurrences in Hin as (f & c & Hf & Hc & Htok & ->).
      assert (Hin : {| nr_path := rel_posix self f; nr_name := stem f |}
                    ∈ find_by_tag self t fs).
      { apply elem_of_find_by_tag. exists f, c. rewrite lstrip_word by done.
        split; [done|]. split; [done|]. split; [|done]. by apply tokens_has_tag. }
      intros Hnil. rewrite Hnil in Hin. by apply elem_of_nil in Hin.
    + intros Hfound. destruct (find_by_tag self t fs) as [|n ns] eqn:Hfind; [done|].
      assert (Hin : n ∈ find_by_tag self t fs) by (rewrite Hfind; left).
      apply elem_of_find_by_tag in Hin as (f & c & Hf & Hc & Htag & _).
      rewrite lstrip_word in Htag by done. apply tokens_has_tag in Htag; [|done..].
      exists (index_entry (occurrences self fs) t). split; [|done].
      apply elem_of_list_tags. exists t. split; [|done].
      apply list_elem_of_fmap. exists (t, rel_posix self f). split; [done|].
      apply elem_of_occurrences. by exists f, c.
  - intros e p (t & Ht & ->)%elem_of_list_tags. cbn [tag examples index_entry].
    intros Hp%subseteq_take%elem_of_paths_of.
    pose proof (proj1 (elem_of_occurrences _ _ _ _) Hp)
      as (f & c & Hf & Hc & Htok & ->).
    pose proof (proj1 (elem_of_tokens _ _) Htok)
      as (pre & suf & r & _ & (_ & Hne & Hw & _)%tag_token_Some).
    exists {| nr_path := rel_posix self f; nr_name := stem f |}. split; [|done].
    apply elem_of_find_by_tag. exists f, c. rewrite lstrip_word by done.
    split; [done|]. split; [done|]. split; [|done]. by apply tokens_has_tag.
Qed.

Lemma listed_tags_are_found_witness :
  ((exists e, e ∈ list_tags (P := Demo.os) Demo.self Demo.fs
              /\ tag e = str "customtag")
   <-> find_by_tag (P := Demo.os) Demo.self (str "customtag") Demo.fs <> [])
  /\ exists n, n ∈ find_by_tag (P := Demo.os) Demo.self (str "project") Demo.fs
               /\ nr_path n = str "Projects/Project A.md".
Proof.
  split.
  - apply (proj1 (listed_tags_are_found (P := Demo.os) Demo.self Demo.fs)).
    + discriminate.
    + repeat constructor.
  - apply (proj2 (listed_tags_are_found (P := Demo.os) Demo.self Demo.fs)
             {| tag := str "project"; count := 3;
                examples := [str "Daily/2024-01-01.md";
                             str "Projects/Project A.md";
                             str "Projects/Project A.md"] |}).
    + vm_compute. left.
    + right. left.
Defined.

(** X15.  Two edges of [find_by_tag]. A query that is empty once its leading
    [#] are stripped finds every readable note that holds a tag token at
    all. A query whose first character after the stripping is not a word
    character finds nothing: no word boundary can follow the [#]. *)
Theorem find_by_tag_edge_queries {P : Platform} (self : VaultManager)
    (fs : fsys) :
  (forall t n, lstrip "#" t = [] ->
     (n ∈ find_by_tag self t fs
      <-> exists f content_,
            f ∈ md_files self fs /\ try_read fs f = Some content_
            /\ findall tag_pattern content_ <> []
            /\ n = {| nr_path := rel_posix self f; nr_name := stem f |}))
  /\ (forall t c t', lstrip "#" t = c :: t' -> is_word c = false ->
        find_by_tag self t fs = []).
Proof.
  split.
  - intros t n Ht. rewrite elem_of_find_by_tag, Ht.
    split; intros (f & c & Hf & Hc & Htag & ->); exists f, c;
      (split; [done|]); (split; [done|]); (split; [|done]).
    + rewrite findall_tokens. by apply tokens_has_empty_tag.
    + rewrite findall_tokens in Htag. by apply tokens_has_empty_tag.
  - intros t c t' Ht Hc.
    destruct (find_by_tag self t fs) as [|n ns] eqn:Hfind; [done|].
    assert (Hin : n ∈ find_by_tag self t fs) by (rewrite Hfind; left).
    apply elem_of_find_by_tag in Hin
      as (f & c0 & _ & _ & (pre & suf & _ & r & _ & Hhead & _) & _).
    rewrite Ht in Hhead. simpl in Hhead. congruence.
Qed.

Lemma find_by_tag_edge_queries_witness :
  length (find_by_tag (P := Demo.os) Demo.self (str "#") Demo.fs) = 4
  /\ find_by_tag (P := Demo.os) Demo.self (str "#-project") Demo.fs = [].
Proof.
  split.
  - vm_compute. reflexivity.
  - apply (proj2 (find_by_tag_edge_queries (P := Demo.os) Demo.self Demo.fs)
             (str "#-project") "-"%char (str "project")); reflexivity.
Defined.

(** ** Searching the vault *)

Section SearchVault.

Lemma startswith_lower q s :
  startswith (lower q) (lower s)
  = bool_decide (lower (take (length q) s) = lower q).
Proof.
  unfold startswith, lower. by rewrite length_map, <- fmap_take.
Qed.

Lemma occurs_at_0 q s : occurs_at q s 0 <-> startswith (lower q) (lower s) = true.
Proof. by rewrite startswith_lower, bool_decide_eq_true. Qed.

Lemma occurs_at_S q x s k : occurs_at q (x :: s) (S k) <-> occurs_at q s k.
Proof. done. Qed.

(** [find] returns the first index at which the pattern occurs, and [in]
    tells whether there is one. *)
Lemma find_from_first q s i :
  match head (filter (fun k => occurs_at q s (k - i)) (seq i (S (length s)))) with
  | Some k =>
      str_in (lower q) (lower s) = true
      /\ find_from (lower q) (lower s) (Z.of_nat i) = Z.of_nat k
  | None => str_in (lower q) (lower s) = false
  end.
Proof.
  revert i. induction s as [|x s IH]; intros i.
  - cbn [length seq]. rewrite filter_cons, filter_nil, Nat.sub_diag.
    cbn [lower map str_in find_from]. rewrite orb_false_r.
    destruct (decide (occurs_at q [] 0)) as [Ho|Ho].
    + apply occurs_at_0 in Ho. cbn [lower map] in Ho. by rewrite Ho.
    + cbn [head]. apply not_true_is_false. intros Hs. apply Ho.
      by apply occurs_at_0.
  - change (seq i (S (length (x :: s)))) with (i :: seq (S i) (S (length s))).
    rewrite filter_cons, Nat.sub_diag.
    change (lower (x :: s)) with (lower_char x :: lower s).
    cbn [str_in find_from].
    change (lower_char x :: lower s) with (lower (x :: s)).
    destruct (decide (occurs_at q (x :: s) 0)) as [Ho|Ho].
    + apply occurs_at_0 in Ho. by rewrite Ho.
    + assert (Hno : startswith (lower q) (lower (x :: s)) = false).
      { apply not_true_is_false. by rewrite <- occurs_at_0. }
      rewrite Hno. cbn [orb].
      rewrite (filter_ext_elem _ (fun k => occurs_at q s (k - S i))); cycle 1.
      { intros k [Hk _]%list_elem_of_In%in_seq.
        replace (k - i) with (S (k - S i)) by lia. apply occurs_at_S. }
      specialize (IH (S i)).
      replace (Z.of_nat i + 1)%Z with (Z.of_nat (S i)) by lia. exact IH.
Qed.

Lemma find_first q c :
  match first_occurrence q c with
  | Some k =>
      str_in (lower q) (lower c) = true
      /\ find (lower c) (lower q) = Z.of_nat k
  | None => str_in (lower q) (lower c) = false
  end.
Proof.
  unfold first_occurrence, find.
  rewrite (filter_ext_elem _ (fun k => occurs_at q c (k - 0))).
  - apply (find_from_first q c 0).
  - intros k _. by rewrite Nat.sub_0_r.
Qed.

Lemma head_filter_Some {A} (Q : A -> Prop) `{!forall x, Decision (Q x)} l x :
  head (filter Q l) = Some x ->
  exists l1 l2, l = l1 ++ x :: l2 /\ Q x /\ Forall (fun y => ~ Q y) l1.
Proof.
  induction l as [|y l IH]; [done|]. rewrite filter_cons.
  destruct (decide (Q y)) as [Hy|Hy].
  - intros [= ->]. by exists [], l.
  - intros (l1 & l2 & -> & Hx & Hl1)%IH. exists (y :: l1), l2.
    split; [done|]. split; [done|]. by constructor.
Qed.

Lemma first_occurrence_Some q c k :
  first_occurrence q c = Some k ->
  occurs_at q c k /\ k + length q <= length c
  /\ forall j, j < k -> ~ occurs_at q c j.
Proof.
  unfold first_occurrence.
  intros (l1 & l2 & Hseq & Hk & Hl1)%head_filter_Some.
  assert (Hlen : k = length l1).
  { apply (f_equal (fun l => l !! length l1)) in Hseq.
    rewrite list_lookup_middle in Hseq by done.
    apply lookup_seq in Hseq as [-> _]. done. }
  assert (Hkle : k <= length c).
  { apply (f_equal length) in Hseq.
    rewrite length_seq, length_app in Hseq. simpl in Hseq. lia. }
  split; [done|]. split.
  - unfold occurs_at in Hk. apply (f_equal length) in Hk.
    unfold lower in Hk. rewrite !length_map, length_take, length_drop in Hk. lia.
  - intros j Hj. rewrite Forall_forall in Hl1. apply Hl1.
    apply list_elem_of_lookup. exists j.
    apply (f_equal (fun l => l !! j)) in Hseq.
    rewrite lookup_app_l in Hseq by lia. rewrite <- Hseq.
    apply lookup_seq. split; [done|]. lia.
Qed.

(** The slice the code takes is the window of [excerpt_at]. *)
Lemma slice_window (c : text) (k lq : nat) :
  slice c (Z.max 0 (Z.of_nat k - 100))
          (Z.min (Z.of_nat (length c)) (Z.of_nat k + Z.of_nat lq + 100))
  = take (k `min` 100 + lq + 100) (drop (k - 100) c).
Proof.
  unfold slice.
  replace (Z.to_nat (Z.max 0 (Z.of_nat k - 100))) with (k - 100) by lia.
  replace (Z.to_nat (Z.min (Z.of_nat (length c)) (Z.of_nat k + Z.of_nat lq + 100)))
    with (length c `min` (k + lq + 100)) by lia.
  destruct (decide (k + lq + 100 <= length c)) as [Hle|Hgt].
  - f_equal. lia.
  - rewrite !take_ge; [done| |]; rewrite length_drop; lia.
Qed.

End SearchVault.

Section SearchResults.
Context {P : Platform}.

Lemma search_vault_omap self q fs :
  search_vault self q fs
  = omap (fun f =>
      match try_read fs f with
      | Some content_ =>
          match first_occurrence q content_ with
          | Some k => Some {| sh_path := rel_posix self f;
                              sh_name := stem f;
                              excerpt := excerpt_at q content_ k |}
          | None => None
          end
      | None => None
      end) (md_files self fs).
Proof.
  unfold search_vault. induction (md_files self fs) as [|f l IH]; [done|].
  cbn [flat_map omap list_omap]. rewrite IH.
  destruct (try_read fs f) as [c|]; [|done].
  pose proof (find_first q c) as Hfind.
  destruct (first_occurrence q c) as [k|].
  - destruct Hfind as [-> ->]. unfold excerpt_at. by rewrite slice_window.
  - by rewrite Hfind.
Qed.

Lemma head_filter_None {A} (Q : A -> Prop) `{!forall x, Decision (Q x)} l :
  head (filter Q l) = None -> Forall (fun y => ~ Q y) l.
Proof.
  induction l as [|y l IH]; [constructor|]. rewrite filter_cons.
  destruct (decide (Q y)); [done|]. intros Hl. constructor; [done|]. by apply IH.
Qed.

Lemma first_occurrence_iff q c k :
  first_occurrence q c = Some k
  <-> occurs_at q c k /\ forall j, j < k -> ~ occurs_at q c j.
Proof.
  split.
  { intros (? & _ & ?)%first_occurrence_Some. done. }
  intros [Hk Hmin].
  assert (Hkle : k <= length c).
  { destruct (decide (k <= length c)) as [|Hgt]; [done|]. exfalso.
    apply (Hmin (length c)); [lia|]. unfold occurs_at in *.
    by rewrite drop_all, <- (drop_ge c k) by lia. }
  destruct (first_occurrence q c) as [k'|] eqn:Hfirst.
  - apply first_occurrence_Some in Hfirst as (Hk' & _ & Hmin').
    f_equal. destruct (Nat.lt_trichotomy k' k) as [Hlt|[->|Hlt]]; [|done|].
    + by apply Hmin in Hlt.
    + by apply Hmin' in Hlt.
  - apply head_filter_None in Hfirst. rewrite Forall_forall in Hfirst.
    exfalso. apply (Hfirst k); [|done].
    apply list_elem_of_In, in_seq. lia.
Qed.


End SearchResults.

(** X16.  [search_vault] lists, in scan order, one hit for each readable
    note in which the query occurs, letter case apart, and the excerpt of a
    hit is taken around the first such occurrence: up to 100 characters
    before it, the occurrence itself, and up to 100 characters after it. *)
Theorem search_vault_first_occurrence {P : Platform} (self : VaultManager)
    (q : text) (fs : fsys) :
  search_vault self q fs
  = omap (fun f =>
      match try_read fs f with
      | Some content_ =>
          match first_occurrence q content_ with
          | Some k => Some {| sh_path := rel_posix self f;
                              sh_name := stem f;
                              excerpt := excerpt_at q content_ k |}
          | None => None
          end
      | None => None
      end) (md_files self fs)
  /\ forall c k,
       first_occurrence q c = Some k
       <-> occurs_at q c k /\ forall j, j < k -> ~ occurs_at q c j.
Proof. split; [apply search_vault_omap|apply first_occurrence_iff]. Qed.

Lemma search_vault_first_occurrence_witness :
  occurs_at (str "NOTE") Demo.daily 25
  /\ forall j, j < 25 -> ~ occurs_at (str "NOTE") Demo.daily j.
Proof.
  apply (proj2 (search_vault_first_occurrence (P := Demo.os) Demo.self
                  (str "NOTE") Demo.fs) Demo.daily 25).
  vm_compute. reflexivity.
Defined.

Example search_vault_demo :
  search_vault (P := Demo.os) Demo.self (str "CUSTOMTAG") Demo.fs
  = [{| sh_path := str "Projects/Project B.md";
        sh_name := str "Project B";
        excerpt := str "...# Project B  References [[Project A]] and [[Project A|alias]]. Some content with #customtag. ..." |}].
Proof. vm_compute. reflexivity. Qed.



(** X18.  The empty query finds every readable note, and shows the first 100
    characters of each. *)
Theorem search_vault_empty_query {P : Platform} (self : VaultManager)
    (fs : fsys) :
  search_vault self [] fs
  = omap (fun f =>
      match try_read fs f with
      | Some content_ =>
          Some {| sh_path := rel_posix self f;
                  sh_name := stem f;
                  excerpt := str "..." ++ replace_char nl " " (take 100 content_)
                             ++ str "..." |}
      | None => None
      end) (md_files self fs).
Proof.
  rewrite search_vault_omap. apply list_omap_ext.
  induction (md_files self fs) as [|f l IH]; constructor; [|done].
  destruct (try_read fs f) as [c|]; [|done].
  assert (first_occurrence [] c = Some 0) as ->.
  { apply first_occurrence_iff. split; [done|]. intros j Hj. lia. }
  done.
Qed.


(** ** Listing notes in path order *)

Section ListCompare.
Context {A : Type} (cmp : A -> A -> comparison).
Hypothesis cmp_eq : forall x y, cmp x y = Eq <-> x = y.
Hypothesis cmp_opp : forall x y, cmp y x = CompOpp (cmp x y).
Hypothesis cmp_trans : forall x y z, cmp x y = Lt -> cmp y z = Lt -> cmp x z = Lt.

Lemma list_compare_eq a b : list_compare cmp a b = Eq <-> a = b.
Proof.
  revert b. induction a as [|x a IH]; intros [|y b]; simpl; try done.
  destruct (cmp x y) eqn:Hxy.
  - apply cmp_eq in Hxy as ->. rewrite IH. split; congruence.
  - split; [done|]. intros [= Hx _]. apply cmp_eq in Hx. congruence.
  - split; [done|]. intros [= Hx _]. apply cmp_eq in Hx. congruence.
Qed.

Lemma list_compare_opp a b :
  list_compare cmp b a = CompOpp (list_compare cmp a b).
Proof.
  revert b. induction a as [|x a IH]; intros [|y b]; simpl; try done.
  rewrite cmp_opp. destruct (cmp x y); simpl; [apply IH|done|done].
Qed.

Lemma list_compare_trans a b c :
  list_compare cmp a b = Lt -> list_compare cmp b c = Lt ->
  list_compare cmp a c = Lt.
Proof.
  revert b c. induction a as [|x a IH]; intros [|y b] [|z c]; simpl; try done.
  destruct (cmp x y) eqn:Hxy; [|intros _|done].
  - apply cmp_eq in Hxy as ->. destruct (cmp y z); [apply IH|done|done].
  - destruct (cmp y z) eqn:Hyz; [|intros _|done].
    + apply cmp_eq in Hyz as ->. by rewrite Hxy.
    + by rewrite (cmp_trans x y z).
Qed.

End ListCompare.

Section PathOrder.

Lemma chr_compare_eq x y : chr_compare x y = Eq <-> x = y.
Proof.
  unfold chr_compare. rewrite Nat.compare_eq_iff. split; [|by intros ->].
  intros Hxy. by rewrite <- (ascii_nat_embedding x), Hxy, ascii_nat_embedding.
Qed.

Lemma chr_compare_opp x y : chr_compare y x = CompOpp (chr_compare x y).
Proof. apply Nat.compare_antisym. Qed.

Lemma chr_compare_trans x y z :
  chr_compare x y = Lt -> chr_compare y z = Lt -> chr_compare x z = Lt.
Proof. unfold chr_compare. rewrite !Nat.compare_lt_iff. lia. Qed.

Lemma str_compare_eq a b : str_compare a b = Eq <-> a = b.
Proof. apply (list_compare_eq _ chr_compare_eq). Qed.

Lemma str_compare_opp a b : str_compare b a = CompOpp (str_compare a b).
Proof. apply (list_compare_opp _ chr_compare_opp). Qed.

Lemma str_compare_trans a b c :
  str_compare a b = Lt -> str_compare b c = Lt -> str_compare a c = Lt.
Proof.
  apply (list_compare_trans _ chr_compare_eq chr_compare_trans).
Qed.

Lemma path_lt_asym p q : path_lt p q = true -> path_lt q p = false.
Proof.
  unfold path_lt. rewrite (list_compare_opp _ str_compare_opp p q).
  by destruct (list_compare str_compare p q).
Qed.

Lemma path_le_trans p q r :
  path_lt q p = false -> path_lt r q = false -> path_lt r p = false.
Proof.
  unfold path_lt. intros Hqp Hrq.
  destruct (list_compare str_compare r p) eqn:Hrp; [done| |done]. exfalso.
  destruct (list_compare str_compare r q) eqn:Hrq'; [|done|].
  - apply (list_compare_eq _ str_compare_eq) in Hrq' as ->. by rewrite Hrp in Hqp.
  - assert (Hqr : list_compare str_compare q r = Lt).
    { by rewrite (list_compare_opp _ str_compare_opp r q), Hrq'. }
    rewrite (list_compare_trans _ str_compare_eq str_compare_trans q r p) in Hqp;
      done.
Qed.

(** Two paths neither of which is smaller are the same path. *)
Lemma path_lt_total p q : path_lt p q = false -> path_lt q p = false -> p = q.
Proof.
  unfold path_lt. rewrite (list_compare_opp _ str_compare_opp p q).
  destruct (list_compare str_compare p q) eqn:Hpq; try done.
  intros _ _. by apply (list_compare_eq _ str_compare_eq).
Qed.

End PathOrder.

Section SortedLt.
Context {A : Type} (lt : A -> A -> bool).
Hypothesis lt_asym : forall x y, lt x y = true -> lt y x = false.
Hypothesis le_trans : forall x y z,
  lt y x = false -> lt z y = false -> lt z x = false.

Lemma insert_lt_perm x l : insert_lt lt x l ≡ₚ x :: l.
Proof.
  induction l as [|y l IH]; [done|]. simpl.
  destruct (lt y x); [|done]. rewrite IH. apply Permutation_swap.
Qed.

Lemma sorted_lt_perm l : sorted_lt lt l ≡ₚ l.
Proof.
  induction l as [|x l IH]; [done|].
  unfold sorted_lt in *. simpl. by rewrite insert_lt_perm, IH.
Qed.

Lemma insert_lt_sorted x l :
  StronglySorted (fun a b => lt b a = false) l ->
  StronglySorted (fun a b => lt b a = false) (insert_lt lt x l).
Proof.
  induction 1 as [|y l Hl IH Hy]; simpl.
  - repeat constructor.
  - destruct (lt y x) eqn:Hyx.
    + constructor; [done|]. rewrite insert_lt_perm. constructor; [|done].
      by apply lt_asym.
    + constructor; [by constructor|]. constructor; [done|].
      eapply Forall_impl; [exact Hy|]. simpl. intros z Hz.
      by apply (le_trans x y z).
Qed.

Lemma sorted_lt_sorted l :
  StronglySorted (fun a b => lt b a = false) (sorted_lt lt l).
Proof.
  induction l as [|x l IH]; [constructor|]. by apply insert_lt_sorted.
Qed.

End SortedLt.

Section ListNotes.
Context {P : Platform} {S : Stat}.

Lemma flat_map_omap {A B} (f : A -> list B) (g : A -> option B) l :
  (forall x, x ∈ l -> f x = match g x with Some y => [y] | None => [] end) ->
  flat_map f l = omap g l.
Proof.
  induction l as [|x l IH]; intros Hfg; [done|]. cbn [flat_map].
  rewrite (Hfg x) by left. rewrite IH by (intros y Hy; apply Hfg; by right).
  csimpl. by destruct (g x).
Qed.

Lemma resolve_path_error self d e :
  _resolve_path self d = inl e -> PathTraversalError e.
Proof.
  unfold _resolve_path. destruct (relative_to _ _); [done|].
  intros [= <-]. by eexists.
Qed.

Lemma resolve_path_below self d q :
  _resolve_path self d = inr q -> exists rel, q = vault_path self ++ rel.
Proof.
  unfold _resolve_path. destruct (relative_to _ _) as [rel|] eqn:Hrel; [|done].
  intros [= <-]. exists rel. by apply relative_to_Some.
Qed.

(** The entry of a file that can be statted. *)
Lemma list_notes_resolved self d q fs :
  _resolve_path self d = inr q ->
  is_Some (fs !! q) ->
  list_notes self d fs
  = inr (omap (fun f =>
           match stat fs f with
           | Some (st_size, st_mtime) =>
               Some {| ni_path := rel_posix self f;
                       ni_name := stem f;
                       ni_size := st_size;
                       ni_modified := st_mtime |}
           | None => None
           end)
         (sorted_lt path_lt (map (fun rel => q ++ rel) (rglob_md fs q)))).
Proof.
  intros Hq Hex. unfold list_notes. rewrite Hq.
  rewrite bool_decide_eq_true_2 by done. cbn [negb]. f_equal.
  apply flat_map_omap. intros f Hf.
  rewrite sorted_lt_perm in Hf. apply list_elem_of_fmap in Hf as (rel & -> & _).
  destruct (resolve_path_below _ _ _ Hq) as (rq & ->).
  unfold rel_posix.
  rewrite (proj2 (relative_to_Some _ _ (rq ++ rel))) by (by rewrite app_assoc).
  by destruct (stat fs _) as [[? ?]|].
Qed.

End ListNotes.

(** X19.  [list_notes] returns the notes in the order of their paths,
    compared component by component: for a directory that resolves and
    exists, one entry for each [.md] file below it that can be statted,
    taken from the sorted list of those files. *)
Theorem list_notes_in_path_order {P : Platform} {S : Stat} (self : VaultManager)
    (d : text) (q : path) (fs : fsys) :
  _resolve_path self d = inr q ->
  is_Some (fs !! q) ->
  exists files,
    files ≡ₚ map (fun rel => q ++ rel) (rglob_md fs q)
    /\ StronglySorted (fun a b => path_lt b a = false) files
    /\ list_notes self d fs
       = inr (omap (fun f =>
                match stat fs f with
                | Some (st_size, st_mtime) =>
                    Some {| ni_path := rel_posix self f;
                            ni_name := stem f;
                            ni_size := st_size;
                            ni_modified := st_mtime |}
                | None => None
                end) files).
Proof.
  intros Hq Hex. eexists. split; [|split].
  - apply sorted_lt_perm.
  - apply sorted_lt_sorted; [apply path_lt_asym|apply path_le_trans].
  - by apply list_notes_resolved.
Qed.

Lemma list_notes_in_path_order_witness :
  exists files,
    files ≡ₚ map (fun rel => [str "vault"; str "Projects"] ++ rel)
               (rglob_md (Platform := Demo.os) Demo.fs [str "vault"; str "Projects"])
    /\ StronglySorted (fun a b => path_lt b a = false) files
    /\ list_notes (P := Demo.os) (S := plain_stat) Demo.self (str "Projects") Demo.fs
       = inr (omap (fun f =>
                match stat (Stat := plain_stat) Demo.fs f with
                | Some (st_size, st_mtime) =>
                    Some {| ni_path := rel_posix Demo.self f;
                            ni_name := stem f;
                            ni_size := st_size;
                            ni_modified := st_mtime |}
                | None => None
                end) files).
Proof.
  apply (list_notes_in_path_order (P := Demo.os) (S := plain_stat) Demo.self
           (str "Projects") [str "vault"; str "Projects"] Demo.fs).
  - vm_compute. reflexivity.
  - exists Dir. vm_compute. reflexivity.
Defined.

(** X20.  The edges of [list_notes]: a directory outside the vault raises
    [PathTraversalError]; a directory that does not exist has no notes; and
    every entry listed is a [.md] file found below the directory, with its
    path relative to the vault. *)
Theorem list_notes_edges {P : Platform} {S : Stat} (self : VaultManager)
    (d : text) (fs : fsys) :
  (forall e, _resolve_path self d = inl e ->
     PathTraversalError e /\ list_notes self d fs = inl e)
  /\ (forall q, _resolve_path self d = inr q -> fs !! q = None ->
        list_notes self d fs = inr [])
  /\ (forall l info, list_notes self d fs = inr l -> info ∈ l ->
        exists q rel,
          _resolve_path self d = inr q
          /\ rel ∈ rglob_md fs q
          /\ is_Some (stat fs (q ++ rel))
          /\ ni_path info = rel_posix self (q ++ rel)
          /\ ni_name info = stem (q ++ rel)).
Proof.
  split; [|split].
  - intros e He. split; [by eapply resolve_path_error|].
    unfold list_notes. by rewrite He.
  - intros q Hq Hnone. unfold list_notes. rewrite Hq.
    by rewrite bool_decide_eq_false_2 by (intros [? ?]; congruence).
  - intros l info Hl Hin.
    destruct (_resolve_path self d) as [e|q] eqn:Hq.
    { unfold list_notes in Hl. by rewrite Hq in Hl. }
    destruct (fs !! q) as [n|] eqn:Hn.
    + rewrite (list_notes_resolved _ _ _ _ Hq) in Hl by eauto.
      injection Hl as <-. apply list_elem_of_omap in Hin as (f & Hf & Hinfo).
      rewrite sorted_lt_perm in Hf. apply list_elem_of_fmap in Hf as (rel & -> & Hrel).
      exists q, rel. split; [done|]. split; [done|].
      destruct (stat fs (q ++ rel)) as [[sz mt]|]; [|done].
      injection Hinfo as <-. eauto.
    + unfold list_notes in Hl. rewrite Hq in Hl.
      rewrite bool_decide_eq_false_2 in Hl by (intros [? ?]; congruence).
      injection Hl as <-. by apply elem_of_nil in Hin.
Qed.

Lemma list_notes_edges_witness :
  (exists e, PathTraversalError e
             /\ list_notes (P := Demo.os) (S := plain_stat) Demo.self
                  (str "../elsewhere") Demo.fs = inl e)
  /\ list_notes (P := Demo.os) (S := plain_stat) Demo.self (str "Missing") Demo.fs
     = inr [].
Proof.
  pose proof (list_notes_edges (P := Demo.os) (S := plain_stat) Demo.self)
    as Hedges.
  split.
  - eexists. apply (proj1 (Hedges (str "../elsewhere") Demo.fs)).
    vm_compute. reflexivity.
  - apply (proj1 (proj2 (Hedges (str "Missing") Demo.fs))
             [str "vault"; str "Missing"]); vm_compute; reflexivity.
Defined.

Example list_notes_demo :
  match list_notes (P := Demo.os) (S := plain_stat) Demo.self (str ".") Demo.fs with
  | inr l => map ni_path l
  | inl _ => []
  end
  = map str ["Broken.md"; "Daily/2024-01-01.md"; "Projects/Project A.md";
             "Projects/Project B.md"; "README.md"; "Untagged.md"].
Proof. vm_compute. reflexivity. Qed.

(** ** The structure of the vault *)

Section VaultStructure.
Context {A : Access} (self : VaultManager) (fs : fsys).

Lemma name_snoc (l : path) n : name (l ++ [n]) = n.
Proof. unfold name. apply last_last. Qed.

Lemma elem_of_iterdir p items :
  (iterdir p fs).2 = inr items ->
  fs !! p = Some Dir
  /\ forall q, q ∈ items <-> exists n, q = p ++ [n] /\ is_Some (fs !! q).
Proof.
  unfold iterdir. destruct (fs !! p) as [[|d]|] eqn:Hp; try done.
  destruct (may_list p); [|done].
  intros [= <-]. split; [done|]. intros q.
  rewrite list_elem_of_filter, list_elem_of_fmap. split.
  - intros [[Hne Hpar] ([k v] & -> & Hkv%elem_of_map_to_list)]. simpl in *.
    destruct (exists_last_or_nil k) as [->|(l & c & ->)]; [done|].
    rewrite parent_snoc in Hpar. subst l. exists c. eauto.
  - intros (n & -> & [v Hv]). split.
    + split; [by destruct p|apply parent_snoc].
    + exists (p ++ [n], v). split; [done|]. by apply elem_of_map_to_list.
Qed.

(** [iterdir] raises on what is not a directory, and [PermissionError] on a
    directory that may not be listed. *)
Lemma iterdir_error p e :
  (iterdir p fs).2 = inl e ->
  (fs !! p <> Some Dir /\ forall msg, e <> PermissionError msg)
  \/ (fs !! p = Some Dir /\ may_list p = false /\ e = PermissionError (render p)).
Proof.
  unfold iterdir. destruct (fs !! p) as [[|d]|] eqn:Hp.
  - destruct (may_list p); [done|]. intros [= <-]. by right.
  - intros [= <-]. by left.
  - intros [= <-]. by left.
Qed.

Lemma depth_le q n : fs !! q = Some n -> length q <= depth fs.
Proof.
  intros Hq%elem_of_map_to_list. unfold depth.
  induction (map_to_list fs) as [|kv l IH]; [by apply elem_of_nil in Hq|].
  apply elem_of_cons in Hq as [<-|Hq]; simpl; [lia|].
  specialize (IH Hq). lia.
Qed.

(** When [sub] builds a tree for every directory, the loop ends, and what
    it raises, if anything, is a [PermissionError]. *)
Lemma build_children_all sub items :
  (forall item, item ∈ items -> fs !! item = Some Dir ->
     exists t, sub item = Some (inr t)) ->
  exists ts raised,
    build_children self fs sub items = Some (ts, raised)
    /\ (raised = None \/ exists msg, raised = Some (PermissionError msg)).
Proof.
  induction items as [|item items IH]; intros Hsub; [by eexists _, _; eauto|].
  destruct IH as (ts & raised & Hts & Hraised).
  { intros it Hit. apply Hsub. by right. }
  cbn [build_children]. rewrite Hts.
  destruct (startswith (str ".") (name item)); [by eauto|].
  destruct (may_stat item); cbn [negb]; [|by eauto 6].
  destruct (fs !! item) as [[|d]|] eqn:Hitem.
  - destruct (Hsub item) as [t ->]; [left|done|]. by eauto.
  - destruct (decide (suffix item = str ".md")); by eauto.
  - destruct (decide (suffix item = str ".md")); by eauto.
Qed.

Lemma build_children_ext sub1 sub2 items :
  (forall item, item ∈ items -> fs !! item = Some Dir -> sub1 item = sub2 item) ->
  build_children self fs sub1 items = build_children self fs sub2 items.
Proof.
  induction items as [|item items IH]; intros Hsub; [done|].
  cbn [build_children]. rewrite IH by (intros it Hit; apply Hsub; by right).
  destruct (startswith (str ".") (name item)); [done|].
  destruct (may_stat item); cbn [negb]; [|done].
  destruct (fs !! item) as [[|d]|] eqn:Hitem; [|done..].
  by rewrite (Hsub item) by (done || left).
Qed.

(** A loop that ends without exception built a tree for every visible
    directory. *)
Lemma build_children_sub sub items ts item :
  build_children self fs sub items = Some (ts, None) ->
  item ∈ items ->
  startswith (str ".") (name item) = false ->
  fs !! item = Some Dir ->
  exists t, sub item = Some (inr t).
Proof.
  revert ts. induction items as [|it items IH]; intros ts Hb Hin Hh Hd;
    [by apply elem_of_nil in Hin|].
  cbn [build_children] in Hb.
  apply elem_of_cons in Hin as [->|Hin].
  - rewrite Hh in Hb. destruct (may_stat it); cbn [negb] in Hb; [|done].
    rewrite Hd in Hb. destruct (sub it) as [[e|t]|]; try done. by eexists.
  - destruct (startswith (str ".") (name it)); [by eapply IH|].
    destruct (may_stat it); cbn [negb] in Hb; [|done].
    destruct (fs !! it) as [[|d]|].
    + destruct (sub it) as [[e|t]|]; try done.
      destruct (build_children self fs sub items) as [[ts' raised']|]; try done.
      injection Hb as <- ->. by eapply IH.
    + destruct (decide (suffix it = str ".md")); [|by eapply IH].
      destruct (build_children self fs sub items) as [[ts' raised']|]; try done.
      injection Hb as <- ->. by eapply IH.
    + destruct (decide (suffix it = str ".md")); [|by eapply IH].
      destruct (build_children self fs sub items) as [[ts' raised']|]; try done.
      injection Hb as <- ->. by eapply IH.
Qed.

(** What the loop raises comes from an entry that may not be examined or
    from the tree of a directory. *)
Lemma build_children_raised sub items ts e :
  build_children self fs sub items = Some (ts, Some e) ->
  exists item,
    item ∈ items
    /\ (may_stat item = false
        \/ (fs !! item = Some Dir /\ sub item = Some (inl e))).
Proof.
  revert ts. induction items as [|it items IH]; intros ts Hb; [done|].
  assert (Hrest : forall ts',
    build_children self fs sub items = Some (ts', Some e) ->
    exists item, item ∈ it :: items
      /\ (may_stat item = false
          \/ (fs !! item = Some Dir /\ sub item = Some (inl e)))).
  { intros ts' Hb'. destruct (IH _ Hb') as (item & Hin & Hc).
    exists item. split; [by right|done]. }
  cbn [build_children] in Hb.
  destruct (startswith (str ".") (name it)); [by eapply Hrest|].
  destruct (may_stat it) eqn:Hst; cbn [negb] in Hb;
    [|exists it; split; [left|by left]].
  destruct (fs !! it) as [[|d]|] eqn:Hit.
  - destruct (sub it) as [[e'|t]|] eqn:Hsub; try done.
    + injection Hb as <- <-. exists it. split; [left|]. by right.
    + destruct (build_children self fs sub items) as [[ts' raised']|]; try done.
      injection Hb as <- ->. by eapply Hrest.
  - destruct (decide (suffix it = str ".md")); [|by eapply Hrest].
    destruct (build_children self fs sub items) as [[ts' raised']|]; try done.
    injection Hb as <- ->. by eapply Hrest.
  - destruct (decide (suffix it = str ".md")); [|by eapply Hrest].
    destruct (build_children self fs sub items) as [[ts' raised']|]; try done.
    injection Hb as <- ->. by eapply Hrest.
Qed.

(** Every note below the children built comes from a visible entry, also
    when an exception ended the loop. *)
Lemma build_children_sound sub items ts raised :
  build_children self fs sub items = Some (ts, raised) ->
  forall x,
    x ∈ flat_map notes_of ts ->
    exists item,
      item ∈ items /\ startswith (str ".") (name item) = false
      /\ ((fs !! item = Some Dir
           /\ exists t, sub item = Some (inr t) /\ x ∈ notes_of t)
          \/ (fs !! item <> Some Dir /\ suffix item = str ".md"
              /\ x = rel_posix self item)).
Proof.
  revert ts. induction items as [|item items IH]; intros ts.
  { intros [= <- <-] x Hx. by apply elem_of_nil in Hx. }
  assert (Hrest : forall ts' x,
    build_children self fs sub items = Some (ts', raised) ->
    x ∈ flat_map notes_of ts' ->
    exists it,
      it ∈ item :: items /\ startswith (str ".") (name it) = false
      /\ ((fs !! it = Some Dir
           /\ exists t, sub it = Some (inr t) /\ x ∈ notes_of t)
          \/ (fs !! it <> Some Dir /\ suffix it = str ".md"
              /\ x = rel_posix self it))).
  { intros ts' x Hb Hx. destruct (IH _ Hb x Hx) as (it & Hin & Hc).
    exists it. split; [by right|done]. }
  cbn [build_children].
  destruct (startswith (str ".") (name item)) eqn:Hh.
  { intros Hb x Hx. by eapply Hrest. }
  destruct (may_stat item); cbn [negb];
    [|by intros [= <- <-] x Hx%elem_of_nil].
  destruct (fs !! item) as [[|d]|] eqn:Hitem.
  - destruct (sub item) as [[e|t]|] eqn:Hsub; try done.
    { by intros [= <- <-] x Hx%elem_of_nil. }
    destruct (build_children self fs sub items) as [[ts' raised']|] eqn:Hb;
      try done.
    intros [= <- <-] x. cbn [flat_map]. rewrite elem_of_app.
    intros [Hx|Hx]; [|by eapply Hrest].
    exists item. split; [left|]. split; [done|]. left. eauto.
  - destruct (decide (suffix item = str ".md")) as [Hsuf|Hsuf].
    + destruct (build_children self fs sub items) as [[ts' raised']|] eqn:Hb;
        try done.
      intros [= <- <-] x. cbn [flat_map notes_of]. rewrite elem_of_app.
      intros [->%list_elem_of_singleton|Hx]; [|by eapply Hrest].
      exists item. split; [left|]. split; [done|]. right. by rewrite Hitem.
    + intros Hb x Hx. by eapply Hrest.
  - destruct (decide (suffix item = str ".md")) as [Hsuf|Hsuf].
    + destruct (build_children self fs sub items) as [[ts' raised']|] eqn:Hb;
        try done.
      intros [= <- <-] x. cbn [flat_map notes_of]. rewrite elem_of_app.
      intros [->%list_elem_of_singleton|Hx]; [|by eapply Hrest].
      exists item. split; [left|]. split; [done|]. right. by rewrite Hitem.
    + intros Hb x Hx. by eapply Hrest.
Qed.

(** When the loop ends without exception, every visible entry has its
    notes below the children built. *)
Lemma build_children_complete sub items ts item x :
  build_children self fs sub items = Some (ts, None) ->
  item ∈ items ->
  startswith (str ".") (name item) = false ->
  (fs !! item = Some Dir /\ exists t, sub item = Some (inr t) /\ x ∈ notes_of t)
  \/ (fs !! item <> Some Dir /\ suffix item = str ".md"
      /\ x = rel_posix self item) ->
  x ∈ flat_map notes_of ts.
Proof.
  revert ts. induction items as [|it items IH]; intros ts Hb Hin Hh Hc;
    [by apply elem_of_nil in Hin|].
  cbn [build_children] in Hb.
  destruct (startswith (str ".") (name it)) eqn:Hhit.
  { apply elem_of_cons in Hin as [->|Hin]; [congruence|]. by eapply IH. }
  destruct (may_stat it); cbn [negb] in Hb; [|done].
  destruct (fs !! it) as [[|d]|] eqn:Hit.
  - destruct (sub it) as [[e|t]|] eqn:Hsub; try done.
    destruct (build_children self fs sub items) as [[ts' raised']|] eqn:Hb';
      try done.
    injection Hb as <- ->. cbn [flat_map]. rewrite elem_of_app.
    apply elem_of_cons in Hin as [->|Hin]; [|right; by eapply IH].
    left. destruct Hc as [(_ & t' & Ht' & Hx)|(Hnd & _)]; [|done].
    rewrite Hsub in Ht'. by injection Ht' as <-.
  - destruct (decide (suffix it = str ".md")) as [Hsuf|Hsuf].
    + destruct (build_children self fs sub items) as [[ts' raised']|] eqn:Hb';
        try done.
      injection Hb as <- ->. cbn [flat_map notes_of]. rewrite elem_of_app.
      apply elem_of_cons in Hin as [->|Hin]; [|right; by eapply IH].
      left. destruct Hc as [(Hd & _)|(_ & _ & ->)]; [congruence|].
      by apply list_elem_of_singleton.
    + apply elem_of_cons in Hin as [->|Hin]; [|by eapply IH].
      destruct Hc as [(Hd & _)|(_ & ? & _)]; congruence.
  - destruct (decide (suffix it = str ".md")) as [Hsuf|Hsuf].
    + destruct (build_children self fs sub items) as [[ts' raised']|] eqn:Hb';
        try done.
      injection Hb as <- ->. cbn [flat_map notes_of]. rewrite elem_of_app.
      apply elem_of_cons in Hin as [->|Hin]; [|right; by eapply IH].
      left. destruct Hc as [(Hd & _)|(_ & _ & ->)]; [congruence|].
      by apply list_elem_of_singleton.
    + apply elem_of_cons in Hin as [->|Hin]; [|by eapply IH].
      destruct Hc as [(Hd & _)|(_ & ? & _)]; congruence.
Qed.

End VaultStructure.

Section BuildTree.
Context {A : Access} (self : VaultManager) (fs : fsys).

Lemma build_tree_not_dir fuel p :
  fs !! p <> Some Dir ->
  exists e, build_tree (S fuel) self fs p = Some (inl e).
Proof.
  intros Hp. cbn [build_tree]. unfold iterdir.
  destruct (fs !! p) as [[|d]|]; [done|by eexists..].
Qed.

(** [build_tree] never raises [PermissionError]. *)
Lemma build_tree_handles fuel p msg :
  build_tree fuel self fs p <> Some (inl (PermissionError msg)).
Proof.
  destruct fuel as [|f]; [done|]. cbn [build_tree].
  destruct ((iterdir p fs).2) as [[]|items]; try done.
  destruct (build_children self fs (build_tree f self fs)
              (sorted_lt path_lt items)) as [[ts [[]|]]|]; done.
Qed.

(** A directory that may not be listed is returned without children. *)
Lemma build_tree_unlisted fuel p :
  fs !! p = Some Dir -> may_list p = false ->
  build_tree (S fuel) self fs p
  = Some (inr (Directory (match name p with
                          | [] => name (vault_path self)
                          | n => n
                          end) [])).
Proof.
  intros Hp Hl. cbn [build_tree]. unfold iterdir. by rewrite Hp, Hl.
Qed.

(** On a directory the recursion ends within the fuel, with a tree. *)
Lemma build_tree_total fuel p :
  fs !! p = Some Dir ->
  depth fs < fuel + length p ->
  exists t, build_tree fuel self fs p = Some (inr t).
Proof.
  revert p. induction fuel as [|f IH]; intros p Hp Hfuel.
  { apply depth_le in Hp. lia. }
  cbn [build_tree].
  destruct ((iterdir p fs).2) as [e|items] eqn:Hit.
  { apply iterdir_error in Hit as [[Hnd _]|(_ & _ & ->)]; [done|by eexists]. }
  apply elem_of_iterdir in Hit as [_ Hitems].
  destruct (build_children_all self fs (build_tree f self fs)
              (sorted_lt path_lt items)) as (ts & raised & -> & Hraised).
  - intros item Hin Hd. rewrite sorted_lt_perm in Hin.
    apply Hitems in Hin as (n & -> & _). apply IH; [done|].
    rewrite length_app. simpl. lia.
  - destruct Hraised as [->|[msg ->]]; by eexists.
Qed.

(** With enough fuel, the result does not depend on it. *)
Lemma build_tree_fuel f1 f2 p :
  depth fs < f1 + length p -> depth fs < f2 + length p ->
  0 < f1 -> 0 < f2 ->
  build_tree f1 self fs p = build_tree f2 self fs p.
Proof.
  revert f2 p. induction f1 as [|f1 IH]; intros f2 p H1 H2 Hf1 Hf2; [lia|].
  destruct f2 as [|f2]; [lia|]. cbn [build_tree].
  destruct ((iterdir p fs).2) as [e|items] eqn:Hit; [done|].
  apply elem_of_iterdir in Hit as [_ Hitems].
  rewrite (build_children_ext self fs (build_tree f1 self fs)
             (build_tree f2 self fs)); [done|].
  intros item Hin Hd. rewrite sorted_lt_perm in Hin.
  apply Hitems in Hin as (n & -> & _).
  pose proof (depth_le _ _ _ Hd) as Hlen. rewrite length_app in Hlen.
  simpl in Hlen. apply IH; rewrite ?length_app; simpl; lia.
Qed.

(** Every note of the tree is a visible note, whatever may not be listed
    or examined. *)
Lemma build_tree_sound fuel p t x :
  build_tree fuel self fs p = Some (inr t) ->
  x ∈ notes_of t ->
  exists rel, visible_note fs p rel /\ x = rel_posix self (p ++ rel).
Proof.
  revert p t x. induction fuel as [|f IH]; intros p t x; [done|].
  cbn [build_tree].
  destruct ((iterdir p fs).2) as [e|items] eqn:Hit.
  { destruct e; try done. intros [= <-] Hx. by apply elem_of_nil in Hx. }
  apply elem_of_iterdir in Hit as [Hdir Hitems].
  destruct (build_children self fs (build_tree f self fs)
              (sorted_lt path_lt items)) as [[ts raised]|] eqn:Hb; [|done].
  intros Ht Hx.
  assert (Hxs : x ∈ flat_map notes_of ts).
  { destruct raised as [[]|]; try done; by injection Ht as <-. }
  destruct (build_children_sound _ _ _ _ _ _ Hb x Hxs) as (item & Hin & Hh & Hc).
  rewrite sorted_lt_perm in Hin.
  apply Hitems in Hin as (n & -> & [v Hv]). rewrite name_snoc in Hh.
  destruct Hc as [(Hd & t' & Ht' & Hx')|(Hnd & Hsuf & ->)].
  - apply (IH _ _ _ Ht') in Hx' as (rel' & Hvis & ->).
    exists (n :: rel'). split; [|by rewrite <- app_assoc].
    cbn [visible_note]. split; [done|]. by destruct rel'.
  - exists [n]. split; [|done]. cbn [visible_note]. split; [done|].
    split; [|done]. destruct v as [|data]; [done|]. eauto.
Qed.

(** Where every entry may be listed and examined, every visible note is in
    the tree. *)
Lemma build_tree_complete fuel p t rel :
  permitted fs ->
  build_tree fuel self fs p = Some (inr t) ->
  visible_note fs p rel ->
  rel_posix self (p ++ rel) ∈ notes_of t.
Proof.
  intros Hperm. revert p t rel. induction fuel as [|f IH]; intros p t rel; [done|].
  cbn [build_tree].
  destruct ((iterdir p fs).2) as [e|items] eqn:Hit.
  { apply iterdir_error in Hit as [[_ Hne]|(Hd & Hl & ->)].
    - destruct e; try done. by destruct (Hne msg).
    - destruct (Hperm p) as [Hl' _]; [by eauto|]. congruence. }
  apply elem_of_iterdir in Hit as [Hdir Hitems].
  destruct (build_children self fs (build_tree f self fs)
              (sorted_lt path_lt items)) as [[ts raised]|] eqn:Hb; [|done].
  destruct raised as [e|].
  { intros Ht _. exfalso.
    destruct (build_children_raised _ _ _ _ _ _ Hb) as (item & Hin & Hc).
    rewrite sorted_lt_perm in Hin. apply Hitems in Hin as (n & -> & Hsome).
    destruct Hc as [Hst|(Hd & Hsub)].
    - destruct (Hperm _ Hsome) as [_ Hst']. congruence.
    - destruct e; try done. by apply build_tree_handles in Hsub. }
  intros [= <-] Hvis. cbn [notes_of].
  destruct rel as [|n rel']; [done|].
  cbn [visible_note] in Hvis. destruct Hvis as [Hh Hrest].
  apply (build_children_complete _ _ _ _ _ (p ++ [n]) _ Hb).
  - rewrite sorted_lt_perm. apply Hitems. exists n. split; [done|].
    destruct rel' as [|m rel'']; [destruct Hrest as [[data Hf] _]|destruct Hrest];
      eauto.
  - by rewrite name_snoc.
  - destruct rel' as [|m rel''].
    + destruct Hrest as [[data Hf] Hsuf]. right. split; [congruence|]. done.
    + destruct Hrest as [Hd Hvis']. left. split; [done|].
      destruct (build_children_sub _ _ _ _ _ (p ++ [n]) Hb) as [t' Ht'].
      * rewrite sorted_lt_perm. apply Hitems. eauto.
      * by rewrite name_snoc.
      * done.
      * exists t'. split; [done|].
        replace (p ++ n :: m :: rel'') with ((p ++ [n]) ++ m :: rel'')
          by (by rewrite <- app_assoc).
        by apply (IH _ _ (m :: rel'') Ht').
Qed.

End BuildTree.

(** X21.  [get_vault_structure] always returns: the recursion of
    [build_tree] ends within the fuel it is given, and any larger fuel gives
    the same result. The result is a tree when the vault root is a
    directory, and the error of [iterdir] when it is not. *)
Theorem get_vault_structure_returns {A : Access} (self : VaultManager)
    (fs : fsys) :
  (exists r, get_vault_structure self fs = Some r)
  /\ (forall fuel, depth fs < fuel ->
        build_tree fuel self fs (vault_path self) = get_vault_structure self fs)
  /\ (fs !! vault_path self = Some Dir ->
      exists t, get_vault_structure self fs = Some (inr t))
  /\ (fs !! vault_path self <> Some Dir ->
      exists e, get_vault_structure self fs = Some (inl e)).
Proof.
  unfold get_vault_structure.
  assert (Hdir : fs !! vault_path self = Some Dir ->
                 exists t, build_tree (S (depth fs)) self fs (vault_path self)
                           = Some (inr t)).
  { intros Hd. apply build_tree_total; [done|lia]. }
  assert (Hnot : fs !! vault_path self <> Some Dir ->
                 exists e, build_tree (S (depth fs)) self fs (vault_path self)
                           = Some (inl e)).
  { apply build_tree_not_dir. }
  split; [|split; [|split]]; [| |done|done].
  - destruct (fs !! vault_path self) as [[|d]|] eqn:Hd.
    + destruct (Hdir eq_refl) as [t ->]. by eexists.
    + destruct Hnot as [e ->]; [done|]. by eexists.
    + destruct Hnot as [e ->]; [done|]. by eexists.
  - intros fuel Hfuel. apply build_tree_fuel; lia.
Qed.

Lemma get_vault_structure_returns_witness :
  (exists t, get_vault_structure (A := unrestricted) Demo.self Demo.fs_hidden
             = Some (inr t))
  /\ build_tree (A := unrestricted) 10 Demo.self Demo.fs_hidden
       (vault_path Demo.self)
     = get_vault_structure (A := unrestricted) Demo.self Demo.fs_hidden.
Proof.
  split.
  - apply (proj1 (proj2 (proj2 (get_vault_structure_returns (A := unrestricted)
                                  Demo.self Demo.fs_hidden)))).
    vm_compute. reflexivity.
  - apply (proj1 (proj2 (get_vault_structure_returns (A := unrestricted)
                           Demo.self Demo.fs_hidden))).
    vm_compute. lia.
Defined.

(** X22.  The notes that [get_vault_structure] shows are visible notes of
    the vault: a path that is shown leads from the root through directories
    to a file with the suffix [.md], and no component on the way, the file
    included, has a name that starts with a dot.  Where every entry of the
    vault may be listed and examined, the notes shown are exactly the
    visible notes.  A root that may not be listed is returned without
    children. *)
Theorem get_vault_structure_notes {A : Access} (self : VaultManager)
    (fs : fsys) (t : tree) :
  get_vault_structure self fs = Some (inr t) ->
  (forall x, x ∈ notes_of t ->
     exists rel, visible_note fs (vault_path self) rel /\ x = as_posix rel)
  /\ (permitted fs ->
      forall x,
        x ∈ notes_of t
        <-> exists rel, visible_note fs (vault_path self) rel /\ x = as_posix rel)
  /\ (may_list (vault_path self) = false -> exists n, t = Directory n []).
Proof.
  unfold get_vault_structure. intros Ht.
  assert (Hposix : forall rel,
    rel_posix self (vault_path self ++ rel) = as_posix rel).
  { intros rel. unfold rel_posix.
    by rewrite (proj2 (relative_to_Some _ _ rel) eq_refl). }
  assert (Hsound : forall x, x ∈ notes_of t ->
    exists rel, visible_note fs (vault_path self) rel /\ x = as_posix rel).
  { intros x Hx.
    destruct (build_tree_sound _ _ _ _ _ _ Ht Hx) as (rel & Hvis & ->).
    exists rel. by rewrite Hposix. }
  split; [done|]. split.
  - intros Hperm x. split; [apply Hsound|].
    intros (rel & Hvis & ->). rewrite <- Hposix.
    by apply (build_tree_complete _ _ _ _ _ _ Hperm Ht).
  - intros Hl. destruct (fs !! vault_path self) as [[|d]|] eqn:Hroot.
    + rewrite build_tree_unlisted in Ht by done. injection Ht as <-. by eexists.
    + destruct (build_tree_not_dir self fs (depth fs) (vault_path self))
        as [e He]; [congruence|]. congruence.
    + destruct (build_tree_not_dir self fs (depth fs) (vault_path self))
        as [e He]; [congruence|]. congruence.
Qed.

Example get_vault_structure_demo :
  get_vault_structure (A := unrestricted) Demo.self Demo.fs_hidden
  = Some (inr (Directory (str "vault")
      [Note (str "Broken.md") (str "Broken.md");
       Directory (str "Daily")
         [Note (str "2024-01-01.md") (str "Daily/2024-01-01.md")];
       Directory (str "Projects")
         [Note (str "Project A.md") (str "Projects/Project A.md");
          Note (str "Project B.md") (str "Projects/Project B.md")];
       Note (str "README.md") (str "README.md");
       Note (str "Untagged.md") (str "Untagged.md")])).
Proof. vm_compute. reflexivity. Qed.

(** A directory that may not be listed is shown without children, and so
    is one whose entries may not be examined; the entries before it in the
    listing are kept, and the listing goes on after it. *)
Example get_vault_structure_locked :
  get_vault_structure (A := Demo.locked) Demo.self Demo.fs_hidden
  = Some (inr (Directory (str "vault")
      [Note (str "Broken.md") (str "Broken.md");
       Directory (str "Daily")
         [Note (str "2024-01-01.md") (str "Daily/2024-01-01.md")];
       Directory (str "Projects") [];
       Note (str "README.md") (str "README.md");
       Note (str "Untagged.md") (str "Untagged.md")]))
  /\ get_vault_structure (A := Demo.unsearchable) Demo.self Demo.fs_hidden
     = get_vault_structure (A := Demo.locked) Demo.self Demo.fs_hidden.
Proof. split; vm_compute; reflexivity. Qed.

Lemma get_vault_structure_notes_witness :
  let t := Directory (str "vault")
      [Note (str "Broken.md") (str "Broken.md");
       Directory (str "Daily")
         [Note (str "2024-01-01.md") (str "Daily/2024-01-01.md")];
       Directory (str "Projects")
         [Note (str "Project A.md") (str "Projects/Project A.md");
          Note (str "Project B.md") (str "Projects/Project B.md")];
       Note (str "README.md") (str "README.md");
       Note (str "Untagged.md") (str "Untagged.md")] in
  (exists rel, visible_note Demo.fs_hidden (vault_path Demo.self) rel
               /\ str "Projects/Project A.md" = as_posix rel)
  /\ ~ (exists rel, visible_note Demo.fs_hidden (vault_path Demo.self) rel
                    /\ str ".obsidian/config.md" = as_posix rel).
Proof.
  intros t.
  destruct (get_vault_structure_notes (A := unrestricted) Demo.self
              Demo.fs_hidden t ltac:(vm_compute; reflexivity))
    as (Hsound & Hexact & _).
  assert (Hperm : permitted (A := unrestricted) Demo.fs_hidden) by done.
  split.
  - apply Hsound, list_elem_of_lookup. by exists 2.
  - intros Hshown. apply (Hexact Hperm), list_elem_of_In in Hshown.
    simpl in Hshown. intuition discriminate.
Defined.

(** ** Spellings of a path, and paths that are not notes *)

Section Spellings.

Lemma split_on_cons sep s : exists w ws, split_on sep s = w :: ws.
Proof.
  induction s as [|c s (w & ws & IH)]; [by eexists _, _|]. simpl.
  destruct (decide (c = sep)); [by eexists _, _|]. rewrite IH. by eexists _, _.
Qed.

Lemma split_on_app sep a b :
  split_on sep (a ++ sep :: b) = split_on sep a ++ split_on sep b.
Proof.
  induction a as [|c a IH]; simpl.
  - by rewrite decide_True.
  - destruct (decide (c = sep)); [by rewrite IH|].
    rewrite IH. by destruct (split_on_cons sep a) as (w & ws & ->).
Qed.

Lemma parts_app a b : parts (a ++ "/"%char :: b) = parts a ++ parts b.
Proof. unfold parts. by rewrite split_on_app, filter_app. Qed.

Lemma parts_slash s : parts ("/"%char :: s) = parts s.
Proof. apply (parts_app [] s). Qed.

Lemma parts_lstrip s : parts (lstrip "/" s) = parts s.
Proof.
  induction s as [|c s IH]; [done|]. simpl.
  destruct (decide (c = "/"%char)) as [->|]; [|done]. by rewrite parts_slash.
Qed.

End Spellings.

(** X12.  [_resolve_path] reads a path by its components: two inputs with
    the same components resolve to the same path, or both fail. Leading,
    doubled and trailing separators and [.] components add no component, so
    they make no difference. *)
Theorem resolve_path_ignores_spelling {P : Platform} (self : VaultManager) :
  (forall s1 s2, parts s1 = parts s2 ->
     forall q, _resolve_path self s1 = inr q <-> _resolve_path self s2 = inr q)
  /\ (forall a b, parts (a ++ "/"%char :: b) = parts a ++ parts b)
  /\ (forall s, parts ("/"%char :: s) = parts s)
  /\ parts [] = [] /\ parts (str ".") = [].
Proof.
  split; [|split; [apply parts_app|split; [apply parts_slash|done]]].
  intros s1 s2 Hparts q. unfold _resolve_path.
  rewrite !parts_lstrip, Hparts.
  by destruct (relative_to _ _).
Qed.

Lemma resolve_path_ignores_spelling_witness :
  _resolve_path (P := Demo.os) Demo.self (str "//./Daily//2024-01-01.md/")
  = inr [str "vault"; str "Daily"; str "2024-01-01.md"].
Proof.
  apply (proj1 (proj1 (resolve_path_ignores_spelling (P := Demo.os) Demo.self)
                  (str "Daily/2024-01-01.md") (str "//./Daily//2024-01-01.md/")
                  ltac:(vm_compute; reflexivity)
                  [str "vault"; str "Daily"; str "2024-01-01.md"])).
  vm_compute. reflexivity.
Defined.

(** X11.  A path that names a directory, or a file whose bytes do not
    decode: [create_note] raises [NoteAlreadyExistsError]; reading and
    rewriting raise the error of [read_text] - [IsADirectoryError] for the
    directory, [UnicodeDecodeError] for the file - and never
    [NoteNotFoundError]; nothing is written. *)
Theorem operations_on_other_entries {Y : Yaml} {P : Platform}
    (self : VaultManager) (p : text) (q : path) (n : node) (fs : fsys) :
  _resolve_path self p = inr q ->
  fs !! q = Some n ->
  n = Dir \/ n = File None ->
  let e := match n with
           | Dir => IsADirectoryError (render q)
           | File _ => UnicodeDecodeError (render q)
           end in
  read_note self p fs = (fs, inl e)
  /\ read_frontmatter self p fs = (fs, inl e)
  /\ (forall content_, edit_note self p content_ fs = (fs, inl e))
  /\ (forall fields, update_frontmatter self p fields fs = (fs, inl e))
  /\ (forall content_ fm,
        create_note self p content_ fm fs
        = (fs, inl (FileExistsError (str "Note already exists: " ++ p)))).
Proof.
  intros Hq Hn Hkind e.
  assert (Hread : read_text q fs = (fs, inl e)).
  { unfold read_text. rewrite Hn. by destruct Hkind as [-> | ->]. }
  assert (Hex : bool_decide (is_Some (fs !! q)) = true).
  { apply bool_decide_eq_true. eauto. }
  unfold read_note, read_frontmatter, edit_note, update_frontmatter,
    bind, lift, raise, ret, exists_.
  rewrite Hq. cbn [fst snd]. rewrite Hex. cbn [negb]. rewrite Hread.
  split; [done|]. split; [done|]. split; [done|]. split; [done|].
  intros content_ fm. by eapply create_note_existing.
Qed.

Lemma operations_on_other_entries_witness :
  read_note (P := Demo.os) Demo.self (str "Projects") Demo.fs
  = (Demo.fs, inl (IsADirectoryError (str "/vault/Projects")))
  /\ forall content_,
       edit_note (Y := plain_yaml) (P := Demo.os) Demo.self (str "Projects")
         content_ Demo.fs
       = (Demo.fs, inl (IsADirectoryError (str "/vault/Projects"))).
Proof.
  pose proof (operations_on_other_entries (Y := plain_yaml) (P := Demo.os)
                Demo.self (str "Projects") [str "vault"; str "Projects"] Dir
                Demo.fs ltac:(vm_compute; reflexivity)
                ltac:(vm_compute; reflexivity) (or_introl eq_refl))
    as (Hread & _ & Hedit & _).
  split; [exact Hread|exact Hedit].
Defined.

(** ** What the scans find, a search finds *)

Section Searchable.
Context {P : Platform}.





End Searchable.



(** ** The file system stays well formed *)

Section WellFormed.
Context (base : path).

Lemma well_formed_parent fs q l n :
  well_formed base fs -> fs !! q = Some n -> q = base ++ l -> l <> [] ->
  fs !! parent q = Some Dir.
Proof.
  intros Hwf Hq Hl Hne. specialize (Hwf q n Hq). unfold in_directory in Hwf.
  rewrite (proj2 (relative_to_Some q base l) Hl) in Hwf.
  destruct l; [done|]. by destruct (fs !! parent q) as [[|d]|].
Qed.

Lemma well_formed_intro fs :
  (forall q l n, fs !! q = Some n -> q = base ++ l -> l <> [] ->
     fs !! parent q = Some Dir) ->
  well_formed base fs.
Proof.
  intros Hfs q n Hq. unfold in_directory.
  destruct (relative_to q base) as [[|c l]|] eqn:Hrel; [done| |done].
  apply relative_to_Some in Hrel. by rewrite (Hfs _ _ _ Hq Hrel).
Qed.

Lemma well_formed_insert_new fs p n :
  well_formed base fs -> fs !! p = None -> fs !! parent p = Some Dir ->
  well_formed base (<[p := n]> fs).
Proof.
  intros Hwf Hp Hparent. apply well_formed_intro. intros q l m Hq Hl Hne.
  destruct (decide (q = p)) as [->|Hqp].
  - rewrite lookup_insert_ne by congruence. done.
  - rewrite lookup_insert_ne in Hq by done.
    pose proof (well_formed_parent _ _ _ _ Hwf Hq Hl Hne) as Hdir.
    rewrite lookup_insert_ne by congruence. done.
Qed.

Lemma well_formed_insert_file fs p d d' :
  well_formed base fs -> fs !! p = Some (File d) ->
  well_formed base (<[p := File d']> fs).
Proof.
  intros Hwf Hp. apply well_formed_intro. intros q l m Hq Hl Hne.
  assert (Hdir : fs !! parent q = Some Dir).
  { destruct (decide (q = p)) as [->|Hqp].
    - by eapply well_formed_parent.
    - rewrite lookup_insert_ne in Hq by done. by eapply well_formed_parent. }
  rewrite lookup_insert_ne by congruence. done.
Qed.

Lemma mkdir_rev_well_formed rp fs fs' :
  well_formed base fs -> mkdir_rev rp fs = (fs', inr ()) -> well_formed base fs'.
Proof.
  revert fs fs'. induction rp as [|c rp IH]; intros fs fs' Hwf; cbn [mkdir_rev].
  - destruct (os_mkdir (rev []) fs) as [fs1 [e|[]]] eqn:Hmk.
    + destruct e;
        first [by destruct (fs !! rev []) as [[|d]|]; intros [= <-]|done].
    + apply os_mkdir_inv in Hmk as (Hnone & Hpar & ->). intros [= <-].
      by apply well_formed_insert_new.
  - destruct (os_mkdir (rev (c :: rp)) fs) as [fs1 [e|[]]] eqn:Hmk.
    + destruct e;
        try (by destruct (fs !! rev (c :: rp)) as [[|d]|]; intros [= <-]).
      apply os_mkdir_not_found in Hmk.
      destruct (mkdir_rev rp fs) as [fs2 [e2|[]]] eqn:Hrec; [done|].
      pose proof (IH _ _ Hwf Hrec) as Hwf2.
      apply mkdir_rev_inv in Hrec as [Hdir Hframe].
      assert (Hp2 : fs2 !! rev (c :: rp) = None).
      { rewrite Hframe; [done|]. simpl. apply snoc_not_prefix. }
      unfold mkdir_exist_ok, os_mkdir. rewrite Hp2.
      simpl rev. rewrite parent_snoc, Hdir. intros [= <-].
      apply well_formed_insert_new; [done|done|]. by rewrite parent_snoc.
    + apply os_mkdir_inv in Hmk as (Hnone & Hpar & ->). intros [= <-].
      by apply well_formed_insert_new.
Qed.

Lemma well_formed_ancestor fs l0 l n :
  well_formed base fs -> fs !! (base ++ l0 ++ l) = Some n -> l <> [] ->
  l0 <> [] ->
  fs !! (base ++ l0) = Some Dir.
Proof.
  intros Hwf. revert n. induction l as [|c l IH] using rev_ind;
    intros n Hl Hne Hl0; [done|].
  assert (Hpar : fs !! (base ++ l0 ++ l) = Some Dir).
  { pose proof (well_formed_parent _ _ (l0 ++ l ++ [c]) _ Hwf Hl eq_refl) as Hpar.
    rewrite !app_assoc, parent_snoc in Hpar. rewrite app_assoc.
    apply Hpar. rewrite <- !app_assoc. by destruct l0. }
  destruct (decide (l = [])) as [->|Hl'].
  - by rewrite app_nil_r in Hpar.
  - by apply (IH Dir).
Qed.

(** In a well-formed file system a visible file with the suffix [.md] is
    a note the structure shows. *)
Lemma visible_note_well_formed fs l0 rel data :
  well_formed base fs ->
  fs !! (base ++ l0 ++ rel) = Some (File data) ->
  rel <> [] ->
  Forall (fun n => startswith (str ".") n = false) rel ->
  suffix (base ++ l0 ++ rel) = str ".md" ->
  visible_note fs (base ++ l0) rel.
Proof.
  intros Hwf. revert l0. induction rel as [|n rel IH]; intros l0 Hf Hne Hvis Hsuf;
    [done|].
  apply Forall_cons in Hvis as [Hn Hvis]. cbn [visible_note]. split; [done|].
  destruct rel as [|m rel].
  - rewrite <- app_assoc. split; [by eexists|done].
  - change (n :: m :: rel) with ([n] ++ m :: rel) in *.
    rewrite (app_assoc l0) in Hf, Hsuf. rewrite <- (app_assoc base). split.
    + apply (well_formed_ancestor fs _ (m :: rel) (File data)); [done..|].
      by destruct l0.
    + by apply IH.
Qed.

End WellFormed.

Section WellFormedOperations.
Context {Y : Yaml} {P : Platform}.

Lemma create_note_well_formed base self p content_ fm fs fs' r :
  well_formed base fs -> create_note self p content_ fm fs = (fs', r) ->
  well_formed base fs'.
Proof.
  intros Hwf Hc. destruct (_resolve_path self p) as [e|q] eqn:Hq.
  { unfold create_note, bind, lift, raise in Hc. rewrite Hq in Hc.
    by injection Hc as <- _. }
  destruct (create_note_inv _ _ _ _ _ _ _ _ Hq Hc)
    as [(_ & -> & _)|[(_ & -> & _)|(Hn & _ & fs1 & Hmk & ->)]]; [done|done|].
  assert (Hwf1 : well_formed base fs1) by (by eapply mkdir_rev_well_formed).
  destruct (exists_last_or_nil q) as [->|(l & c & ->)].
  { apply mkdir_root_inv in Hmk. congruence. }
  rewrite parent_snoc in Hmk. apply mkdir_parents_inv in Hmk as [Hdir Hframe].
  apply well_formed_insert_new; [done| |by rewrite parent_snoc].
  rewrite Hframe; [done|]. apply snoc_not_prefix.
Qed.

Lemma edit_note_inv self p content_ fs fs' r :
  edit_note self p content_ fs = (fs', r) ->
  fs' = fs \/ exists q d s, fs !! q = Some (File d)
                            /\ fs' = <[q := File (Some s)]> fs.
Proof.
  unfold edit_note, bind, lift, raise, ret, exists_.
  destruct (_resolve_path self p) as [e|q]; [intros [= <- _]; by left|].
  cbn [fst snd]. destruct (bool_decide (is_Some (fs !! q))); cbn [negb];
    [|intros [= <- _]; by left].
  unfold read_text, write_text.
  destruct (fs !! q) as [[|[s|]]|] eqn:Hq; try (intros [= <- _]; by left).
  destruct (parse s) as [e|res]; [intros [= <- _]; by left|].
  rewrite Hq. intros [= <- _]. right. eauto.
Qed.

Lemma update_frontmatter_inv self p fields fs fs' r :
  update_frontmatter self p fields fs = (fs', r) ->
  fs' = fs \/ exists q d s, fs !! q = Some (File d)
                            /\ fs' = <[q := File (Some s)]> fs.
Proof.
  unfold update_frontmatter, bind, lift, raise, ret, exists_.
  destruct (_resolve_path self p) as [e|q]; [intros [= <- _]; by left|].
  cbn [fst snd]. destruct (bool_decide (is_Some (fs !! q))); cbn [negb];
    [|intros [= <- _]; by left].
  unfold read_text, write_text.
  destruct (fs !! q) as [[|[s|]]|] eqn:Hq; try (intros [= <- _]; by left).
  destruct (update s fields) as [e|res]; [intros [= <- _]; by left|].
  rewrite Hq. intros [= <- _]. right. eauto.
Qed.

End WellFormedOperations.

(** X24.  The three operations that write keep the vault well formed:
    whatever they return, every entry below the vault root still lies in a
    directory afterwards. *)
Theorem operations_keep_well_formed {Y : Yaml} {P : Platform}
    (self : VaultManager) (fs : fsys) :
  well_formed (vault_path self) fs ->
  (forall p content_ fm fs' r,
     create_note self p content_ fm fs = (fs', r) ->
     well_formed (vault_path self) fs')
  /\ (forall p content_ fs' r,
        edit_note self p content_ fs = (fs', r) ->
        well_formed (vault_path self) fs')
  /\ (forall p fields fs' r,
        update_frontmatter self p fields fs = (fs', r) ->
        well_formed (vault_path self) fs').
Proof.
  intros Hwf. split; [|split].
  - intros p content_ fm fs' r. by apply create_note_well_formed.
  - intros p content_ fs' r [->|(q & d & s & Hq & ->)]%edit_note_inv; [done|].
    by eapply well_formed_insert_file.
  - intros p fields fs' r [->|(q & d & s & Hq & ->)]%update_frontmatter_inv;
      [done|].
    by eapply well_formed_insert_file.
Qed.

Lemma operations_keep_well_formed_witness :
  well_formed (vault_path Demo.self)
    (<[[str "vault"; str "Projects"; str "New.md"]
       := File (Some (str "New note"))]> Demo.fs).
Proof.
  apply (proj1 (operations_keep_well_formed (Y := plain_yaml) (P := Demo.os)
                  Demo.self Demo.fs
                  ltac:(apply (bool_decide_unpack _); vm_compute; exact I))
           (str "Projects/New.md") (str "New note") None _ (inr ())).
  apply (create_note_in_dir (Y := plain_yaml) (P := Demo.os) Demo.self
           (str "Projects/New.md") [str "vault"; str "Projects"; str "New.md"]
           (str "New note") None Demo.fs); vm_compute; reflexivity.
Defined.

(** X25.  What is created is shown: in a well-formed vault whose root is a
    directory, and whose entries may all be listed and examined once the
    note is there, a note created at a path below the root, with the suffix
    [.md] and no component that starts with a dot, appears in the tree of
    [get_vault_structure] under its path relative to the root. *)
Theorem created_note_is_shown {Y : Yaml} {P : Platform} {A : Access}
    (self : VaultManager) (p : text) (q rel : path) (content_ : text)
    (fm : option dict) (fs fs' : fsys) :
  well_formed (vault_path self) fs ->
  fs !! vault_path self = Some Dir ->
  _resolve_path self p = inr q ->
  create_note self p content_ fm fs = (fs', inr ()) ->
  permitted fs' ->
  q = vault_path self ++ rel ->
  Forall (fun n => startswith (str ".") n = false) rel ->
  suffix q = str ".md" ->
  exists t, get_vault_structure self fs' = Some (inr t)
            /\ as_posix rel ∈ notes_of t.
Proof.
  intros Hwf Hroot Hq Hc Hperm -> Hvis Hsuf.
  pose proof (create_note_well_formed _ _ _ _ _ _ _ _ Hwf Hc) as Hwf'.
  destruct (create_note_inv _ _ _ _ _ _ _ _ Hq Hc)
    as [(_ & _ & [=])|[(_ & _ & e & [=] & _)|(Hn & _ & fs1 & Hmk & ->)]].
  assert (Hrel : rel <> []).
  { intros ->. rewrite app_nil_r in Hn. congruence. }
  set (fs' := <[vault_path self ++ rel
                := File (Some (universal_newlines (written_text fm content_)))]>
                fs1) in *.
  assert (Hroot' : fs' !! vault_path self = Some Dir).
  { unfold fs'. rewrite lookup_insert_ne.
    - destruct (mkdir_parents_grow _ _ _ Hmk (vault_path self))
        as [->|(Hnone & _)]; congruence.
    - intros Heq. apply (f_equal length) in Heq. rewrite length_app in Heq.
      destruct rel; [done|]. simpl in Heq. lia. }
  destruct (build_tree_total self fs' (S (depth fs')) (vault_path self))
    as [t Ht]; [done|lia|].
  exists t. split; [exact Ht|].
  replace (as_posix rel) with (rel_posix self (vault_path self ++ rel))
    by (unfold rel_posix; by rewrite (proj2 (relative_to_Some _ _ rel) eq_refl)).
  apply (build_tree_complete _ _ _ _ _ _ Hperm Ht).
  rewrite <- (app_nil_r (vault_path self)) at 1.
  apply (visible_note_well_formed _ fs' [] rel
           (Some (universal_newlines (written_text fm content_))));
    [done| |done|done|done].
  unfold fs'. apply lookup_insert_eq.
Qed.

Lemma created_note_is_shown_witness :
  exists t,
    get_vault_structure (A := unrestricted) Demo.self
      (<[[str "vault"; str "Projects"; str "New.md"]
         := File (Some (str "New note"))]> Demo.fs) = Some (inr t)
    /\ str "Projects/New.md" ∈ notes_of t.
Proof.
  apply (created_note_is_shown (Y := plain_yaml) (P := Demo.os)
           (A := unrestricted) Demo.self
           (str "Projects/New.md") [str "vault"; str "Projects"; str "New.md"]
           [str "Projects"; str "New.md"] (str "New note") None Demo.fs).
  - apply (bool_decide_unpack _). vm_compute. exact I.
  - vm_compute. reflexivity.
  - vm_compute. reflexivity.
  - apply (create_note_in_dir (Y := plain_yaml) (P := Demo.os) Demo.self
             (str "Projects/New.md") [str "vault"; str "Projects"; str "New.md"]
             (str "New note") None Demo.fs); vm_compute; reflexivity.
  - done.
  - reflexivity.
  - repeat constructor.
  - vm_compute. reflexivity.
Defined.
